(** * K-Means clustering core of the ORA clustering worker

    A shallow embedding of [src/lib/kmeans.ts]: the distance and similarity
    functions, K-Means++ seeding, nearest-centroid assignment, centroid
    update, the clustering driver and the extraction of cluster
    representatives; and of the part of [runClustering] in [src/index.ts]
    that leads to the call of the driver.

    - A JavaScript [number] is an IEEE 754 binary64 value: [spec_float] at
      precision 53 with the arithmetic of the Standard Library's
      [SpecFloat], rounding to nearest even.  Integer-valued numbers that
      the code only counts with or indexes with ([k], [n], loop counters,
      cluster indices) are [nat].
    - A [number[]] is a mutable object.  The inner arrays (input vectors,
      centroids, the [sums] rows) live in a store, vectors and centroids are
      lists of references into it.
    - [Math.random()] is an explicit source [random : nat -> num] read
      through a cursor held in the state.
    - A JavaScript exception is an [error] outcome. *)

From Stdlib Require Import ZArith List Bool Lia.
From Stdlib Require Import Floats.SpecFloat.
From stdpp Require Import base option list sorting.

(** ** Numbers *)

Abbreviation num := spec_float.

Module Num.

Definition prec : Z := 53.
Definition emax : Z := 1024.

Definition NaN : num := S754_nan.
Definition zero : num := S754_zero false.
Definition Infinity : num := S754_infinity false.

Definition add : num -> num -> num := SFadd prec emax.
Definition sub : num -> num -> num := SFsub prec emax.
Definition mul : num -> num -> num := SFmul prec emax.
Definition div : num -> num -> num := SFdiv prec emax.
Definition sqrt : num -> num := SFsqrt prec emax.

(** [<], [<=] and [===] on numbers; all three are false on NaN. *)
Definition ltb : num -> num -> bool := SFltb.
Definition leb : num -> num -> bool := SFleb.
Definition eqb : num -> num -> bool := SFeqb.

(** The number holding an integer (exact below 2^53). *)
Definition ofZ (z : Z) : num := binary_normalize prec emax z 0 false.
Definition ofNat (n : nat) : num := ofZ (Z.of_nat n).

(** m * 2^e, rounded. *)
Definition scaled (m e : Z) : num := binary_normalize prec emax m e false.

Definition isNaN (x : num) : bool :=
  match x with S754_nan => true | _ => false end.

Definition isFinite (x : num) : bool :=
  match x with S754_zero _ | S754_finite _ _ _ => true | _ => false end.

Definition valid (x : num) : bool := valid_binary prec emax x.

(** [Math.floor(x)] used as an array index: [Some i] when the floor is
    the non-negative integer [i], [None] when it is negative, infinite or
    NaN (indexing an array with such a value reads [undefined]). *)
Definition floorIndex (x : num) : option nat :=
  match x with
  | S754_zero _ => Some 0
  | S754_finite false m e => Some (Z.to_nat (Z.shiftl (Zpos m) e))
  | _ => None
  end.

(** [Math.min] of two numbers: NaN if either is, and -0 below +0. *)
Definition min2 (x y : num) : num :=
  match x, y with
  | S754_nan, _ | _, S754_nan => S754_nan
  | S754_zero sx, S754_zero sy => S754_zero (sx || sy)
  | _, _ => if SFltb y x then y else x
  end.

(** [Math.min(...l)]; [Infinity] for no argument. *)
Definition Math_min (l : list num) : num := fold_left min2 l Infinity.

End Num.

Export Num.

Declare Scope num_scope.
Delimit Scope num_scope with num.
Bind Scope num_scope with spec_float.
Infix "+" := add : num_scope.
Infix "-" := sub : num_scope.
Infix "*" := mul : num_scope.
Infix "/" := div : num_scope.
Infix "<?" := ltb : num_scope.
Infix "<=?" := leb : num_scope.
Infix "=?" := eqb : num_scope.

(** ** Arrays of numbers *)

(** [a[i]] in an arithmetic expression: a missing element is [undefined],
    which arithmetic converts to NaN. *)
Definition at_ (a : list num) (i : nat) : num := nth i a NaN.

(** ** Distance and similarity *)

Definition euclideanDistance (a b : list num) : num :=
  sqrt (fold_left
          (fun sum i => let diff := (at_ a i - at_ b i)%num in (sum + diff * diff)%num)
          (seq 0 (length a)) zero).

(** The three accumulators of [cosineSimilarity]'s loop. *)
Record cosAcc := { dotProduct : num; normA : num; normB : num }.

Definition cosStep (a b : list num) (acc : cosAcc) (i : nat) : cosAcc :=
  {| dotProduct := (dotProduct acc + at_ a i * at_ b i)%num;
     normA := (normA acc + at_ a i * at_ a i)%num;
     normB := (normB acc + at_ b i * at_ b i)%num |}.

Definition cosLoop (a b : list num) : cosAcc :=
  fold_left (cosStep a b) (seq 0 (length a))
            {| dotProduct := zero; normA := zero; normB := zero |}.

Definition magnitude (a b : list num) : num :=
  (sqrt (normA (cosLoop a b)) * sqrt (normB (cosLoop a b)))%num.

Definition cosineSimilarity (a b : list num) : num :=
  if (magnitude a b =? zero)%num then zero
  else (dotProduct (cosLoop a b) / magnitude a b)%num.

(** The squared norm and the norm of a vector, summed left to right as the
    loop of [cosineSimilarity] sums them. *)
Definition sqNorm (v : list num) : num :=
  fold_left (fun s x => (s + x * x)%num) v zero.

Definition norm (v : list num) : num := sqrt (sqNorm v).

(** ** Store, random source and exceptions *)

(** A reference to a [number[]] object. *)
Abbreviation loc := nat.

Inductive error :=
| TypeError
    (* reading a property of [undefined], or spreading [undefined] *)
| NotEnoughVectors (n k : nat).
    (* [new Error(`Not enough vectors (${n}) for ${k} clusters`)] *)

(** The store of [number[]] objects, indexed by reference, and the number of
    [Math.random()] calls made so far. *)
Record world := { heap : list (list num); cursor : nat }.

Inductive outcome (A : Type) :=
| Ok (a : A) (w : world)
| Throw (e : error).
Arguments Ok {A} a w.
Arguments Throw {A} e.

Definition M (A : Type) : Type := world -> outcome A.

Definition ret {A} (a : A) : M A := fun w => Ok a w.

Definition bind {A B} (m : M A) (f : A -> M B) : M B :=
  fun w => match m w with
           | Ok a w' => f a w'
           | Throw e => Throw e
           end.

Definition throw {A} (e : error) : M A := fun _ => Throw e.

Notation "x <- m ;; f" := (bind m (fun x => f))
  (at level 100, m at next level, right associativity).

(** The contents of the array at a reference. *)
Definition deref (h : list (list num)) (l : loc) : list num := default [] (h !! l).

Definition getHeap : M (list (list num)) := fun w => Ok (heap w) w.

Definition load (l : loc) : M (list num) := fun w => Ok (deref (heap w) l) w.

(** A new array object. *)
Definition alloc (a : list num) : M loc :=
  fun w => Ok (length (heap w)) {| heap := heap w ++ [a]; cursor := cursor w |}.

(** [row[d] = x]. *)
Definition store (row : loc) (d : nat) (x : num) : M unit :=
  fun w => Ok tt {| heap := <[row := <[d := x]> (deref (heap w) row)]> (heap w);
                    cursor := cursor w |}.

(** [o.length] and [[...o]] where [o] is an array element that may be
    [undefined]: both throw a TypeError on [undefined]. *)
Definition lengthOf (o : option loc) : M nat :=
  match o with
  | Some l => a <- load l ;; ret (length a)
  | None => throw TypeError
  end.

Definition spread (o : option loc) : M loc :=
  match o with
  | Some l => a <- load l ;; alloc a
  | None => throw TypeError
  end.

Definition loadOpt (o : option loc) : M (list num) :=
  match o with
  | Some l => load l
  | None => throw TypeError
  end.

Fixpoint forEach {A} (l : list A) (body : A -> M unit) : M unit :=
  match l with
  | [] => ret tt
  | x :: l' => _ <- body x ;; forEach l' body
  end.

Fixpoint mapM {A B} (f : A -> M B) (l : list A) : M (list B) :=
  match l with
  | [] => ret []
  | x :: l' => y <- f x ;; ys <- mapM f l' ;; ret (y :: ys)
  end.

(** ** Nearest-centroid assignment *)

(** The scan of [assignToCentroid] from centroid [i] on. *)
Fixpoint nearest (vector : list num) (centroids : list (list num))
         (i : nat) (minDist : num) (assignment : nat) : nat :=
  match centroids with
  | [] => assignment
  | c :: rest =>
      let dist := euclideanDistance vector c in
      if (dist <? minDist)%num then nearest vector rest (S i) dist i
      else nearest vector rest (S i) minDist assignment
  end.

Definition assignToCentroid (h : list (list num)) (vector : loc) (centroids : list loc) : nat :=
  nearest (deref h vector) (map (deref h) centroids) 0 Infinity 0.

(** ** Driver data *)

Module KMeansOptions.
Record t := { k : nat; maxIterations : option nat; tolerance : option num }.
End KMeansOptions.

(** The default [tolerance = 0.0001]: the binary64 nearest to 1/10000. *)
Definition defaultTolerance : num := (ofZ 1 / ofZ 10000)%num.
Definition defaultMaxIterations : nat := 100.

Record ClusterResult :=
  { centroids : list loc; assignments : list nat; iterations : nat }.

(** How one pass of the driver's loop ends. *)
Inductive control := Break | Continue.

(** The number of [i < n] with [newAssignments[i] !== assignments[i]]. *)
Definition countChanged (newAssignments assignments : list nat) (n : nat) : nat :=
  length (filter (fun i => newAssignments !! i ≠ assignments !! i) (seq 0 n)).

(** The test [changed / n < tolerance]. *)
Definition converged (changed n : nat) (tolerance : num) : bool :=
  (ofNat changed / ofNat n <? tolerance)%num.

Section KMeans.

(** The values returned by successive calls of [Math.random()]. *)
Variable random : nat -> num.

Definition Math_random : M num :=
  fun w => Ok (random (cursor w)) {| heap := heap w; cursor := S (cursor w) |}.

(** [vectors[Math.floor(Math.random() * vectors.length)]] *)
Definition randomVector (vectors : list loc) : M (option loc) :=
  u <- Math_random ;;
  ret (floorIndex (u * ofNat (length vectors))%num ≫= (vectors !!.)).

(** ** K-Means++ seeding *)

(** The squared distance of every vector to its nearest chosen centroid. *)
Definition distancesTo (h : list (list num)) (vectors centroids : list loc) : list num :=
  map (fun v =>
         let minDist :=
           Math_min (map (fun c => euclideanDistance (deref h v) (deref h c)) centroids) in
         (minDist * minDist)%num)
      vectors.

(** The inner loop of the seeding, from index [j] on, over the distances
    that remain: the index at which [r] first drops to 0 or below. *)
Fixpoint pick (distances : list num) (r : num) (j : nat) : option nat :=
  match distances with
  | [] => None
  | d :: rest =>
      let r := (r - d)%num in
      if (r <=? zero)%num then Some j else pick rest r (S j)
  end.

(** The vector index drawn for the next centroid, for the value [u] that
    [Math.random()] returned. *)
Definition drawNext (distances : list num) (u : num) : option nat :=
  let totalDist := fold_left add distances zero in
  pick distances (u * totalDist)%num 0.

(** The loop [for (let i = 1; i < k; i++)], with [count] rounds to go. *)
Fixpoint seedLoop (vectors : list loc) (count : nat) (centroids : list loc) : M (list loc) :=
  match count with
  | 0 => ret centroids
  | S count' =>
      h <- getHeap ;;
      let distances := distancesTo h vectors centroids in
      u <- Math_random ;;
      centroids' <- match drawNext distances u with
                    | Some j => c <- spread (vectors !! j) ;; ret (centroids ++ [c])
                    | None => ret centroids
                    end ;;
      seedLoop vectors count' centroids'
  end.

Definition initializeCentroids (vectors : list loc) (k : nat) : M (list loc) :=
  dim <- lengthOf (vectors !! 0) ;;
  first <- randomVector vectors ;;
  c <- spread first ;;
  seedLoop vectors (k - 1) [c].

(** ** Centroid update *)

(** [Array.from({ length: k }, () => new Array(dim).fill(0))] *)
Fixpoint newSums (k dim : nat) : M (list loc) :=
  match k with
  | 0 => ret []
  | S k' => row <- alloc (replicate dim zero) ;; rows <- newSums k' dim ;; ret (row :: rows)
  end.

(** [sums[cluster][d] += vectors[i][d]], where [row] is [sums[cluster]]
    and [v] is [vectors[i]]. *)
Definition addInto (row : option loc) (v : loc) (d : nat) : M unit :=
  match row with
  | Some s => h <- getHeap ;; store s d (at_ (deref h s) d + at_ (deref h v) d)%num
  | None => throw TypeError
  end.

(** The first loop of [recalculateCentroids], from vector [i] on.  [counts]
    holds the first [k] counters: [counts[cluster]++] with [cluster] out of
    that range leaves them as they are. *)
Fixpoint accumulate (vectors : list loc) (i : nat) (assignments : list nat)
         (dim : nat) (sums : list loc) (counts : list nat) : M (list nat) :=
  match vectors with
  | [] => ret counts
  | v :: rest =>
      let cluster := assignments !! i in
      let counts := match cluster with
                    | Some c => alter S c counts
                    | None => counts
                    end in
      _ <- forEach (seq 0 dim) (addInto (cluster ≫= (sums !!.)) v) ;;
      accumulate rest (S i) assignments dim sums counts
  end.

(** The centroid pushed for cluster [i] by the second loop. *)
Definition centroidOf (vectors sums : list loc) (counts : list nat) (i : nat) : M loc :=
  match counts !! i with
  | Some (S _ as count) =>
      row <- loadOpt (sums !! i) ;;
      alloc (map (fun s => (s / ofNat count)%num) row)
  | _ =>
      v <- randomVector vectors ;;
      spread v
  end.

Definition recalculateCentroids (vectors : list loc) (assignments : list nat)
           (k dim : nat) : M (list loc) :=
  sums <- newSums k dim ;;
  counts <- accumulate vectors 0 assignments dim sums (replicate k 0) ;;
  mapM (centroidOf vectors sums counts) (seq 0 k).

(** ** Clustering driver *)

(** The assignment of every vector to its nearest centroid. *)
Definition assignAll (h : list (list num)) (vectors cents : list loc) : list nat :=
  map (fun v => assignToCentroid h v cents) vectors.

(** One pass of the loop body, entered with loop counter [iter] and the
    variables [centroids], [assignments], [iterations] held in [st]. *)
Definition iteration (vectors : list loc) (k dim : nat) (tolerance : num)
           (iter : nat) (st : ClusterResult) : M (control * ClusterResult) :=
  h <- getHeap ;;
  let n := length vectors in
  let newAssignments := assignAll h vectors (centroids st) in
  let changed := countChanged newAssignments (assignments st) n in
  if converged changed n tolerance then
    ret (Break, {| centroids := centroids st;
                   assignments := newAssignments;
                   iterations := iter + 1 |})
  else
    cents <- recalculateCentroids vectors newAssignments k dim ;;
    ret (Continue, {| centroids := cents;
                      assignments := newAssignments;
                      iterations := iter + 1 |}).

(** The loop [for (let iter = 0; iter < maxIterations; iter++)] with
    [passes = maxIterations - iter] passes to go. *)
Fixpoint iterate (vectors : list loc) (k dim : nat) (tolerance : num)
         (passes iter : nat) (st : ClusterResult) : M ClusterResult :=
  match passes with
  | 0 => ret st
  | S passes' =>
      r <- iteration vectors k dim tolerance iter st ;;
      match r with
      | (Break, st') => ret st'
      | (Continue, st') => iterate vectors k dim tolerance passes' (S iter) st'
      end
  end.

Definition kMeansClustering (vectors : list loc) (options : KMeansOptions.t)
  : M ClusterResult :=
  let k := KMeansOptions.k options in
  let maxIterations := default defaultMaxIterations (KMeansOptions.maxIterations options) in
  let tolerance := default defaultTolerance (KMeansOptions.tolerance options) in
  let n := length vectors in
  dim <- lengthOf (vectors !! 0) ;;
  if n <? k then throw (NotEnoughVectors n k)
  else
    cents <- initializeCentroids vectors k ;;
    iterate vectors k dim tolerance maxIterations 0
            {| centroids := cents; assignments := replicate n 0; iterations := 0 |}.

End KMeans.

(** ** Cluster representatives *)

(** [Array.prototype.sort(compare)] is a stable sort: [compare a b > 0]
    puts [b] before [a], any other value (negative, zero, NaN) leaves [a]
    before [b].  Insertion from the right is such a sort.  It is the order
    of the engine when [compare] orders the elements consistently, and on
    two elements; when [compare] returns NaN for some pairs of a longer
    array the language leaves the order to the engine, which can differ
    from this one. *)
Fixpoint insertSorted {A} (compare : A -> A -> num) (x : A) (l : list A) : list A :=
  match l with
  | [] => [x]
  | y :: l' =>
      if (zero <? compare x y)%num then y :: insertSorted compare x l'
      else x :: l
  end.

Fixpoint sortBy {A} (compare : A -> A -> num) (l : list A) : list A :=
  match l with
  | [] => []
  | x :: l' => insertSorted compare x (sortBy compare l')
  end.

(** An element of [clusterPosts]. *)
Record clusterPost (P : Type) := { post : P; similarity : num }.
Arguments post {P} _.
Arguments similarity {P} _.

(** An element of the lists returned. *)
Module Representative.
Record t (P : Type) := { cluster : nat; posts : list P; similarity : num }.
Arguments cluster {P} _.
Arguments posts {P} _.
Arguments similarity {P} _.
End Representative.

Section Representatives.

(** The opaque payload carried with each vector. *)
Context {P : Type}.

(** [(a, b) => b.similarity - a.similarity] *)
Definition bySimilarity (a b : clusterPost P) : num :=
  (similarity b - similarity a)%num.

(** The loop over [posts] for cluster [c], from index [i] on; [centroid]
    is the contents of [centroids[c]].  [cosineSimilarity] reads
    [vectors[i].length], a TypeError when [vectors[i]] is [undefined]. *)
Fixpoint clusterPostsFrom (vectors : list loc) (assignments : list nat)
         (c : nat) (centroid : list num) (posts : list P) (i : nat)
  : M (list (clusterPost P)) :=
  match posts with
  | [] => ret []
  | p :: rest =>
      if decide (assignments !! i = Some c) then
        a <- loadOpt (vectors !! i) ;;
        more <- clusterPostsFrom vectors assignments c centroid rest (S i) ;;
        ret ({| post := p; similarity := cosineSimilarity a centroid |} :: more)
      else clusterPostsFrom vectors assignments c centroid rest (S i)
  end.

(** The list pushed for cluster [c]. *)
Definition representativesOf (vectors : list loc) (posts : list P)
           (cents : list loc) (assignments : list nat) (topN : nat) (c : nat)
  : M (list (Representative.t P)) :=
  centroid <- loadOpt (cents !! c) ;;
  clusterPosts <- clusterPostsFrom vectors assignments c centroid posts 0 ;;
  ret (map (fun cp => {| Representative.cluster := c;
                         Representative.posts := [post cp];
                         Representative.similarity := similarity cp |})
           (take topN (sortBy bySimilarity clusterPosts))).

Definition getClusterRepresentatives (vectors : list loc) (posts : list P)
           (cents : list loc) (assignments : list nat) (topN : nat)
  : M (list (list (Representative.t P))) :=
  mapM (representativesOf vectors posts cents assignments topN) (seq 0 (length cents)).

End Representatives.

Definition defaultTopN : nat := 5.

(** ** The caller: [runClustering] in [src/index.ts] *)

(** A post fetched from Firestore, as [runClustering] reads it: its
    [embedding] field is a reference to an array of numbers, or [None] when
    the field is missing or is not an array; the other fields are an opaque
    payload. *)
Module PostEmbedding.
Record t (P : Type) := { embedding : option loc; fields : P }.
Arguments embedding {P} _.
Arguments fields {P} _.
End PostEmbedding.

(** [Array.isArray(embedding) && embedding.length > 0] *)
Definition validEmbedding {P} (h : list (list num)) (post : PostEmbedding.t P) : bool :=
  match PostEmbedding.embedding post with
  | Some e => 0 <? length (deref h e)
  | None => false
  end.

(** The loop [for (const post of posts)] that fills [vectors] and
    [validPosts]. *)
Fixpoint extractEmbeddings {P} (h : list (list num)) (posts : list (PostEmbedding.t P))
         (vectors : list loc) (validPosts : list (PostEmbedding.t P))
  : list loc * list (PostEmbedding.t P) :=
  match posts with
  | [] => (vectors, validPosts)
  | post :: rest =>
      match PostEmbedding.embedding post with
      | Some e =>
          if 0 <? length (deref h e)
          then extractEmbeddings h rest (vectors ++ [e]) (validPosts ++ [post])
          else extractEmbeddings h rest vectors validPosts
      | None => extractEmbeddings h rest vectors validPosts
      end
  end.

(** The errors of [runClustering] up to its call of [kMeansClustering]:
    its own [new Error(`Not enough posts with embeddings ...`)], or what
    the callee throws. *)
Inductive runError :=
| NotEnoughPosts (n k : nat)
| Thrown (e : error).

Inductive runOutcome (A : Type) :=
| Done (a : A) (w : world)
| Failed (e : runError).
Arguments Done {A} a w.
Arguments Failed {A} e.

(** What [runClustering] holds after its call of [kMeansClustering]. *)
Module Clustered.
Record t (P : Type) :=
  { vectors : list loc; validPosts : list (PostEmbedding.t P); result : ClusterResult }.
Arguments vectors {P} _.
Arguments validPosts {P} _.
Arguments result {P} _.
End Clustered.

(** [runClustering] from the posts fetched to the result of
    [kMeansClustering(vectors, { k })]. *)
Definition runClustering_kMeans {P} (random : nat -> num)
           (posts : list (PostEmbedding.t P)) (k : nat)
  : world -> runOutcome (Clustered.t P) :=
  fun w =>
    if length posts <? k then Failed (NotEnoughPosts (length posts) k)
    else
      let (vectors, validPosts) := extractEmbeddings (heap w) posts [] [] in
      let options := {| KMeansOptions.k := k;
                         KMeansOptions.maxIterations := None;
                         KMeansOptions.tolerance := None |} in
      match kMeansClustering random vectors options w with
      | Ok res w' =>
          Done {| Clustered.vectors := vectors;
                  Clustered.validPosts := validPosts;
                  Clustered.result := res |} w'
      | Throw e => Failed (Thrown e)
      end.

(** * Specification vocabulary *)

(** ** Computations that return *)

(** [wp m w Q]: run from [w], [m] returns normally and [Q] holds of the
    value and world it returns. *)
Definition wp {A} (m : M A) (w : world) (Q : A -> world -> Prop) : Prop :=
  match m w with
  | Ok a w' => Q a w'
  | Throw _ => False
  end.

(** ** Stores *)

(** [frame b h h']: from [h] to [h'] the store only grew and the arrays at
    references below [b] are as they were. *)
Definition frame (b : nat) (h h' : list (list num)) : Prop :=
  length h <= length h' /\
  forall l, l < b -> h' !! l = h !! l.

(** [fresh b h cs]: the references [cs] are allocated in [h], at or after
    the mark [b]. *)
Definition fresh (b : nat) (h : list (list num)) (cs : list loc) : Prop :=
  Forall (fun c => b <= c < length h) cs.

(** [copyOfInput h0 vectors h c]: in [h] the reference [c] is allocated and
    holds what one of the [vectors] held in [h0]. *)
Definition copyOfInput (h0 : list (list num)) (vectors : list loc)
           (h : list (list num)) (c : loc) : Prop :=
  exists v, v ∈ vectors /\ h !! c = Some (deref h0 v).

(** [uniform h dim ls]: the references [ls] are allocated in [h] and hold
    arrays of length [dim]. *)
Definition uniform (h : list (list num)) (dim : nat) (ls : list loc) : Prop :=
  Forall (fun l => length <$> h !! l = Some dim) ls.

(** ** The random source *)

(** A binary64 number in [0, 1): what [Math.random()] returns. *)
Definition unitInterval (u : num) : bool :=
  valid u && (zero <=? u)%num && (u <? ofZ 1)%num.

(** A random source all of whose values are in [0, 1). *)
Definition unitDraws (random : nat -> num) : Prop :=
  forall i, unitInterval (random i) = true.

(** [Number.MAX_SAFE_INTEGER]: integers up to it are numbers, exactly. *)
Definition maxSafeInteger : Z := 2 ^ 53 - 1.

(** [Math.floor(Math.random() * n)] is an index below [n], at every
    draw. *)
Definition goodDraws (random : nat -> num) (n : nat) : Prop :=
  forall i, exists j, floorIndex (random i * ofNat n)%num = Some j /\ j < n.

(** [drawn random vectors c]: what
    [vectors[Math.floor(Math.random() * vectors.length)]] reads when its
    call of [Math.random()] is the one numbered [c]. *)
Definition drawn (random : nat -> num) (vectors : list loc) (c : nat) : option loc :=
  floorIndex (random c * ofNat (length vectors))%num ≫= (vectors !!.).

(** ** Numbers *)

(** [signFalse x]: the sign bit of [x] is clear (or [x] is NaN). *)
Definition signFalse (x : num) : bool :=
  match x with
  | S754_zero s | S754_infinity s | S754_finite s _ _ => negb s
  | S754_nan => true
  end.

(** The integer that [b - a] rounds, for finite [a] and [b]: the difference
    of the two signed mantissas aligned at the smaller exponent. *)
Definition alignedDiff (sb : bool) (mb : positive) (eb : Z)
           (sa : bool) (ma : positive) (ea : Z) : Z :=
  let ez := Z.min eb ea in
  (cond_Zopp sb (Zpos (fst (shl_align mb eb ez))) -
   cond_Zopp sa (Zpos (fst (shl_align ma ea ez))))%Z.

(** The record reached after shifting [N] right by [k] bits: its mantissa
    is the quotient, and its round bit is set only when the remainder is
    at least half of 2^k. *)
Definition shifted (N k : Z) (mrs : shr_record) : Prop :=
  exists rem, (N = shr_m mrs * 2 ^ k + rem /\ 0 <= rem < 2 ^ k /\
               (shr_r mrs = true -> 2 ^ k <= 2 * rem))%Z.

(** Half of the unit in the last place that [m * 2^e] is rounded to, in
    units of 2^e. *)
Definition halfUlp (m e : Z) : Z :=
  let s := (fexp prec emax (Zdigits2 m + e) - e)%Z in
  if (0 <? s)%Z then (2 ^ (s - 1))%Z else 0%Z.

(** A well-formed binary64 number other than NaN. *)
Definition comparable (x : num) : bool := valid x && negb (isNaN x).

(** Each element is [>=] the next. *)
Definition nonIncreasing (l : list num) : Prop :=
  Sorted (fun x y => (y <=? x)%num = true) l.

(** ** Clusters *)

(** The number of posts [i < n] with [assignments[i] === c]. *)
Definition members (assignments : list nat) (n c : nat) : nat :=
  length (filter (fun i => assignments !! i = Some c) (seq 0 n)).

(** The number of clusters below [i] that no vector is assigned to. *)
Definition emptyBelow (assignments : list nat) (i : nat) : nat :=
  length (filter (fun c => c ∉ assignments) (seq 0 i)).

(** The contents, in [h], of the vectors assigned to cluster [c], in the
    order of their indices. *)
Definition clusterVectors (h : list (list num)) (vectors : list loc)
           (assignments : list nat) (c : nat) : list (list num) :=
  map (fun va => deref h va.1) (filter (fun va => va.2 = c) (zip vectors assignments)).

(** Coordinate [d] summed over [vs] as the first loop of
    [recalculateCentroids] sums it: from 0, in order. *)
Definition coordinateSum (vs : list (list num)) (d : nat) : num :=
  fold_left (fun s v => (s + at_ v d)%num) vs zero.

(** The mean of the vectors [vs] over [dim] coordinates. *)
Definition mean (vs : list (list num)) (dim : nat) : list num :=
  map (fun d => (coordinateSum vs d / ofNat (length vs))%num) (seq 0 dim).

(** [row[d] += v[d]] for every [d < dim]. *)
Definition addRow (dim : nat) (row v : list num) : list num :=
  map (fun d => (at_ row d + at_ v d)%num) (seq 0 dim).

(** [centroidsAreMeans h vectors k dim st]: in [h], the centroid of every
    cluster below [k] that has members under the assignment of [st] is the
    mean of these members. *)
Definition centroidsAreMeans (h : list (list num)) (vectors : list loc) (k dim : nat)
           (st : ClusterResult) : Prop :=
  forall c, c < k -> clusterVectors h vectors (assignments st) c <> [] ->
    exists l, centroids st !! c = Some l /\
              h !! l = Some (mean (clusterVectors h vectors (assignments st) c) dim).

(** The element of [clusterPosts] pushed for the post at index [j]. *)
Definition pushedFor {P} (h : list (list num)) (vectors : list loc) (all : list P)
           (centroid : list num) (j : nat) (cp : clusterPost P) : Prop :=
  exists p v, all !! j = Some p /\ vectors !! j = Some v /\
              cp = {| post := p; similarity := cosineSimilarity (deref h v) centroid |}.

(** * Example data *)

Definition half : num := (ofZ 1 / ofZ 2)%num.

(** A random source that always returns 0.5. *)
Definition halves : nat -> num := fun _ => half.

(** The call [kMeansClustering(vectors, { k })]. *)
Definition onlyK (k : nat) : KMeansOptions.t :=
  {| KMeansOptions.k := k;
     KMeansOptions.maxIterations := None;
     KMeansOptions.tolerance := None |}.

Definition zeroTolerance (k maxIterations : nat) : KMeansOptions.t :=
  {| KMeansOptions.k := k;
     KMeansOptions.maxIterations := Some maxIterations;
     KMeansOptions.tolerance := Some zero |}.

(** The two groups of three points. *)
Definition sixPoints : list (list num) :=
  [[ofZ 0; ofZ 0]; [ofZ 0; ofZ 1]; [ofZ 1; ofZ 0];
   [ofZ 10; ofZ 10]; [ofZ 10; ofZ 11]; [ofZ 11; ofZ 10]].

Definition sixWorld : world := {| heap := sixPoints; cursor := 0 |}.

(** The six points with the two centroids of their groups. *)
Definition sixClustered : world :=
  {| heap := sixPoints ++ [[ofZ 1; ofZ 1]; [ofZ 31; ofZ 31]]; cursor := 0 |}.

Definition twoPoints : world :=
  {| heap := [[ofZ 0]; [ofZ 10]; [ofZ 0]; [ofZ 10]]; cursor := 2 |}.

(** Two vectors of lengths 1 and 2. *)
Definition raggedWorld : world :=
  {| heap := [[ofZ 0]; [ofZ 1; ofZ 2]]; cursor := 0 |}.

(** The zero vector and a unit vector, with a centroid whose squared norm
    overflows. *)
Definition overflowWorld : world :=
  {| heap := [[ofZ 0]; [ofZ 1]; [scaled 1 600]]; cursor := 0 |}.

(** Two vectors so far apart that their squared distance overflows. *)
Definition farWorld : world :=
  {| heap := [[ofZ 0]; [scaled 1 600]]; cursor := 0 |}.

(** * Properties *)

(** ** Reasoning about computations *)

Lemma wp_ok {A} (m : M A) w Q :
  wp m w Q <-> exists a w', m w = Ok a w' /\ Q a w'.
Proof.
  unfold wp. split.
  - destruct (m w) as [a w'|e]; [eauto | tauto].
  - intros (a & w' & -> & HQ). exact HQ.
Qed.

Lemma wp_ret {A} (a : A) w (Q : A -> world -> Prop) : Q a w -> wp (ret a) w Q.
Proof. auto. Qed.

Lemma wp_bind {A B} (m : M A) (f : A -> M B) w Q :
  wp m w (fun a w' => wp (f a) w' Q) -> wp (x <- m ;; f x) w Q.
Proof. unfold wp, bind. destruct (m w); auto. Qed.

Lemma wp_mono {A} (m : M A) w (Q Q' : A -> world -> Prop) :
  wp m w Q -> (forall a w', Q a w' -> Q' a w') -> wp m w Q'.
Proof. unfold wp. destruct (m w); auto. Qed.

(** Primitive steps of a computation. *)

Lemma wp_getHeap {B} (f : list (list num) -> M B) w Q :
  wp (f (heap w)) w Q -> wp (h <- getHeap ;; f h) w Q.
Proof. exact id. Qed.

Lemma wp_load {B} l (f : list num -> M B) w Q :
  wp (f (deref (heap w) l)) w Q -> wp (a <- load l ;; f a) w Q.
Proof. exact id. Qed.

Lemma wp_random {B} random (f : num -> M B) w Q :
  wp (f (random (cursor w))) {| heap := heap w; cursor := S (cursor w) |} Q ->
  wp (u <- Math_random random ;; f u) w Q.
Proof. exact id. Qed.

Lemma wp_spread {B} v (f : loc -> M B) w Q :
  wp (f (length (heap w)))
     {| heap := heap w ++ [deref (heap w) v]; cursor := cursor w |} Q ->
  wp (c <- spread (Some v) ;; f c) w Q.
Proof. exact id. Qed.

(** ** Numbers *)

Lemma eqb_zero_inv x : (x =? zero)%num = true -> exists s, x = S754_zero s.
Proof. destruct x as [s|s| |s m e]; try destruct s; try discriminate; eauto. Qed.

Lemma mul_zero_finite x y :
  (x =? zero)%num = true -> isFinite y = true -> exists s, (x * y)%num = S754_zero s.
Proof.
  intros [s ->]%eqb_zero_inv Hy.
  destruct y as [t|t| |t m e]; try discriminate; simpl; eauto.
Qed.

Lemma mul_finite_zero x y :
  isFinite x = true -> (y =? zero)%num = true -> exists s, (x * y)%num = S754_zero s.
Proof.
  intros Hx [s ->]%eqb_zero_inv.
  destruct x as [t|t| |t m e]; try discriminate; simpl; eauto.
Qed.


Lemma binary_round_aux_sign m e l :
  signFalse (binary_round_aux prec emax false m e l) = true.
Proof.
  unfold binary_round_aux.
  destruct (shr_fexp prec emax m e l) as [mrs e'].
  destruct (shr_fexp prec emax _ e' loc_Exact) as [mrs' e''].
  destruct (shr_m mrs'); [reflexivity| |reflexivity].
  destruct (Z.leb _ _); reflexivity.
Qed.

Lemma ofNat_sign n : signFalse (ofNat n) = true.
Proof.
  unfold ofNat, ofZ, binary_normalize.
  destruct (Z.of_nat n) as [|p|p] eqn:Hn; [reflexivity| |lia].
  unfold binary_round. destruct (shl_align _ _ _) as [mz ez].
  apply binary_round_aux_sign.
Qed.

Lemma div_sign x y : signFalse x = true -> signFalse y = true -> signFalse (x / y)%num = true.
Proof.
  destruct x as [sx|sx| |sx mx ex], y as [sy|sy| |sy my ey];
    try destruct sx; try destruct sy; try discriminate; intros _ _; try reflexivity.
  unfold div, SFdiv. destruct (SFdiv_core_binary _ _ _ _ _ _) as [[mz ez] lz].
  apply binary_round_aux_sign.
Qed.

Lemma signFalse_not_ltb_zero x z :
  signFalse x = true -> (z =? zero)%num = true -> (x <? z)%num = false.
Proof.
  intros Hx [s ->]%eqb_zero_inv.
  destruct x as [sx|sx| |sx mx ex]; try destruct sx; try discriminate; reflexivity.
Qed.

(** With a zero tolerance the convergence test never holds. *)
Lemma converged_zero_tolerance changed n tolerance :
  (tolerance =? zero)%num = true -> converged changed n tolerance = false.
Proof.
  intros Hz. unfold converged. apply signFalse_not_ltb_zero; [|exact Hz].
  apply div_sign; apply ofNat_sign.
Qed.

(** ** Order and subtraction of binary64 numbers *)

Section FloatOrder.

Local Open Scope Z_scope.

Lemma digits2_pos_bounds m :
  2 ^ (Zpos (digits2_pos m) - 1) <= Zpos m < 2 ^ Zpos (digits2_pos m).
Proof.
  induction m as [m IH|m IH|]; simpl digits2_pos.
  - rewrite Pos2Z.inj_succ.
    replace (Z.succ (Zpos (digits2_pos m)) - 1) with (Z.succ (Zpos (digits2_pos m) - 1)) by lia.
    rewrite !Z.pow_succ_r by lia. lia.
  - rewrite Pos2Z.inj_succ.
    replace (Z.succ (Zpos (digits2_pos m)) - 1) with (Z.succ (Zpos (digits2_pos m) - 1)) by lia.
    rewrite !Z.pow_succ_r by lia. lia.
  - simpl. lia.
Qed.

Lemma iter_xO_value m d : Zpos (Pos.iter xO m d) = Zpos m * 2 ^ Zpos d.
Proof.
  induction d as [|d IH] using Pos.peano_ind.
  - simpl. lia.
  - rewrite Pos.iter_succ, Pos2Z.inj_succ, Z.pow_succ_r by lia.
    rewrite Pos2Z.inj_xO, IH. lia.
Qed.

Lemma shl_align_value mx ex ez :
  ez <= ex -> Zpos (fst (shl_align mx ex ez)) = Zpos mx * 2 ^ (ex - ez).
Proof.
  intros Hle. unfold shl_align.
  destruct (ez - ex) as [|d|d] eqn:Hd; simpl fst.
  - replace (ex - ez) with 0 by lia. simpl. lia.
  - lia.
  - rewrite iter_xO_value. f_equal. f_equal. lia.
Qed.

Lemma shl_align_exponent mx ex ez :
  snd (shl_align mx ex ez) = Z.min ex ez.
Proof.
  unfold shl_align. destruct (ez - ex) as [|d|d] eqn:Hd; simpl; lia.
Qed.

(** What [bounded] says of a mantissa and its exponent. *)
Lemma bounded_inv m e :
  bounded prec emax m e = true ->
  emin prec emax <= e /\
  Zpos (digits2_pos m) <= prec /\
  (emin prec emax < e -> Zpos (digits2_pos m) = prec).
Proof.
  unfold bounded, canonical_mantissa, fexp.
  intros [Hc _]%andb_prop. apply Z.eqb_eq in Hc. lia.
Qed.

Lemma shr_1_m mrs : 0 <= shr_m mrs -> shr_m (shr_1 mrs) = shr_m mrs / 2.
Proof.
  destruct mrs as [m r s]. cbn [shr_m]. intros Hm.
  destruct m as [|[p|p|]|p]; cbn [shr_1 shr_m]; try lia.
  - reflexivity.
  - apply (Z.div_unique _ _ _ 1); lia.
  - apply (Z.div_unique _ _ _ 0); lia.
  - reflexivity.
Qed.

Lemma iter_shr_1_m p mrs :
  0 <= shr_m mrs -> shr_m (SpecFloat.iter_pos shr_1 p mrs) = shr_m mrs / 2 ^ Zpos p.
Proof.
  revert mrs. induction p as [p IH|p IH|]; intros mrs Hm; cbn [SpecFloat.iter_pos].
  - assert (H1 : 0 <= shr_m (shr_1 mrs)).
    { rewrite shr_1_m by exact Hm. apply Z.div_pos; lia. }
    assert (H2 : 0 <= shr_m (SpecFloat.iter_pos shr_1 p (shr_1 mrs))).
    { rewrite IH by exact H1. apply Z.div_pos; [exact H1 | lia]. }
    rewrite IH, IH, shr_1_m by assumption.
    rewrite !Z.div_div by lia. f_equal.
    replace (Zpos p~1) with (1 + Zpos p + Zpos p) by lia.
    rewrite !Z.pow_add_r by lia. change (2 ^ 1) with 2. lia.
  - assert (H2 : 0 <= shr_m (SpecFloat.iter_pos shr_1 p mrs)).
    { rewrite IH by exact Hm. apply Z.div_pos; [exact Hm | lia]. }
    rewrite IH, IH by assumption.
    rewrite !Z.div_div by lia. f_equal.
    replace (Zpos p~0) with (Zpos p + Zpos p) by lia.
    rewrite Z.pow_add_r by lia. reflexivity.
  - rewrite shr_1_m by exact Hm. reflexivity.
Qed.

Lemma prec_pos : 1 <= prec.
Proof. unfold prec. lia. Qed.

(** Shifting a positive mantissa to its format exponent keeps it positive,
    when the exponent it starts from is not below [emin]. *)
Lemma shr_fexp_pos m e l :
  0 < m -> emin prec emax <= e ->
  0 < shr_m (fst (shr_fexp prec emax m e l)) /\
  emin prec emax <= snd (shr_fexp prec emax m e l).
Proof.
  intros Hm He. unfold shr_fexp, shr.
  assert (Hrec : shr_m (shr_record_of_loc m l) = m).
  { destruct l as [|[| |]]; reflexivity. }
  destruct (fexp prec emax (Zdigits2 m + e) - e) as [|n|n] eqn:Hn; simpl fst; simpl snd.
  - rewrite Hrec. lia.
  - rewrite iter_shr_1_m by (rewrite Hrec; lia). rewrite Hrec.
    destruct m as [|p|p]; try lia. simpl Zdigits2 in Hn.
    pose proof (digits2_pos_bounds p) as [Hlo _].
    pose proof prec_pos.
    unfold fexp in Hn.
    assert (Hd : Zpos n <= Zpos (digits2_pos p) - 1) by lia.
    split; [|lia].
    apply Z.div_str_pos. split; [lia|].
    eapply Z.le_trans; [|exact Hlo].
    apply Z.pow_le_mono_r; lia.
  - rewrite Hrec. lia.
Qed.

Lemma round_nearest_even_pos m l : 0 < m -> 0 < round_nearest_even m l.
Proof.
  intros Hm. destruct l as [|[| |]]; simpl; try lia.
  destruct (Z.even m); lia.
Qed.

Lemma binary_round_aux_pos sx m e l :
  0 < m -> emin prec emax <= e ->
  (exists m' e', binary_round_aux prec emax sx m e l = S754_finite sx m' e') \/
  binary_round_aux prec emax sx m e l = S754_infinity sx.
Proof.
  intros Hm He. unfold binary_round_aux.
  pose proof (shr_fexp_pos m e l Hm He) as [H1 H2].
  destruct (shr_fexp prec emax m e l) as [mrs' e']. simpl in H1, H2.
  pose proof (shr_fexp_pos _ e' loc_Exact
                (round_nearest_even_pos _ (loc_of_shr_record mrs') H1) H2) as [H3 _].
  destruct (shr_fexp prec emax _ e' loc_Exact) as [mrs'' e'']. simpl in H3.
  destruct (shr_m mrs'') as [|p|p]; try lia.
  destruct (e'' <=? emax - prec); eauto.
Qed.

Lemma binary_round_pos sx m e :
  emin prec emax <= e ->
  (exists m' e', binary_round prec emax sx m e = S754_finite sx m' e') \/
  binary_round prec emax sx m e = S754_infinity sx.
Proof.
  intros He. unfold binary_round.
  pose proof (shl_align_exponent m e (fexp prec emax (Zpos (digits2_pos m) + e))) as Hs.
  destruct (shl_align _ _ _) as [mz ez]. simpl in Hs.
  apply binary_round_aux_pos; [lia|].
  unfold fexp in Hs. lia.
Qed.

Lemma higher_exponent_larger (m1 m2 : positive) (e1 e2 : Z) :
  bounded prec emax m1 e1 = true -> bounded prec emax m2 e2 = true ->
  e1 < e2 ->
  Zpos m1 < Zpos m2 * 2 ^ (e2 - e1).
Proof.
  intros H1 H2 Hlt.
  apply bounded_inv in H1. destruct H1 as (Hmin1 & Hd1 & _).
  apply bounded_inv in H2. destruct H2 as (_ & _ & Hd2).
  specialize (Hd2 ltac:(lia)).
  pose proof (digits2_pos_bounds m1) as [_ Hhi].
  pose proof (digits2_pos_bounds m2) as [Hlo _].
  rewrite Hd2 in Hlo.
  pose proof prec_pos as Hp.
  assert (Hpow : 2 ^ Zpos (digits2_pos m1) <= 2 ^ prec)
    by (apply Z.pow_le_mono_r; lia).
  assert (Hprec : 2 ^ prec = 2 * 2 ^ (prec - 1)).
  { replace prec with (Z.succ (prec - 1)) at 1 by lia.
    rewrite Z.pow_succ_r by lia. reflexivity. }
  assert (Hk : 2 ^ 1 <= 2 ^ (e2 - e1)) by (apply Z.pow_le_mono_r; lia).
  change (2 ^ 1) with 2 in Hk.
  nia.
Qed.

Lemma alignedDiff_compare sa ma ea sb mb eb :
  bounded prec emax ma ea = true -> bounded prec emax mb eb = true ->
  match SFcompare (S754_finite sa ma ea) (S754_finite sb mb eb) with
  | Some Lt => 0 < alignedDiff sb mb eb sa ma ea
  | Some Eq => alignedDiff sb mb eb sa ma ea = 0
  | Some Gt => alignedDiff sb mb eb sa ma ea < 0
  | None => False
  end.
Proof.
  intros Ha Hb. unfold alignedDiff.
  rewrite !shl_align_value by lia.
  pose proof (higher_exponent_larger ma mb ea eb Ha Hb) as Hab.
  pose proof (higher_exponent_larger mb ma eb ea Hb Ha) as Hba.
  assert (Hsame : ea = eb -> 2 ^ (eb - Z.min eb ea) = 1 /\ 2 ^ (ea - Z.min eb ea) = 1).
  { intros ->. rewrite Z.min_id, Z.sub_diag. auto. }
  assert (Hlt : ea < eb -> 2 ^ (ea - Z.min eb ea) = 1 /\ Z.min eb ea = ea).
  { intros H. rewrite Z.min_r by lia. rewrite Z.sub_diag. auto. }
  assert (Hgt : eb < ea -> 2 ^ (eb - Z.min eb ea) = 1 /\ Z.min eb ea = eb).
  { intros H. rewrite Z.min_l by lia. rewrite Z.sub_diag. auto. }
  assert (Hpa : 0 < 2 ^ (ea - Z.min eb ea)) by (apply Z.pow_pos_nonneg; lia).
  assert (Hpb : 0 < 2 ^ (eb - Z.min eb ea)) by (apply Z.pow_pos_nonneg; lia).
  unfold SFcompare. rewrite Pos.compare_cont_spec. cbn [Pos.switch_Eq].
  destruct sa, sb; cbn [cond_Zopp];
    destruct (Z.compare_spec ea eb) as [He|He|He];
    try (destruct (Hsame He) as [-> ->];
         destruct (Pos.compare_spec ma mb) as [Hm|Hm|Hm];
         cbn [CompOpp Pos.switch_Eq]; try rewrite Hm; lia);
    try (destruct (Hlt He) as [-> ->]; specialize (Hab He); lia);
    try (destruct (Hgt He) as [-> ->]; specialize (Hba He); lia);
    nia.
Qed.

Lemma sub_finite sa ma ea sb mb eb :
  SFsub prec emax (S754_finite sb mb eb) (S754_finite sa ma ea)
  = binary_normalize prec emax (alignedDiff sb mb eb sa ma ea) (Z.min eb ea) false.
Proof. reflexivity. Qed.

Lemma zero_ltb_binary_normalize M e :
  emin prec emax <= e ->
  SFltb (S754_zero false) (binary_normalize prec emax M e false) = (0 <? M).
Proof.
  intros He. destruct M as [|p|p]; cbn [binary_normalize].
  - reflexivity.
  - destruct (binary_round_pos false p e He) as [(m' & e' & ->)| ->]; reflexivity.
  - destruct (binary_round_pos true p e He) as [(m' & e' & ->)| ->]; reflexivity.
Qed.

End FloatOrder.

(** For binary64 numbers other than NaN, [b - a] is positive exactly when
    [a < b]: the test a sort comparator [(a, b) => b - a] relies on. *)
Lemma zero_ltb_sub (a b : num) :
  valid a = true -> valid b = true -> isNaN a = false -> isNaN b = false ->
  (zero <? b - a)%num = (a <? b)%num.
Proof.
  intros Hva Hvb Hna Hnb.
  destruct a as [sa|sa| |sa ma ea], b as [sb|sb| |sb mb eb]; try discriminate;
    try (destruct sa, sb; reflexivity);
    try (destruct sa; reflexivity);
    try (destruct sb; reflexivity).
  unfold sub, ltb, zero. rewrite sub_finite.
  pose proof (bounded_inv _ _ Hva) as (Hea & _).
  pose proof (bounded_inv _ _ Hvb) as (Heb & _).
  rewrite zero_ltb_binary_normalize by lia.
  pose proof (alignedDiff_compare sa ma ea sb mb eb Hva Hvb) as Hc.
  unfold SFltb. destruct (SFcompare _ _) as [[| |]|]; [| | |tauto].
  - apply Z.ltb_ge. lia.
  - apply Z.ltb_lt. exact Hc.
  - apply Z.ltb_ge. lia.
Qed.

Lemma SFcompare_antisym (a b : num) c :
  SFcompare a b = Some c -> SFcompare b a = Some (CompOpp c).
Proof.
  destruct a as [sa|sa| |sa ma ea], b as [sb|sb| |sb mb eb];
    try destruct sa; try destruct sb; simpl; intros [= <-]; try reflexivity;
    rewrite (Z.compare_antisym ea eb);
    destruct (ea ?= eb)%Z; simpl; try reflexivity;
    rewrite !Pos.compare_cont_spec; simpl;
    rewrite (Pos.compare_antisym ma mb);
    destruct (ma ?= mb)%positive; reflexivity.
Qed.

Lemma not_ltb_leb (a b : num) :
  isNaN a = false -> isNaN b = false -> (a <? b)%num = false -> (b <=? a)%num = true.
Proof.
  intros Hna Hnb. unfold ltb, leb, SFltb, SFleb.
  destruct (SFcompare a b) as [c|] eqn:Hc.
  - rewrite (SFcompare_antisym _ _ _ Hc). destruct c; simpl; congruence.
  - destruct a, b; try discriminate; simpl in Hc; try discriminate;
      repeat match goal with s : bool |- _ => destruct s end; discriminate.
Qed.

Lemma ltb_leb (a b : num) : (a <? b)%num = true -> (a <=? b)%num = true.
Proof.
  unfold ltb, leb, SFltb, SFleb. destruct (SFcompare a b) as [[| |]|]; congruence.
Qed.

(** ** Rounding to nearest and the random index *)

Section RoundingBound.

Local Open Scope Z_scope.

Lemma shifted_shr_1 N k mrs :
  0 <= k -> 0 <= shr_m mrs -> shifted N k mrs -> shifted N (k + 1) (shr_1 mrs).
Proof.
  intros Hk Hm (rem & HN & Hrem & Hr).
  destruct mrs as [m r s]. cbn [shr_m shr_r] in *. unfold shifted.
  assert (Hp : 2 ^ (k + 1) = 2 * 2 ^ k).
  { rewrite Z.pow_add_r by lia. change (2 ^ 1) with 2. lia. }
  rewrite Hp.
  destruct m as [|[p|p|]|p]; cbn [shr_1 shr_m shr_r]; try lia.
  - exists rem. split; [lia|]. split; [lia|]. discriminate.
  - exists (2 ^ k + rem). rewrite Pos2Z.inj_xI in HN. split; [lia|]. split; lia.
  - exists rem. rewrite Pos2Z.inj_xO in HN. split; [lia|]. split; [lia|]. discriminate.
  - exists (2 ^ k + rem). split; [lia|]. split; lia.
Qed.

Lemma shr_1_nonneg mrs : 0 <= shr_m mrs -> 0 <= shr_m (shr_1 mrs).
Proof. intros H. rewrite shr_1_m by exact H. apply Z.div_pos; lia. Qed.

Lemma iter_shr_1_nonneg p mrs :
  0 <= shr_m mrs -> 0 <= shr_m (SpecFloat.iter_pos shr_1 p mrs).
Proof. intros H. rewrite iter_shr_1_m by exact H. apply Z.div_pos; lia. Qed.

Lemma shifted_iter N k p mrs :
  0 <= k -> 0 <= shr_m mrs -> shifted N k mrs ->
  shifted N (k + Zpos p) (SpecFloat.iter_pos shr_1 p mrs).
Proof.
  revert k mrs. induction p as [p IH|p IH|]; intros k mrs Hk Hm Hs; cbn [SpecFloat.iter_pos].
  - replace (k + Zpos p~1) with (k + 1 + Zpos p + Zpos p) by lia.
    apply IH; [lia| |].
    + apply iter_shr_1_nonneg, shr_1_nonneg, Hm.
    + apply IH; [lia|apply shr_1_nonneg, Hm|]. apply shifted_shr_1; assumption.
  - replace (k + Zpos p~0) with (k + Zpos p + Zpos p) by lia.
    apply IH; [lia|apply iter_shr_1_nonneg, Hm|]. apply IH; assumption.
  - apply shifted_shr_1; assumption.
Qed.

Lemma shr_shifted m e s :
  0 <= m ->
  let mrs := fst (shr (shr_record_of_loc m loc_Exact) e s) in
  let e' := snd (shr (shr_record_of_loc m loc_Exact) e s) in
  0 <= shr_m mrs /\ e' = e + Z.max s 0 /\ shifted m (Z.max s 0) mrs.
Proof.
  intros Hm. cbn [shr_record_of_loc]. unfold shr.
  assert (H0 : shifted m 0 (Build_shr_record m false false)).
  { exists 0. cbn [shr_m shr_r]. split; [lia|]. split; [simpl; lia|discriminate]. }
  destruct s as [|p|p]; cbn [fst snd].
  - rewrite Z.max_l by lia. cbn [shr_m]. split; [exact Hm|]. split; [lia|exact H0].
  - rewrite Z.max_l by lia. split; [apply iter_shr_1_nonneg; exact Hm|]. split; [reflexivity|].
    apply (shifted_iter m 0 p); [lia|exact Hm|exact H0].
  - rewrite Z.max_r by lia. cbn [shr_m]. split; [exact Hm|]. split; [lia|exact H0].
Qed.

Lemma round_nearest_even_bound mrs :
  let q := shr_m mrs in
  let q' := round_nearest_even q (loc_of_shr_record mrs) in
  q <= q' <= q + 1 /\ (shr_r mrs = false -> q' = q).
Proof.
  destruct mrs as [m r s]. cbn [shr_m shr_r].
  destruct r, s; cbn [loc_of_shr_record round_nearest_even];
    try destruct (Z.even m); split; try lia; try reflexivity; discriminate.
Qed.

(** Rounding [M * 2^e] to nearest gives at most [M * 2^e] plus half a unit
    in the last place. *)
Lemma binary_round_aux_upper sx M e :
  0 < M ->
  exists m'' e'',
    binary_round_aux prec emax sx M e loc_Exact
    = match m'' with
      | 0 => S754_zero sx
      | Zpos p => if e'' <=? emax - prec then S754_finite sx p e'' else S754_infinity sx
      | Zneg _ => S754_nan
      end /\
    0 <= m'' /\ e <= e'' /\
    m'' * 2 ^ (e'' - e) <= M + halfUlp M e.
Proof.
  intros HM. unfold binary_round_aux, shr_fexp.
  set (s := fexp prec emax (Zdigits2 M + e) - e).
  pose proof (shr_shifted M e s ltac:(lia)) as (Hq & He' & Hsh).
  destruct (shr (shr_record_of_loc M loc_Exact) e s) as [mrs' e'].
  cbn [fst snd] in Hq, He', Hsh.
  pose proof (round_nearest_even_bound mrs') as [Hq' Hexact].
  set (q' := round_nearest_even (shr_m mrs') (loc_of_shr_record mrs')) in *.
  set (s2 := fexp prec emax (Zdigits2 q' + e') - e').
  pose proof (shr_shifted q' e' s2 ltac:(lia)) as (Hm'' & He'' & Hsh2).
  destruct (shr (shr_record_of_loc q' loc_Exact) e' s2) as [mrs'' e''].
  cbn [fst snd] in Hm'', He'', Hsh2.
  exists (shr_m mrs''), e''. split; [reflexivity|]. split; [exact Hm''|]. split; [lia|].
  destruct Hsh as (rem & HM' & Hrem & Hr).
  destruct Hsh2 as (rem2 & Hq2 & Hrem2 & _).
  replace (e'' - e) with (Z.max s2 0 + Z.max s 0) by lia.
  rewrite Z.pow_add_r by lia.
  assert (Hstep : shr_m mrs'' * 2 ^ Z.max s2 0 <= q') by lia.
  assert (Hpow : 0 < 2 ^ Z.max s 0) by (apply Z.pow_pos_nonneg; lia).
  assert (Hbound : q' * 2 ^ Z.max s 0 <= M + halfUlp M e).
  { unfold halfUlp. fold s. destruct (0 <? s) eqn:Hs.
    - apply Z.ltb_lt in Hs. rewrite Z.max_l in * by lia.
      assert (H2 : 2 ^ s = 2 * 2 ^ (s - 1)).
      { replace s with (Z.succ (s - 1)) at 1 by lia. rewrite Z.pow_succ_r by lia. reflexivity. }
      destruct (shr_r mrs') eqn:Hrb.
      + specialize (Hr eq_refl). nia.
      + rewrite (Hexact eq_refl). nia.
    - apply Z.ltb_ge in Hs. rewrite Z.max_r in * by lia.
      change (2 ^ 0) with 1 in *.
      destruct (shr_r mrs') eqn:Hrb.
      + specialize (Hr eq_refl). lia.
      + rewrite (Hexact eq_refl). lia. }
  nia.
Qed.

End RoundingBound.

Section UnitDraws.

Local Open Scope Z_scope.

Lemma digits2_pos_unique m k :
  2 ^ (k - 1) <= Zpos m < 2 ^ k -> Zpos (digits2_pos m) = k.
Proof.
  intros [Hlo Hhi]. pose proof (digits2_pos_bounds m) as [Dlo Dhi].
  assert (Hk : 0 <= k).
  { destruct (Z_lt_le_dec k 0) as [Hneg|]; [|assumption].
    rewrite (Z.pow_neg_r 2 k) in Hhi by lia. lia. }
  assert (H1 : Zpos (digits2_pos m) - 1 < k).
  { apply (Z.pow_lt_mono_r_iff 2); lia. }
  assert (H2 : k - 1 < Zpos (digits2_pos m)).
  { apply (Z.pow_lt_mono_r_iff 2); lia. }
  lia.
Qed.

Lemma binary_round_aux_canonical sx m e :
  canonical_mantissa prec emax m e = true ->
  binary_round_aux prec emax sx (Zpos m) e loc_Exact
  = if e <=? emax - prec then S754_finite sx m e else S754_infinity sx.
Proof.
  intros Hc. unfold canonical_mantissa in Hc. apply Z.eqb_eq in Hc.
  unfold binary_round_aux, shr_fexp. cbn [Zdigits2 shr_record_of_loc].
  rewrite Hc, Z.sub_diag. cbn [shr shr_m loc_of_shr_record round_nearest_even].
  cbn [Zdigits2 shr_record_of_loc].
  rewrite Hc, Z.sub_diag. reflexivity.
Qed.

(** The number holding a positive integer below 2^53: the integer itself,
    with its mantissa shifted to 53 digits. *)
Lemma ofNat_finite n :
  (1 <= n)%nat -> Z.of_nat n < 2 ^ 53 ->
  exists mn en,
    ofNat n = S754_finite false mn en /\
    -52 <= en <= 0 /\
    Zpos mn = Z.of_nat n * 2 ^ (- en) /\
    2 ^ 52 <= Zpos mn < 2 ^ 53.
Proof.
  intros Hn Hlt. unfold ofNat, ofZ.
  destruct (Z.of_nat n) as [|p|p] eqn:Hp; try lia.
  cbn [binary_normalize]. unfold binary_round.
  pose proof (digits2_pos_bounds p) as [Dlo Dhi].
  set (d := Zpos (digits2_pos p)) in *.
  assert (Hd : 1 <= d <= 53).
  { split; [unfold d; lia|].
    assert (d - 1 < 53) by (apply (Z.pow_lt_mono_r_iff 2); lia). lia. }
  assert (Hf : fexp prec emax (d + 0) = d - 53).
  { unfold fexp, SpecFloat.emin, prec, emax. lia. }
  rewrite Hf.
  pose proof (shl_align_value p 0 (d - 53) ltac:(lia)) as Hv.
  pose proof (shl_align_exponent p 0 (d - 53)) as He.
  destruct (shl_align p 0 (d - 53)) as [mz ez]. cbn [fst snd] in Hv, He.
  rewrite Z.min_r in He by lia. subst ez.
  replace (0 - (d - 53)) with (53 - d) in Hv by lia.
  assert (Hpow : 2 ^ 53 = 2 ^ d * 2 ^ (53 - d)).
  { rewrite <- Z.pow_add_r by lia. f_equal. lia. }
  assert (Hpow' : 2 ^ 52 = 2 ^ (d - 1) * 2 ^ (53 - d)).
  { rewrite <- Z.pow_add_r by lia. f_equal. lia. }
  assert (Hk : 0 < 2 ^ (53 - d)) by (apply Z.pow_pos_nonneg; lia).
  assert (Hmz : 2 ^ 52 <= Zpos mz < 2 ^ 53) by (rewrite Hv, Hpow, Hpow'; nia).
  assert (Hdz : Zpos (digits2_pos mz) = 53) by (apply digits2_pos_unique; exact Hmz).
  rewrite binary_round_aux_canonical.
  - assert (Hle : (d - 53 <=? emax - prec) = true)
      by (apply Z.leb_le; unfold emax, prec; lia).
    rewrite Hle. exists mz, (d - 53). split; [reflexivity|]. split; [lia|].
    split; [|exact Hmz]. rewrite Hv. f_equal. f_equal. lia.
  - unfold canonical_mantissa. apply Z.eqb_eq. rewrite Hdz.
    unfold fexp, SpecFloat.emin, prec, emax. lia.
Qed.

Lemma ofZ_1 : ofZ 1 = S754_finite false 4503599627370496 (-52).
Proof. vm_compute. reflexivity. Qed.

(** A number in [0, 1) is zero or has a sign bit clear, an exponent of at
    most -53 and a mantissa below 2^53. *)
Lemma unitInterval_inv u :
  unitInterval u = true ->
  (exists s, u = S754_zero s) \/
  (exists mu eu, u = S754_finite false mu eu /\
                 SpecFloat.emin prec emax <= eu <= -53 /\ Zpos mu < 2 ^ 53).
Proof.
  unfold unitInterval. intros [[Hv Hle]%andb_prop Hlt]%andb_prop.
  rewrite ofZ_1 in Hlt.
  destruct u as [s|s| |s mu eu];
    try discriminate; try (destruct s; discriminate); [left; eauto|].
  right. destruct s; [discriminate|]. exists mu, eu. split; [reflexivity|].
  apply bounded_inv in Hv. destruct Hv as (Hmin & Hd & Hnorm).
  pose proof (digits2_pos_bounds mu) as [Dlo Dhi].
  assert (Hmu : Zpos mu < 2 ^ 53).
  { eapply Z.lt_le_trans; [exact Dhi|]. apply Z.pow_le_mono_r; unfold prec in Hd; lia. }
  split; [|exact Hmu]. split; [exact Hmin|].
  unfold ltb, SFltb, SFcompare in Hlt. rewrite Pos.compare_cont_spec in Hlt.
  cbn [Pos.switch_Eq] in Hlt.
  destruct (Z.compare_spec eu (-52)) as [He|He|He]; [|lia|discriminate].
  subst eu. exfalso.
  rewrite Hnorm in Dlo by (unfold SpecFloat.emin, prec, emax; lia).
  unfold prec in Dlo. change (2 ^ (53 - 1)) with 4503599627370496 in Dlo.
  destruct (Pos.compare_spec mu 4503599627370496) as [Hm|Hm|Hm]; try discriminate.
  apply Pos2Z.pos_lt_pos in Hm. clear - Hm Dlo. lia.
Qed.

(** [Math.floor(u * n)] for [u] in [0, 1) and a positive integer [n] below
    2^53 is an index below [n]. *)
Lemma floorIndex_unit u n :
  unitInterval u = true -> (1 <= n)%nat -> Z.of_nat n < 2 ^ 53 ->
  exists j, floorIndex (u * ofNat n)%num = Some j /\ (j < n)%nat.
Proof.
  intros Hu Hn Hlt.
  destruct (ofNat_finite n Hn Hlt) as (mn & en & -> & Hen & Hmn & Hmnb).
  destruct (unitInterval_inv u Hu) as [[s ->]|(mu & eu & -> & Heu & Hmu)].
  { exists 0%nat. split; [reflexivity|lia]. }
  unfold mul, SFmul. cbn [xorb].
  set (M := Zpos (mu * mn)). set (E := eu + en).
  destruct (binary_round_aux_upper false M E ltac:(unfold M; lia))
    as (m'' & e'' & -> & Hm'' & He'' & Hup).
  assert (HM : M = Zpos mu * Zpos mn) by (unfold M; lia).
  (* half a unit in the last place is below the mantissa of [n] *)
  assert (Hhalf : halfUlp M E < Zpos mn).
  { unfold halfUlp. destruct (0 <? _) eqn:Hs; [|lia].
    apply Z.ltb_lt in Hs. unfold M in *. cbn [Zdigits2] in *.
    pose proof (digits2_pos_bounds (mu * mn)) as [Dlo _].
    set (dM := Zpos (digits2_pos (mu * mn))) in *.
    unfold fexp in *.
    destruct (Z.max_spec (dM + E - prec) (SpecFloat.emin prec emax)) as [[_ Hmax]|[_ Hmax]];
      rewrite Hmax in *.
    - apply Z.lt_le_trans with (2 ^ 52); [|lia].
      apply Z.pow_lt_mono_r; unfold E; lia.
    - unfold prec in *.
      replace (dM + E - 53 - E - 1) with (dM - 54) in * by lia.
      assert (Hsplit : 2 ^ (dM - 1) = 2 ^ (dM - 54) * 2 ^ 53).
      { rewrite <- Z.pow_add_r by lia. f_equal; lia. }
      rewrite Pos2Z.inj_mul in Dlo. nia. }
  (* the rounded product is below [n] *)
  set (T := Zpos mn * 2 ^ (- eu)).
  assert (HT : m'' * 2 ^ (e'' - E) < T).
  { assert (H53 : 2 ^ 53 <= 2 ^ (- eu)) by (apply Z.pow_le_mono_r; lia).
    unfold T. nia. }
  assert (HTn : T = Z.of_nat n * 2 ^ (- E)).
  { unfold T, E. rewrite Hmn.
    replace (- (eu + en)) with (- en + - eu) by lia.
    rewrite Z.pow_add_r by lia. lia. }
  destruct m'' as [|p|p]; [exists 0%nat; split; [reflexivity|lia] | |lia].
  assert (Hsmall : e'' < 53).
  { assert (H1 : 2 ^ (e'' - E) < 2 ^ (53 - eu)).
    { replace (53 - eu) with (53 + - eu) by lia. rewrite Z.pow_add_r by lia.
      assert (0 < 2 ^ (e'' - E)) by (apply Z.pow_pos_nonneg; lia).
      assert (0 < 2 ^ (- eu)) by (apply Z.pow_pos_nonneg; lia).
      unfold T in HT. nia. }
    apply Z.pow_lt_mono_r_iff in H1; unfold E in *; lia. }
  assert (Hfin : (e'' <=? emax - prec) = true)
    by (apply Z.leb_le; unfold emax, prec; lia).
  rewrite Hfin. cbn [floorIndex].
  eexists. split; [reflexivity|].
  assert (Hfloor : 0 <= Z.shiftl (Zpos p) e'' < Z.of_nat n).
  { rewrite HTn in HT.
    assert (HE : 0 <= - E) by (unfold E; lia).
    destruct (Z_lt_le_dec e'' 0) as [Hneg|Hpos].
    - rewrite Z.shiftl_div_pow2 by lia.
      assert (Hx : 0 < 2 ^ (- e'')) by (apply Z.pow_pos_nonneg; lia).
      split; [apply Z.div_pos; lia|].
      apply Z.div_lt_upper_bound; [exact Hx|].
      assert (Hsplit : 2 ^ (- E) = 2 ^ (e'' - E) * 2 ^ (- e'')).
      { rewrite <- Z.pow_add_r by lia. f_equal; lia. }
      assert (0 < 2 ^ (e'' - E)) by (apply Z.pow_pos_nonneg; lia).
      rewrite Hsplit in HT. nia.
    - rewrite Z.shiftl_mul_pow2 by lia.
      assert (Hx : 0 < 2 ^ e'') by (apply Z.pow_pos_nonneg; lia).
      split; [lia|].
      assert (Hsplit : 2 ^ (e'' - E) = 2 ^ e'' * 2 ^ (- E)).
      { rewrite <- Z.pow_add_r by lia. f_equal; lia. }
      assert (0 < 2 ^ (- E)) by (apply Z.pow_pos_nonneg; lia).
      rewrite Hsplit in HT. nia. }
  lia.
Qed.

End UnitDraws.

Lemma unitDraws_good random n :
  unitDraws random -> 1 <= n -> (Z.of_nat n <= maxSafeInteger)%Z ->
  goodDraws random n.
Proof.
  intros Hu Hn Hmax i. apply floorIndex_unit; [apply Hu|exact Hn|].
  unfold maxSafeInteger in Hmax. lia.
Qed.

(** ** Well-formed results *)

Section RoundingValid.

Local Open Scope Z_scope.

Lemma Zdigits2_bounds m : 0 < m -> 2 ^ (Zdigits2 m - 1) <= m < 2 ^ Zdigits2 m.
Proof.
  destruct m as [|p|p]; try lia. intros _. apply digits2_pos_bounds.
Qed.

Lemma Zdigits2_nonneg m : 0 <= Zdigits2 m.
Proof. destruct m; simpl; lia. Qed.

Lemma Zdigits2_unique m k : 2 ^ (k - 1) <= m < 2 ^ k -> 0 < m -> Zdigits2 m = k.
Proof.
  intros H Hm. destruct m as [|p|p]; try lia. apply digits2_pos_unique. exact H.
Qed.

Lemma Zdigits2_lower m k : 0 <= k -> 2 ^ k <= m -> k < Zdigits2 m.
Proof.
  intros Hk Hm.
  assert (0 < 2 ^ k) by (apply Z.pow_pos_nonneg; lia).
  pose proof (Zdigits2_bounds m ltac:(lia)) as [_ Hhi].
  apply (Z.pow_lt_mono_r_iff 2); [lia|apply Zdigits2_nonneg|lia].
Qed.

(** The digits of a mantissa shifted right by fewer bits than it has. *)
Lemma Zdigits2_shift m s :
  0 < m -> 0 <= s < Zdigits2 m -> 0 < m / 2 ^ s /\ Zdigits2 (m / 2 ^ s) = Zdigits2 m - s.
Proof.
  intros Hm Hs. pose proof (Zdigits2_bounds m Hm) as [Hlo Hhi].
  set (d := Zdigits2 m) in *.
  assert (Hp : 0 < 2 ^ s) by (apply Z.pow_pos_nonneg; lia).
  assert (Hlo' : 2 ^ (d - 1) = 2 ^ (d - s - 1) * 2 ^ s).
  { rewrite <- Z.pow_add_r by lia. f_equal; lia. }
  assert (Hhi' : 2 ^ d = 2 ^ (d - s) * 2 ^ s).
  { rewrite <- Z.pow_add_r by lia. f_equal; lia. }
  assert (Hq1 : 2 ^ (d - s - 1) <= m / 2 ^ s).
  { apply Z.div_le_lower_bound; [exact Hp|]. lia. }
  assert (Hq2 : m / 2 ^ s < 2 ^ (d - s)).
  { apply Z.div_lt_upper_bound; [exact Hp|]. lia. }
  assert (0 < 2 ^ (d - s - 1)) by (apply Z.pow_pos_nonneg; lia).
  split; [lia|]. apply Zdigits2_unique; [|lia].
  replace (d - s - 1) with (d - s - 1) by lia. split; [exact Hq1|exact Hq2].
Qed.

Lemma shr_m_of_loc m l : shr_m (shr_record_of_loc m l) = m.
Proof. destruct l as [|[| |]]; reflexivity. Qed.

Lemma shr_value m l e s :
  0 <= m ->
  shr_m (fst (shr (shr_record_of_loc m l) e s)) = m / 2 ^ Z.max s 0 /\
  snd (shr (shr_record_of_loc m l) e s) = e + Z.max s 0.
Proof.
  intros Hm. unfold shr. destruct s as [|p|p]; cbn [fst snd].
  - rewrite Z.max_l by lia. rewrite shr_m_of_loc. change (2 ^ 0) with 1.
    rewrite Z.div_1_r. split; [reflexivity|lia].
  - rewrite Z.max_l by lia.
    rewrite iter_shr_1_m by (rewrite shr_m_of_loc; exact Hm).
    rewrite shr_m_of_loc. split; reflexivity.
  - rewrite Z.max_r by lia. rewrite shr_m_of_loc. change (2 ^ 0) with 1.
    rewrite Z.div_1_r. split; [reflexivity|lia].
Qed.

(** Truncating a mantissa to the exponent its format asks for leaves zero
    or a canonical mantissa. *)
Lemma truncate_canonical m e :
  0 <= m -> e <= fexp prec emax (Zdigits2 m + e) ->
  let s := fexp prec emax (Zdigits2 m + e) - e in
  m / 2 ^ s = 0 \/
  (0 < m / 2 ^ s /\ fexp prec emax (Zdigits2 (m / 2 ^ s) + (e + s)) = e + s).
Proof.
  intros Hm Hs s.
  assert (Hp : 0 < 2 ^ s) by (apply Z.pow_pos_nonneg; lia).
  destruct (Z_lt_le_dec 0 (m / 2 ^ s)) as [Hq|Hq].
  - right. split; [exact Hq|].
    assert (Hm0 : 0 < m).
    { destruct (Z.eq_dec m 0) as [->|]; [rewrite Z.div_0_l in Hq; lia|lia]. }
    assert (Hlt : s < Zdigits2 m).
    { destruct (Z_lt_le_dec s (Zdigits2 m)) as [|Hge]; [assumption|].
      pose proof (Zdigits2_bounds m Hm0) as [_ Hhi].
      assert (2 ^ Zdigits2 m <= 2 ^ s) by (apply Z.pow_le_mono_r; lia).
      rewrite Z.div_small in Hq by lia. lia. }
    destruct (Zdigits2_shift m s Hm0 ltac:(lia)) as [_ ->].
    replace (Zdigits2 m - s + (e + s)) with (Zdigits2 m + e) by lia.
    unfold s. lia.
  - left. pose proof (Z.div_pos m (2 ^ s) Hm Hp). lia.
Qed.

(** Rounding a mantissa that has at least the digits its exponent asks for
    gives a well-formed number. *)
Lemma binary_round_aux_valid sx m e l :
  0 <= m -> e <= fexp prec emax (Zdigits2 m + e) ->
  valid_binary prec emax (binary_round_aux prec emax sx m e l) = true.
Proof.
  intros Hm Hs. unfold binary_round_aux, shr_fexp.
  set (s := fexp prec emax (Zdigits2 m + e) - e).
  assert (Hs0 : 0 <= s) by (unfold s; lia).
  pose proof (shr_value m l e s Hm) as [Hq He'].
  destruct (shr (shr_record_of_loc m l) e s) as [mrs' e']. cbn [fst snd] in Hq, He'.
  rewrite Z.max_l in Hq, He' by lia.
  pose proof (round_nearest_even_bound mrs') as [Hq' _]. cbn zeta in Hq'.
  set (q' := round_nearest_even (shr_m mrs') (loc_of_shr_record mrs')) in *.
  assert (Hp : 0 < 2 ^ s) by (apply Z.pow_pos_nonneg; lia).
  assert (Hq0 : 0 <= shr_m mrs') by (rewrite Hq; apply Z.div_pos; lia).
  assert (Hq'0 : 0 <= q') by lia.
  assert (Hs2 : e' <= fexp prec emax (Zdigits2 q' + e')).
  { pose proof prec_pos as Hprec.
    assert (He'f : e' = fexp prec emax (Zdigits2 m + e)) by (unfold s in He'; lia).
    unfold fexp in He'f |- *.
    destruct (Z.max_spec (Zdigits2 m + e - prec) (SpecFloat.emin prec emax))
      as [[_ Hmax]|[Hgt Hmax]]; rewrite Hmax in He'f; [lia|].
    assert (Hsd : s = Zdigits2 m - prec) by (unfold s, fexp; lia).
    assert (Hm0 : 0 < m).
    { destruct (Z.eq_dec m 0) as [Hz|]; [|lia]. subst m. cbn [Zdigits2] in *. lia. }
    destruct (Zdigits2_shift m s Hm0 ltac:(lia)) as [Hqpos Hqd].
    rewrite <- Hq in Hqpos, Hqd.
    pose proof (Zdigits2_bounds _ Hqpos) as [Hlo _].
    assert (prec - 1 < Zdigits2 q').
    { apply Zdigits2_lower; [lia|]. rewrite Hqd in Hlo.
      replace (Zdigits2 m - s - 1) with (prec - 1) in Hlo by lia. lia. }
    lia. }
  set (s2 := fexp prec emax (Zdigits2 q' + e') - e').
  pose proof (shr_value q' loc_Exact e' s2 Hq'0) as [Hm'' He''].
  destruct (shr (shr_record_of_loc q' loc_Exact) e' s2) as [mrs'' e''].
  cbn [fst snd] in Hm'', He''.
  rewrite Z.max_l in Hm'', He'' by (unfold s2; lia).
  pose proof (truncate_canonical q' e' Hq'0 Hs2) as Hc. cbn zeta in Hc. fold s2 in Hc.
  rewrite Hm''. destruct Hc as [->|[Hpos Hcan]]; [reflexivity|].
  destruct (q' / 2 ^ s2) as [|p|p]; try lia.
  destruct (e'' <=? emax - prec) eqn:Hle; [|reflexivity].
  cbn [valid_binary]. unfold bounded, canonical_mantissa.
  rewrite Hle, andb_true_r. apply Z.eqb_eq. rewrite He''. exact Hcan.
Qed.

(** The quotient and exponent that [SFdiv] rounds. *)
Lemma SFdiv_core_binary_digits m1 e1 m2 e2 :
  let '(q, e', _) := SFdiv_core_binary prec emax (Zpos m1) e1 (Zpos m2) e2 in
  0 <= q /\ e' <= fexp prec emax (Zdigits2 q + e').
Proof.
  unfold SFdiv_core_binary. cbn [Zdigits2].
  set (d1 := Zpos (digits2_pos m1)). set (d2 := Zpos (digits2_pos m2)).
  set (e' := Z.min (fexp prec emax (d1 + e1 - (d2 + e2))) (e1 - e2)).
  set (s := e1 - e2 - e').
  assert (Hs : 0 <= s) by (unfold s, e'; lia).
  set (m' := match s with Zpos _ => Z.shiftl (Zpos m1) s | 0 => Zpos m1 | Zneg _ => 0 end).
  assert (Hm' : m' = Zpos m1 * 2 ^ s).
  { unfold m'. destruct s as [|p|p] eqn:Hsp; [simpl; lia| |lia].
    apply Z.shiftl_mul_pow2. lia. }
  pose proof (Z_div_mod m' (Zpos m2) ltac:(lia)) as Hdm.
  destruct (Z.div_eucl m' (Zpos m2)) as [q r]. destruct Hdm as [Hdiv Hr].
  assert (Hp : 0 < 2 ^ s) by (apply Z.pow_pos_nonneg; lia).
  assert (Hq : 0 <= q) by nia.
  split; [exact Hq|].
  unfold fexp at 1.
  destruct (Z_le_gt_dec e' (SpecFloat.emin prec emax)) as [Hemin|Hemin]; [lia|].
  (* above the smallest exponent the quotient has at least [prec] digits *)
  assert (He' : e' <= d1 + e1 - (d2 + e2) - prec) by (unfold e', fexp in *; lia).
  pose proof (digits2_pos_bounds m1) as [Hlo1 _]. fold d1 in Hlo1.
  pose proof (digits2_pos_bounds m2) as [_ Hhi2]. fold d2 in Hhi2.
  pose proof prec_pos as Hprec.
  assert (Hd1 : 1 <= d1) by (unfold d1; lia).
  assert (Hd2 : 1 <= d2) by (unfold d2; lia).
  assert (Hbig : 2 ^ (prec - 1) <= q).
  { assert (Hpow : 2 ^ (d1 - 1 + s) = 2 ^ (d1 - 1) * 2 ^ s) by (apply Z.pow_add_r; lia).
    assert (Hle : 2 ^ (prec - 1 + d2) <= 2 ^ (d1 - 1 + s))
      by (apply Z.pow_le_mono_r; unfold s; lia).
    assert (Hsplit : 2 ^ (prec - 1 + d2) = 2 ^ (prec - 1) * 2 ^ d2)
      by (apply Z.pow_add_r; lia).
    assert (0 < 2 ^ (prec - 1)) by (apply Z.pow_pos_nonneg; lia).
    nia. }
  assert (prec - 1 < Zdigits2 q) by (apply Zdigits2_lower; [lia|exact Hbig]).
  lia.
Qed.

End RoundingValid.

(** A quotient of numbers is a well-formed binary64 number, whatever the
    operands. *)
Lemma div_valid (x y : num) : valid (x / y)%num = true.
Proof.
  destruct x as [sx|sx| |sx mx ex], y as [sy|sy| |sy my ey]; try reflexivity.
  unfold valid, div, SFdiv.
  pose proof (SFdiv_core_binary_digits mx ex my ey) as H.
  destruct (SFdiv_core_binary prec emax (Zpos mx) ex (Zpos my) ey) as [[q e'] l].
  destruct H as [Hq He']. apply binary_round_aux_valid; assumption.
Qed.

Lemma cosineSimilarity_valid (a b : list num) : valid (cosineSimilarity a b) = true.
Proof.
  unfold cosineSimilarity. destruct (magnitude a b =? zero)%num; [reflexivity|].
  apply div_valid.
Qed.

(** ** Cosine similarity *)

Lemma at_app_r (pre l : list num) i : at_ (pre ++ l) (length pre + i) = at_ l i.
Proof. unfold at_. rewrite app_nth2_plus. reflexivity. Qed.

Lemma cosLoop_norms_from (pa pb a b : list num) acc :
  length pa = length pb -> length a = length b ->
  let r := fold_left (cosStep (pa ++ a) (pb ++ b)) (seq (length pa) (length a)) acc in
  normA r = fold_left (fun s x => (s + x * x)%num) a (normA acc) /\
  normB r = fold_left (fun s x => (s + x * x)%num) b (normB acc).
Proof.
  revert pa pb b acc.
  induction a as [|x a IH]; intros pa pb [|y b] acc Hp Hl; try discriminate; simpl.
  - auto.
  - specialize (IH (pa ++ [x]) (pb ++ [y]) b (cosStep (pa ++ x :: a) (pb ++ y :: b) acc (length pa))).
    rewrite !length_app, <- !app_assoc in IH. simpl in IH.
    replace (length pa + 1) with (S (length pa)) in IH by lia.
    destruct IH as [IHa IHb]; [lia | simpl in Hl; lia |].
    rewrite IHa, IHb. simpl.
    replace (at_ (pa ++ x :: a) (length pa)) with x.
    2:{ rewrite <- (Nat.add_0_r (length pa)), at_app_r. reflexivity. }
    replace (at_ (pb ++ y :: b) (length pa)) with y.
    2:{ rewrite Hp, <- (Nat.add_0_r (length pb)), at_app_r. reflexivity. }
    auto.
Qed.

Lemma cosLoop_norms (a b : list num) :
  length a = length b ->
  normA (cosLoop a b) = sqNorm a /\ normB (cosLoop a b) = sqNorm b.
Proof.
  intros Hl. exact (cosLoop_norms_from [] [] a b _ eq_refl Hl).
Qed.

Lemma magnitude_norms (a b : list num) :
  length a = length b -> magnitude a b = (norm a * norm b)%num.
Proof.
  intros Hl. unfold magnitude, norm.
  destruct (cosLoop_norms a b Hl) as [-> ->]. reflexivity.
Qed.

(** C8, as amended: for vectors of equal length, when the computed norm of
    one is zero and the computed norm of the other is finite,
    [cosineSimilarity] returns exactly 0 (taking the guarded branch, so
    nothing is divided). *)
Theorem cosineSimilarity_zero_norm (a b : list num) :
  length a = length b ->
  ((norm a =? zero)%num = true /\ isFinite (norm b) = true) \/
  ((norm b =? zero)%num = true /\ isFinite (norm a) = true) ->
  (magnitude a b =? zero)%num = true /\ cosineSimilarity a b = zero.
Proof.
  intros Hl H. unfold cosineSimilarity.
  assert (Hm : exists s, magnitude a b = S754_zero s).
  { rewrite magnitude_norms by exact Hl.
    destruct H as [[Ha Hb]|[Hb Ha]].
    - apply mul_zero_finite; assumption.
    - apply mul_finite_zero; assumption. }
  destruct Hm as [s ->]. split; reflexivity.
Qed.

Lemma cosineSimilarity_zero_norm_witness :
  (magnitude [ofZ 0; ofZ 0] [ofZ 3; ofZ 4] =? zero)%num = true /\
  cosineSimilarity [ofZ 0; ofZ 0] [ofZ 3; ofZ 4] = zero.
Proof.
  apply cosineSimilarity_zero_norm.
  - reflexivity.
  - left. split; vm_compute; reflexivity.
Defined.

(** C8 as stated fails: the zero vector against a vector whose squared
    norm overflows (here (2^600)^2) gives magnitude 0 * Infinity = NaN, the
    guard [magnitude === 0] is false and the result is 0 / NaN = NaN. *)
Lemma cosineSimilarity_zero_norm_overflow :
  let a := [ofZ 0] in
  let b := [scaled 1 600] in
  length a = length b /\
  (norm a =? zero)%num = true /\
  valid (scaled 1 600) = true /\ isFinite (scaled 1 600) = true /\
  cosineSimilarity a b = NaN /\
  cosineSimilarity a b <> zero.
Proof. vm_compute. repeat split; discriminate. Qed.

(** ** Seeding: the weighted draw *)





(** The seeding of two equal vectors: the second centroid is one more copy
    of a vector equal to the first centroid. *)
Example initializeCentroids_equal_vectors :
  initializeCentroids (fun _ => half) [0; 1] 2
                      {| heap := [[ofZ 1]; [ofZ 1]]; cursor := 0 |}
  = Ok [2; 3] {| heap := [[ofZ 1]; [ofZ 1]; [ofZ 1]; [ofZ 1]]; cursor := 2 |}.
Proof. vm_compute. reflexivity. Qed.

(** ** Frames and fresh references *)

Lemma frame_refl b h : frame b h h.
Proof. split; auto. Qed.

Lemma frame_trans b h1 h2 h3 : frame b h1 h2 -> frame b h2 h3 -> frame b h1 h3.
Proof.
  intros [H1 H2] [H3 H4]. split; [lia|].
  intros l Hl. rewrite H4, H2; auto.
Qed.

Lemma frame_app b h ext : b <= length h -> frame b h (h ++ ext).
Proof.
  intros Hb. split.
  - rewrite length_app. lia.
  - intros l Hl. apply lookup_app_l. lia.
Qed.

Lemma frame_le b b' h h' : b' <= b -> frame b h h' -> frame b' h h'.
Proof. intros Hle [H1 H2]. split; [exact H1|]. intros l Hl. apply H2. lia. Qed.

Lemma fresh_snoc b h a cs :
  b <= length h -> fresh b h cs -> fresh b (h ++ [a]) (cs ++ [length h]).
Proof.
  intros Hb Hc. unfold fresh in *. apply Forall_app. split.
  - eapply Forall_impl; [exact Hc|]. simpl. intros c Hlt. rewrite length_app. simpl. lia.
  - constructor; [|constructor]. rewrite length_app. simpl. lia.
Qed.

(** ** Seeding *)

Section Specs.

Variable random : nat -> num.

Lemma wp_randomVector {B} (vectors : list loc) (f : option loc -> M B) w Q :
  goodDraws random (length vectors) ->
  (forall v, v ∈ vectors ->
             wp (f (Some v)) {| heap := heap w; cursor := S (cursor w) |} Q) ->
  wp (o <- randomVector random vectors ;; f o) w Q.
Proof.
  intros Hg Hf. destruct (Hg (cursor w)) as (j & Hj & Hlt).
  destruct (lookup_lt_is_Some_2 vectors j Hlt) as [v Hv].
  unfold randomVector. apply wp_bind, wp_random, wp_ret.
  rewrite Hj. simpl. rewrite Hv. apply Hf.
  eapply list_elem_of_lookup_2; eauto.
Qed.

Lemma pick_bound distances r j0 j :
  pick distances r j0 = Some j -> j0 <= j < j0 + length distances.
Proof.
  revert r j0. induction distances as [|d rest IH]; intros r j0 Hp; simpl in Hp.
  - discriminate.
  - destruct (r - d <=? zero)%num.
    + injection Hp as <-. simpl. lia.
    + apply IH in Hp. simpl. lia.
Qed.

Lemma seedLoop_spec b vectors count cents w :
  b <= length (heap w) -> fresh b (heap w) cents ->
  wp (seedLoop random vectors count cents) w
     (fun cs w' =>
        length cents <= length cs <= length cents + count /\
        frame b (heap w) (heap w') /\ fresh b (heap w') cs).
Proof.
  revert cents w. induction count as [|count IH]; intros cents w Hb Hc; simpl.
  - apply wp_ret. split; [lia|]. split; [apply frame_refl | exact Hc].
  - apply wp_getHeap, wp_random, wp_bind.
    destruct (drawNext _ _) as [j|] eqn:Hd.
    + unfold drawNext in Hd. apply pick_bound in Hd.
      unfold distancesTo in Hd. rewrite length_map in Hd.
      destruct (lookup_lt_is_Some_2 vectors j) as [v Hv]; [lia|].
      rewrite Hv. apply wp_spread, wp_ret.
      eapply wp_mono.
      * apply IH.
        -- simpl. rewrite length_app. lia.
        -- simpl. apply fresh_snoc; assumption.
      * intros cs w' (Hlen & Hf & Hfresh). rewrite length_app in Hlen. simpl in Hlen.
        split; [lia|]. split; [|exact Hfresh].
        eapply frame_trans; [|exact Hf]. apply frame_app. exact Hb.
    + apply wp_ret.
      eapply wp_mono; [apply IH; assumption|].
      intros cs w' (Hlen & Hf & Hfresh). split; [lia|]. split; assumption.
Qed.

Lemma initializeCentroids_spec vectors k w :
  goodDraws random (length vectors) ->
  wp (initializeCentroids random vectors k) w
     (fun cs w' =>
        1 <= length cs <= 1 + (k - 1) /\
        frame (length (heap w)) (heap w) (heap w') /\
        fresh (length (heap w)) (heap w') cs).
Proof.
  intros Hg.
  destruct vectors as [|v0 vs] eqn:Hvs.
  { destruct (Hg 0) as (j & _ & Hj). simpl in Hj. lia. }
  rewrite <- Hvs in *. unfold initializeCentroids. rewrite Hvs at 1.
  simpl lengthOf. apply wp_bind, wp_load, wp_ret.
  apply wp_randomVector; [exact Hg|]. intros v _.
  apply wp_spread.
  eapply wp_mono.
  - apply (seedLoop_spec (length (heap w))).
    + simpl. rewrite length_app. lia.
    + simpl. apply (fresh_snoc _ _ _ []); [lia|constructor].
  - intros cs w' (Hlen & Hf & Hfresh). simpl in Hlen.
    split; [lia|]. split; [|exact Hfresh].
    simpl in Hf. eapply frame_trans; [|exact Hf]. apply frame_app. lia.
Qed.

End Specs.

(** ** Centroid update *)

Lemma newSums_run k dim w :
  newSums k dim w
  = Ok (seq (length (heap w)) k)
       {| heap := heap w ++ replicate k (replicate dim zero); cursor := cursor w |}.
Proof.
  revert w. induction k as [|k IH]; intros w; simpl.
  - unfold ret. rewrite app_nil_r. destruct w; reflexivity.
  - unfold bind at 1, alloc. unfold bind at 1. rewrite IH. simpl.
    unfold ret. rewrite length_app, <- app_assoc. simpl.
    replace (length (heap w) + 1) with (S (length (heap w))) by lia.
    reflexivity.
Qed.

Lemma wp_newSums {B} k dim (f : list loc -> M B) w Q :
  wp (f (seq (length (heap w)) k))
     {| heap := heap w ++ replicate k (replicate dim zero); cursor := cursor w |} Q ->
  wp (sums <- newSums k dim ;; f sums) w Q.
Proof. unfold wp, bind. rewrite newSums_run. exact id. Qed.

Lemma wp_addInto {B} s v d (f : unit -> M B) w Q :
  wp (f tt)
     {| heap := <[s := <[d := (at_ (deref (heap w) s) d + at_ (deref (heap w) v) d)%num]>
                         (deref (heap w) s)]> (heap w);
        cursor := cursor w |} Q ->
  wp (u <- addInto (Some s) v d ;; f u) w Q.
Proof. exact id. Qed.

(** Adding a vector into a row of [sums] writes to that row only. *)
Lemma forEach_addInto_spec s v ds w :
  wp (forEach ds (addInto (Some s) v)) w
     (fun _ w' =>
        length (heap w') = length (heap w) /\
        (forall l, l <> s -> heap w' !! l = heap w !! l) /\
        cursor w' = cursor w).
Proof.
  revert w. induction ds as [|d ds IH]; intros w; simpl.
  - apply wp_ret. auto.
  - apply wp_addInto. eapply wp_mono; [apply IH|].
    simpl. intros _ w' (Hlen & Hframe & Hcur).
    rewrite length_insert in Hlen. split; [exact Hlen|]. split; [|exact Hcur].
    intros l Hl. rewrite Hframe by exact Hl.
    apply list_lookup_insert_ne. congruence.
Qed.

Lemma accumulate_spec vectors i assignments dim sums counts w :
  (forall j, i <= j < i + length vectors ->
             exists c, assignments !! j = Some c /\ c < length sums) ->
  wp (accumulate vectors i assignments dim sums counts) w
     (fun counts' w' =>
        length (heap w') = length (heap w) /\
        (forall l, l ∉ sums -> heap w' !! l = heap w !! l) /\
        cursor w' = cursor w /\
        length counts' = length counts /\
        forall c, (forall j, i <= j < i + length vectors -> assignments !! j <> Some c) ->
                  counts' !! c = counts !! c).
Proof.
  revert i counts w. induction vectors as [|v rest IH]; intros i counts w Hasg; simpl.
  - apply wp_ret. auto.
  - destruct (Hasg i) as (c & Hc & Hlt); [simpl; lia|].
    rewrite Hc. simpl.
    destruct (lookup_lt_is_Some_2 sums c Hlt) as [s Hs]. rewrite Hs.
    apply wp_bind. eapply wp_mono; [apply forEach_addInto_spec|].
    intros _ w1 (Hlen1 & Hframe1 & Hcur1).
    eapply wp_mono.
    + apply IH. intros j Hj. apply Hasg. simpl. lia.
    + simpl. intros counts' w' (Hlen & Hframe & Hcur & Hcl & Hcounts).
      split; [lia|]. split; [|split; [congruence|split]].
      * intros l Hl. rewrite Hframe by exact Hl. apply Hframe1.
        intros ->. apply Hl. eapply list_elem_of_lookup_2; eauto.
      * rewrite Hcl. apply length_alter.
      * intros c' Hc'. rewrite Hcounts.
        -- apply list_lookup_alter_ne. intros ->. apply (Hc' i); [lia|exact Hc].
        -- intros j Hj. apply Hc'. lia.
Qed.

Section CentroidSpecs.

Variable random : nat -> num.

(** The second loop of [recalculateCentroids] allocates one array per
    cluster, in order; the array of a cluster that counted no vector is a
    copy of an input vector. *)
Lemma centroidOf_phase vectors sums counts i0 cnt w :
  goodDraws random (length vectors) ->
  length counts <= length sums ->
  wp (mapM (centroidOf random vectors sums counts) (seq i0 cnt)) w
     (fun cs w' =>
        cs = seq (length (heap w)) cnt /\
        exists ext, heap w' = heap w ++ ext /\ length ext = cnt /\
          forall i, i < cnt -> counts !! (i0 + i) = Some 0 ->
                    exists v a, v ∈ vectors /\ ext !! i = Some a /\
                                (v < length (heap w) -> a = deref (heap w) v)).
Proof.
  intros Hg Hlen. revert i0 w. induction cnt as [|cnt IH]; intros i0 w; simpl.
  - apply wp_ret. split; [reflexivity|]. exists []. rewrite app_nil_r.
    repeat split. intros i Hi. lia.
  - apply wp_bind.
    assert (Hrest : forall a c,
      wp (ys <- mapM (centroidOf random vectors sums counts) (seq (S i0) cnt) ;;
          ret (length (heap w) :: ys))
         {| heap := heap w ++ [a]; cursor := c |}
         (fun cs w' =>
            cs = length (heap w) :: seq (S (length (heap w))) cnt /\
            exists ext', heap w' = (heap w ++ [a]) ++ ext' /\ length ext' = cnt /\
              forall i, i < cnt -> counts !! (S i0 + i) = Some 0 ->
                exists v a', v ∈ vectors /\ ext' !! i = Some a' /\
                             (v < length (heap w) -> a' = deref (heap w) v))).
    { intros a c. apply wp_bind. eapply wp_mono.
      - apply (IH (S i0)).
      - simpl. intros ys w' (-> & ext' & Hh & Hl & Hz). apply wp_ret.
        rewrite length_app. simpl.
        replace (length (heap w) + 1) with (S (length (heap w))) by lia.
        split; [reflexivity|]. exists ext'. split; [exact Hh|]. split; [exact Hl|].
        intros i Hi Hci. destruct (Hz i Hi Hci) as (v & a' & Hin & Hext & Ha').
        exists v, a'. split; [exact Hin|]. split; [exact Hext|].
        intros Hlt. rewrite Ha' by (rewrite length_app; lia).
        unfold deref. rewrite lookup_app_l; [reflexivity|exact Hlt]. }
    assert (Hpost : forall a c (Hzero : counts !! i0 = Some 0 ->
                                         exists v, v ∈ vectors /\ a = deref (heap w) v),
      wp (ys <- mapM (centroidOf random vectors sums counts) (seq (S i0) cnt) ;;
          ret (length (heap w) :: ys))
         {| heap := heap w ++ [a]; cursor := c |}
         (fun cs w' =>
            cs = length (heap w) :: seq (S (length (heap w))) cnt /\
            exists ext, heap w' = heap w ++ ext /\ length ext = S cnt /\
              forall i, i < S cnt -> counts !! (i0 + i) = Some 0 ->
                exists v a', v ∈ vectors /\ ext !! i = Some a' /\
                             (v < length (heap w) -> a' = deref (heap w) v))).
    { intros a c Hzero. eapply wp_mono; [apply Hrest|].
      simpl. intros cs w' (-> & ext' & Hh & Hl & Hz).
      split; [reflexivity|]. exists (a :: ext').
      rewrite Hh, <- app_assoc. split; [reflexivity|]. split; [simpl; lia|].
      intros [|i] Hi Hci.
      - rewrite Nat.add_0_r in Hci. destruct (Hzero Hci) as (v & Hin & ->).
        exists v, (deref (heap w) v). auto.
      - simpl. apply Hz; [lia|]. rewrite <- Hci. f_equal. lia. }
    unfold centroidOf.
    destruct (counts !! i0) as [[|count]|] eqn:Hc.
    + apply wp_randomVector; [exact Hg|]. intros v Hin.
      unfold wp at 1. unfold spread, bind, load, alloc.
      apply Hpost. intros _. exists v. split; [exact Hin|reflexivity].
    + assert (Hi0 : i0 < length sums).
      { apply lookup_lt_Some in Hc. lia. }
      destruct (lookup_lt_is_Some_2 sums i0 Hi0) as [s ->]. simpl loadOpt.
      apply wp_load. unfold wp at 1, alloc.
      apply Hpost. intros [=].
    + apply wp_randomVector; [exact Hg|]. intros v Hin.
      unfold wp at 1. unfold spread, bind, load, alloc.
      apply Hpost. intros [=].
Qed.

Lemma recalculateCentroids_spec vectors assignments k dim w :
  goodDraws random (length vectors) ->
  length assignments = length vectors ->
  Forall (fun c => c < k) assignments ->
  wp (recalculateCentroids random vectors assignments k dim) w
     (fun cs w' =>
        length cs = k /\
        frame (length (heap w)) (heap w) (heap w') /\
        fresh (length (heap w)) (heap w') cs /\
        forall i, i < k -> i ∉ assignments ->
                  exists c v, cs !! i = Some c /\ v ∈ vectors /\
                    (v < length (heap w) -> deref (heap w') c = deref (heap w) v)).
Proof.
  intros Hg Hlen Hk. unfold recalculateCentroids.
  apply wp_newSums. apply wp_bind.
  set (h := heap w) in *.
  eapply wp_mono.
  { apply accumulate_spec. intros j Hj. rewrite length_seq.
    destruct (lookup_lt_is_Some_2 assignments j) as [c Hc]; [lia|].
    exists c. split; [exact Hc|].
    rewrite Forall_forall in Hk. apply Hk. eapply list_elem_of_lookup_2; eauto. }
  simpl. intros counts w2 (Hlen2 & Hframe2 & _ & Hcl & Hcounts).
  rewrite length_app, length_replicate in Hlen2.
  rewrite length_replicate in Hcl.
  assert (Hlow : forall l, l < length h -> heap w2 !! l = h !! l).
  { intros l Hl. rewrite Hframe2.
    - apply lookup_app_l. exact Hl.
    - rewrite elem_of_seq. lia. }
  eapply wp_mono.
  { apply centroidOf_phase; [assumption|]. rewrite length_seq. lia. }
  simpl. intros cs w' (-> & ext & Hh & Hext & Hz).
  split; [apply length_seq|]. split; [|split].
  - split.
    + rewrite Hh, length_app. lia.
    + intros l Hl. rewrite Hh, lookup_app_l by lia. apply Hlow. lia.
  - apply Forall_forall. intros c Hc. apply elem_of_seq in Hc.
    rewrite Hh, length_app. lia.
  - intros i Hi Hnot.
    destruct (Hz i Hi) as (v & a & Hin & Hv' & Ha).
    { rewrite Hcounts.
      - apply lookup_replicate_2. exact Hi.
      - intros j _ Hj. apply Hnot. eapply list_elem_of_lookup_2; eauto. }
    exists (length (heap w2) + i), v.
    split; [apply lookup_seq; auto|]. split; [exact Hin|].
    intros Hlt.
    unfold deref at 1. rewrite Hh, lookup_app_r by lia.
    replace (length (heap w2) + i - length (heap w2)) with i by lia.
    rewrite Hv'. simpl. rewrite Ha by lia. unfold deref. rewrite Hlow; [reflexivity|lia].
Qed.

End CentroidSpecs.

(** ** Assignment *)

Lemma nearest_bound v cs i m a :
  nearest v cs i m a = a \/ i <= nearest v cs i m a < i + length cs.
Proof.
  revert i m a. induction cs as [|c cs IH]; intros i m a; simpl.
  - left. reflexivity.
  - destruct (euclideanDistance v c <? m)%num.
    + destruct (IH (S i) (euclideanDistance v c) i) as [->|H]; right; lia.
    + destruct (IH (S i) m a) as [->|H]; [left; reflexivity | right; lia].
Qed.

Lemma assignToCentroid_bound h v cents k :
  1 <= k -> length cents <= k -> assignToCentroid h v cents < k.
Proof.
  intros Hk Hlen. unfold assignToCentroid.
  destruct (nearest_bound (deref h v) (map (deref h) cents) 0 Infinity 0) as [->|H].
  - lia.
  - rewrite length_map in H. lia.
Qed.

Lemma assignAll_length h vectors cents : length (assignAll h vectors cents) = length vectors.
Proof. apply length_map. Qed.

Lemma assignAll_bound h vectors cents k :
  1 <= k -> length cents <= k -> Forall (fun c => c < k) (assignAll h vectors cents).
Proof.
  intros Hk Hlen. unfold assignAll. apply Forall_map, Forall_forall.
  intros v _. simpl. apply assignToCentroid_bound; assumption.
Qed.

(** ** The driver's loop *)

Lemma fresh_le b b' h cs : b <= b' -> fresh b' h cs -> fresh b h cs.
Proof.
  intros Hle Hc. unfold fresh in *.
  eapply Forall_impl; [exact Hc|]. simpl. intros c Hlt. lia.
Qed.

Section DriverSpecs.

Variable random : nat -> num.

Lemma iteration_spec vectors k dim tolerance iter st w :
  goodDraws random (length vectors) ->
  1 <= k -> length (centroids st) <= k ->
  wp (iteration random vectors k dim tolerance iter st) w
     (fun r w' =>
        let newAssignments := assignAll (heap w) vectors (centroids st) in
        iterations (snd r) = iter + 1 /\
        assignments (snd r) = newAssignments /\
        frame (length (heap w)) (heap w) (heap w') /\
        if converged (countChanged newAssignments (assignments st) (length vectors))
                     (length vectors) tolerance
        then fst r = Break /\ w' = w /\ centroids (snd r) = centroids st
        else fst r = Continue /\ length (centroids (snd r)) = k /\
             fresh (length (heap w)) (heap w') (centroids (snd r))).
Proof.
  intros Hg Hk Hlen. unfold iteration. apply wp_getHeap.
  destruct (converged _ _ _).
  - apply wp_ret. simpl. repeat split; auto.
  - apply wp_bind. eapply wp_mono.
    + apply recalculateCentroids_spec.
      * exact Hg.
      * apply assignAll_length.
      * apply assignAll_bound; assumption.
    + simpl. intros cs w' (Hcs & Hf & Hfresh & _). apply wp_ret. simpl.
      repeat split; auto; apply Hf.
Qed.

Lemma iterate_spec b vectors k dim tolerance passes iter st w :
  goodDraws random (length vectors) ->
  1 <= k -> length (centroids st) <= k ->
  b <= length (heap w) -> fresh b (heap w) (centroids st) ->
  iter <= iterations st ->
  wp (iterate random vectors k dim tolerance passes iter st) w
     (fun st' w' =>
        frame b (heap w) (heap w') /\
        fresh b (heap w') (centroids st') /\
        (passes = 0 -> st' = st) /\
        (0 < passes -> iter + 1 <= iterations st' <= iter + passes) /\
        ((forall changed, converged changed (length vectors) tolerance = false) ->
         0 < passes -> iterations st' = iter + passes) /\
        (iterations st' < iter + passes ->
         assignments st' = assignAll (heap w') vectors (centroids st'))).
Proof.
  intros Hg Hk. revert iter st w.
  induction passes as [|passes IH]; intros iter st w Hlen Hb Hfresh Hiter; simpl.
  - apply wp_ret. split; [apply frame_refl|]. split; [exact Hfresh|].
    split; [reflexivity|]. repeat split; intros; lia.
  - apply wp_bind. eapply wp_mono; [apply iteration_spec; assumption|].
    simpl. intros [ctl st1] w1 (Hit & Hasg & Hf & Hcase). simpl in *.
    destruct (converged _ _ _) eqn:Hconv.
    + destruct Hcase as (-> & -> & Hc). apply wp_ret.
      split; [apply frame_refl|]. split; [rewrite Hc; exact Hfresh|].
      split; [discriminate|]. split; [lia|]. split.
      * intros Hnever. rewrite Hnever in Hconv. discriminate.
      * intros _. rewrite Hasg, Hc. reflexivity.
    + destruct Hcase as (-> & Hc & Hfr).
      assert (Hf1 : frame b (heap w) (heap w1)) by (eapply frame_le; eauto).
      eapply wp_mono.
      * apply (IH (S iter) st1 w1); [lia| destruct Hf1; lia | |lia].
        eapply fresh_le; eauto.
      * simpl. intros st' w' (Hf' & Hfr' & Hzero & Hpos & Hnever & Hstop).
        split; [eapply frame_trans; eauto|]. split; [exact Hfr'|].
        split; [discriminate|].
        split; [|split].
        -- intros _. destruct passes as [|passes'].
           ++ rewrite (Hzero eq_refl). lia.
           ++ specialize (Hpos ltac:(lia)). lia.
        -- intros Hn _. destruct passes as [|passes'].
           ++ rewrite (Hzero eq_refl). lia.
           ++ rewrite (Hnever Hn) by lia. lia.
        -- intros Hlt. apply Hstop. lia.
Qed.

(** The driver on valid input: at least one vector per cluster, at least
    one cluster, and draws that index the input. *)
Lemma kMeansClustering_spec vectors options w :
  let k := KMeansOptions.k options in
  let maxIterations := default defaultMaxIterations (KMeansOptions.maxIterations options) in
  let tolerance := default defaultTolerance (KMeansOptions.tolerance options) in
  goodDraws random (length vectors) ->
  1 <= k <= length vectors ->
  wp (kMeansClustering random vectors options) w
     (fun res w' =>
        frame (length (heap w)) (heap w) (heap w') /\
        fresh (length (heap w)) (heap w') (centroids res) /\
        (0 < maxIterations -> 1 <= iterations res <= maxIterations) /\
        ((forall changed, converged changed (length vectors) tolerance = false) ->
         iterations res = maxIterations) /\
        (iterations res < maxIterations ->
         assignments res = assignAll (heap w') vectors (centroids res))).
Proof.
  intros k maxIterations tolerance Hg Hk. unfold kMeansClustering.
  fold k maxIterations tolerance.
  destruct vectors as [|v0 vs] eqn:Hvs; [simpl in Hk; lia|].
  rewrite <- Hvs in *. rewrite Hvs at 1. simpl lengthOf.
  apply wp_bind, wp_load, wp_ret.
  destruct (length vectors <? k) eqn:Hlt; [apply Nat.ltb_lt in Hlt; lia|].
  apply wp_bind. eapply wp_mono; [apply initializeCentroids_spec; exact Hg|].
  simpl. intros cents w1 (Hlen & Hf & Hfresh).
  eapply wp_mono.
  - apply (iterate_spec (length (heap w))); try assumption; simpl; try lia.
    destruct Hf; lia.
  - simpl. intros res w' (Hf' & Hfr' & Hzero & Hpos & Hnever & Hstop).
    split; [eapply frame_trans; eauto|]. split; [exact Hfr'|].
    split; [intros Hm; specialize (Hpos Hm); lia|].
    split; [|exact Hstop].
    intros Hn. destruct maxIterations as [|m] eqn:Hm.
    + rewrite (Hzero eq_refl). reflexivity.
    + rewrite (Hnever Hn) by lia. reflexivity.
Qed.

End DriverSpecs.

(** ** The driver: entry checks and the converged pass *)

(** On a non-empty input with fewer vectors than [k] the driver throws the
    error of its [n < k] check, before seeding. *)
Lemma kMeansClustering_not_enough random vectors options w :
  vectors <> [] ->
  length vectors < KMeansOptions.k options ->
  kMeansClustering random vectors options w
  = Throw (NotEnoughVectors (length vectors) (KMeansOptions.k options)).
Proof.
  intros Hne Hlt. destruct vectors as [|v vs]; [congruence|].
  unfold kMeansClustering, bind. simpl lengthOf. unfold bind, load, ret.
  apply Nat.ltb_lt in Hlt. rewrite Hlt. reflexivity.
Qed.

(** C2 at its failing input: on the empty input the driver throws the
    TypeError of [vectors[0].length], whatever [k] is, not the error of
    its [n < k] check, which comes after. *)
Theorem kMeansClustering_empty_input :
  forall random options w,
    kMeansClustering random [] options w = Throw TypeError.
Proof. reflexivity. Qed.

(** ** Runs on the example data *)

Lemma unitDraws_halves : unitDraws halves.
Proof. intros i. vm_compute. reflexivity. Qed.

Example kMeansClustering_sixPoints :
  exists w',
    kMeansClustering halves [0; 1; 2; 3; 4; 5] (onlyK 2) sixWorld
    = Ok {| centroids := [10; 11]; assignments := [1; 1; 1; 0; 0; 0]; iterations := 2 |} w'.
Proof. eexists. vm_compute. reflexivity. Qed.

(** ** The driver: returns, iteration counts, frames *)

Section DriverProperties.

Variable random : nat -> num.

Lemma iteration_converged vectors k dim tolerance iter st w :
  converged (countChanged (assignAll (heap w) vectors (centroids st))
                          (assignments st) (length vectors))
            (length vectors) tolerance = true ->
  iteration random vectors k dim tolerance iter st w
  = Ok (Break, {| centroids := centroids st;
                  assignments := assignAll (heap w) vectors (centroids st);
                  iterations := iter + 1 |}) w.
Proof.
  intros Hconv. unfold iteration, bind, getHeap. rewrite Hconv. reflexivity.
Qed.

Lemma iterate_S vectors k dim tolerance passes iter st w :
  iterate random vectors k dim tolerance (S passes) iter st w
  = match iteration random vectors k dim tolerance iter st w with
    | Ok (Break, st') w' => Ok st' w'
    | Ok (Continue, st') w' =>
        iterate random vectors k dim tolerance passes (S iter) st' w'
    | Throw e => Throw e
    end.
Proof.
  simpl. unfold bind. destruct (iteration _ _ _ _ _ _ _ _) as [[[|] st'] w'|e]; reflexivity.
Qed.

Lemma kMeansClustering_nonempty vectors options w v0 :
  vectors !! 0 = Some v0 ->
  kMeansClustering random vectors options w
  = let k := KMeansOptions.k options in
    let n := length vectors in
    if n <? k then Throw (NotEnoughVectors n k)
    else match initializeCentroids random vectors k w with
         | Ok cents w1 =>
             iterate random vectors k (length (deref (heap w) v0))
                     (default defaultTolerance (KMeansOptions.tolerance options))
                     (default defaultMaxIterations (KMeansOptions.maxIterations options))
                     0
                     {| centroids := cents; assignments := replicate n 0; iterations := 0 |}
                     w1
         | Throw e => Throw e
         end.
Proof.
  intros H. unfold kMeansClustering. rewrite H. cbv zeta.
  unfold bind at 1. simpl. destruct (_ <? _); reflexivity.
Qed.

(** C1: a pass whose convergence test holds ends the loop at once.  The
    centroids returned are those the assignment was computed against, the
    assignment returned is the one just computed, the pass is counted, and
    the world is the one the pass was entered in: nothing was allocated or
    drawn, no centroid was recomputed. *)
Theorem converged_pass_returns_current_centroids
        vectors k dim tolerance passes iter st w :
  converged (countChanged (assignAll (heap w) vectors (centroids st))
                          (assignments st) (length vectors))
            (length vectors) tolerance = true ->
  iterate random vectors k dim tolerance (S passes) iter st w
  = Ok {| centroids := centroids st;
          assignments := assignAll (heap w) vectors (centroids st);
          iterations := iter + 1 |} w.
Proof.
  intros Hconv. rewrite iterate_S, iteration_converged by exact Hconv. reflexivity.
Qed.

(** Seen from the whole run: when the driver on valid input returns before
    its last pass, it stopped on a convergence test, and the assignment it
    returns is the assignment of the vectors to the centroids it returns. *)
Lemma kMeansClustering_stops_on_current_centroids vectors options w :
  unitDraws random ->
  (Z.of_nat (length vectors) <= maxSafeInteger)%Z ->
  1 <= KMeansOptions.k options <= length vectors ->
  exists res w',
    kMeansClustering random vectors options w = Ok res w' /\
    (iterations res < default defaultMaxIterations (KMeansOptions.maxIterations options) ->
     assignments res = assignAll (heap w') vectors (centroids res)).
Proof.
  intros Hu Hmax Hk.
  assert (Hg : goodDraws random (length vectors))
    by (apply unitDraws_good; [assumption|lia|assumption]).
  pose proof (kMeansClustering_spec random vectors options w Hg Hk) as H.
  apply wp_ok in H. destruct H as (res & w' & Hrun & _ & _ & _ & _ & Hstop).
  exists res, w'. split; [exact Hrun|exact Hstop].
Qed.

(** C5: on valid input the driver returns, after at least one and at most
    [maxIterations] passes; when the first pass converges, after one. *)
Theorem kMeansClustering_iterations vectors options w :
  let k := KMeansOptions.k options in
  let maxIterations := default defaultMaxIterations (KMeansOptions.maxIterations options) in
  let tolerance := default defaultTolerance (KMeansOptions.tolerance options) in
  let n := length vectors in
  unitDraws random ->
  (Z.of_nat n <= maxSafeInteger)%Z ->
  1 <= k <= n ->
  1 <= maxIterations ->
  exists res w',
    kMeansClustering random vectors options w = Ok res w' /\
    1 <= iterations res <= maxIterations /\
    forall cents w1,
      initializeCentroids random vectors k w = Ok cents w1 ->
      converged (countChanged (assignAll (heap w1) vectors cents) (replicate n 0) n)
                n tolerance = true ->
      iterations res = 1.
Proof.
  intros k maxIterations tolerance n Hu Hmax Hk Hm.
  assert (Hg : goodDraws random n) by (apply unitDraws_good; [assumption|lia|assumption]).
  pose proof (kMeansClustering_spec random vectors options w Hg Hk) as H.
  apply wp_ok in H. destruct H as (res & w' & Hrun & _ & _ & Hit & _).
  exists res, w'. split; [exact Hrun|]. split; [apply Hit; exact Hm|].
  intros cents w1 Hinit Hconv.
  destruct (lookup_lt_is_Some_2 vectors 0) as [v0 Hv0]; [fold n; lia|].
  rewrite (kMeansClustering_nonempty _ _ _ _ Hv0) in Hrun. cbv zeta in Hrun.
  fold k n maxIterations tolerance in Hrun.
  destruct (n <? k) eqn:Hlt; [apply Nat.ltb_lt in Hlt; lia|].
  rewrite Hinit in Hrun.
  destruct maxIterations as [|m]; [lia|].
  rewrite iterate_S, iteration_converged in Hrun by exact Hconv.
  injection Hrun as <- _. reflexivity.
Qed.

(** C10: with a zero tolerance the driver never leaves the loop through
    the convergence test: on valid input it returns after exactly
    [maxIterations] passes. *)
Theorem kMeansClustering_zero_tolerance vectors options w tolerance :
  let k := KMeansOptions.k options in
  let maxIterations := default defaultMaxIterations (KMeansOptions.maxIterations options) in
  KMeansOptions.tolerance options = Some tolerance ->
  (tolerance =? zero)%num = true ->
  unitDraws random ->
  (Z.of_nat (length vectors) <= maxSafeInteger)%Z ->
  1 <= k <= length vectors ->
  (forall changed, converged changed (length vectors) tolerance = false) /\
  exists res w',
    kMeansClustering random vectors options w = Ok res w' /\
    iterations res = maxIterations.
Proof.
  intros k maxIterations Htol Hz Hu Hmax Hk.
  assert (Hg : goodDraws random (length vectors))
    by (apply unitDraws_good; [assumption|lia|assumption]).
  assert (Hnever : forall changed, converged changed (length vectors) tolerance = false).
  { intros changed. apply converged_zero_tolerance. exact Hz. }
  split; [exact Hnever|].
  pose proof (kMeansClustering_spec random vectors options w Hg Hk) as H.
  apply wp_ok in H. destruct H as (res & w' & Hrun & _ & _ & _ & Hn).
  exists res, w'. split; [exact Hrun|]. apply Hn. rewrite Htol. exact Hnever.
Qed.

(** C9: a run on valid input returns, leaves every array of the store it
    started from as it was, and returns centroids that are arrays
    allocated during the run: overwriting an array of the initial store
    afterwards changes no centroid.  The seeding alone does the same. *)
Theorem kMeansClustering_frame vectors options w :
  unitDraws random ->
  (Z.of_nat (length vectors) <= maxSafeInteger)%Z ->
  1 <= KMeansOptions.k options <= length vectors ->
  (exists res w',
     kMeansClustering random vectors options w = Ok res w' /\
     (forall l, l < length (heap w) -> heap w' !! l = heap w !! l) /\
     Forall (fun c => length (heap w) <= c < length (heap w')) (centroids res) /\
     forall l a c, l < length (heap w) -> c ∈ centroids res ->
                   deref (<[l := a]> (heap w')) c = deref (heap w') c) /\
  (exists cents w1,
     initializeCentroids random vectors (KMeansOptions.k options) w = Ok cents w1 /\
     (forall l, l < length (heap w) -> heap w1 !! l = heap w !! l) /\
     Forall (fun c => length (heap w) <= c < length (heap w1)) cents /\
     forall l a c, l < length (heap w) -> c ∈ cents ->
                   deref (<[l := a]> (heap w1)) c = deref (heap w1) c).
Proof.
  intros Hu Hmax Hk.
  assert (Hg : goodDraws random (length vectors))
    by (apply unitDraws_good; [assumption|lia|assumption]).
  assert (Hmut : forall (h' : list (list num)) cs,
             fresh (length (heap w)) h' cs ->
             forall l a c, l < length (heap w) -> c ∈ cs ->
                           deref (<[l := a]> h') c = deref h' c).
  { intros h' cs Hfr l a c Hl Hc. unfold fresh in Hfr. rewrite Forall_forall in Hfr.
    specialize (Hfr c Hc). unfold deref.
    rewrite list_lookup_insert_ne by lia. reflexivity. }
  split.
  - pose proof (kMeansClustering_spec random vectors options w Hg Hk) as H.
    apply wp_ok in H. destruct H as (res & w' & Hrun & Hf & Hfr & _).
    exists res, w'. split; [exact Hrun|]. split; [apply Hf|]. split; [exact Hfr|].
    apply Hmut. exact Hfr.
  - pose proof (initializeCentroids_spec random vectors (KMeansOptions.k options) w Hg) as H.
    apply wp_ok in H. destruct H as (cents & w1 & Hrun & _ & Hf & Hfr).
    exists cents, w1. split; [exact Hrun|]. split; [apply Hf|]. split; [exact Hfr|].
    apply Hmut. exact Hfr.
Qed.

End DriverProperties.

(** ** The driver on example data *)

Lemma converged_pass_returns_current_centroids_witness :
  iterate halves [0; 1] 2 1 defaultTolerance 6 1
          {| centroids := [2; 3]; assignments := [0; 1]; iterations := 1 |} twoPoints
  = Ok {| centroids := [2; 3]; assignments := [0; 1]; iterations := 2 |} twoPoints.
Proof.
  apply (converged_pass_returns_current_centroids halves [0; 1] 2 1 defaultTolerance 5 1
           {| centroids := [2; 3]; assignments := [0; 1]; iterations := 1 |} twoPoints).
  vm_compute. reflexivity.
Defined.

Lemma kMeansClustering_iterations_witness :
  exists res w',
    kMeansClustering halves [0; 1; 2; 3; 4; 5] (onlyK 2) sixWorld = Ok res w' /\
    1 <= iterations res <= 100.
Proof.
  destruct (kMeansClustering_iterations halves [0; 1; 2; 3; 4; 5] (onlyK 2) sixWorld)
    as (res & w' & Hrun & Hit & _).
  - exact unitDraws_halves.
  - vm_compute. discriminate.
  - simpl. lia.
  - simpl. unfold defaultMaxIterations. lia.
  - exists res, w'. split; [exact Hrun | exact Hit].
Defined.

Lemma kMeansClustering_zero_tolerance_witness :
  exists res w',
    kMeansClustering halves [0; 1; 2; 3; 4; 5] (zeroTolerance 2 7) sixWorld = Ok res w' /\
    iterations res = 7.
Proof.
  destruct (kMeansClustering_zero_tolerance halves [0; 1; 2; 3; 4; 5]
              (zeroTolerance 2 7) sixWorld zero) as (_ & H).
  - reflexivity.
  - reflexivity.
  - exact unitDraws_halves.
  - vm_compute. discriminate.
  - simpl. lia.
  - exact H.
Defined.

(** The update on an assignment that leaves cluster 1 empty: the second
    centroid is a copy of the vector at index floor(0.5 * 6) = 3. *)
Example recalculateCentroids_empty_cluster :
  match recalculateCentroids halves [0; 1; 2; 3; 4; 5] [0; 0; 0; 0; 0; 0] 2 2 sixWorld with
  | Ok cents w' =>
      cents = [8; 9] /\ deref (heap w') 9 = [ofZ 10; ofZ 10] /\ cursor w' = 1
  | Throw _ => False
  end.
Proof. vm_compute. repeat split. Qed.

(** The seeding can return fewer than [k] centroids: here the weights are
    Infinity and 0, the threshold is Infinity, then Infinity - Infinity =
    NaN, and [r <= 0] holds at no vector.  The first pass converges on the
    single centroid and the driver returns it. *)
Example kMeansClustering_seeds_fewer_than_k :
  kMeansClustering halves [0; 1] (onlyK 2) farWorld
  = Ok {| centroids := [2]; assignments := [0; 0]; iterations := 1 |}
       {| heap := [[ofZ 0]; [scaled 1 600]; [scaled 1 600]]; cursor := 2 |}.
Proof. vm_compute. reflexivity. Qed.

Lemma kMeansClustering_frame_witness :
  exists res w',
    kMeansClustering halves [0; 1; 2; 3; 4; 5] (onlyK 2) sixWorld = Ok res w' /\
    (forall l, l < 6 -> heap w' !! l = sixPoints !! l) /\
    Forall (fun c => 6 <= c < length (heap w')) (centroids res).
Proof.
  destruct (kMeansClustering_frame halves [0; 1; 2; 3; 4; 5] (onlyK 2) sixWorld)
    as ((res & w' & Hrun & Hsame & Hfresh & _) & _).
  - exact unitDraws_halves.
  - vm_compute. discriminate.
  - simpl. lia.
  - exists res, w'. split; [exact Hrun|]. split; [exact Hsame | exact Hfresh].
Defined.

(** ** Sorting and representatives *)

Section SortBy.

Context {A : Type} (compare : A -> A -> num) (R : A -> A -> Prop) (P : A -> Prop).

Hypothesis swap_R :
  forall a b, P a -> P b -> (zero <? compare a b)%num = true -> R b a.
Hypothesis keep_R :
  forall a b, P a -> P b -> (zero <? compare a b)%num = false -> R a b.

Lemma insertSorted_Permutation x l : insertSorted compare x l ≡ₚ x :: l.
Proof.
  induction l as [|y l IH]; simpl.
  - reflexivity.
  - destruct (zero <? compare x y)%num; [|reflexivity].
    rewrite IH. apply Permutation_swap.
Qed.

Lemma sortBy_Permutation l : sortBy compare l ≡ₚ l.
Proof.
  induction l as [|x l IH]; simpl.
  - reflexivity.
  - rewrite insertSorted_Permutation, IH. reflexivity.
Qed.

Lemma insertSorted_HdRel a x l :
  R a x -> HdRel R a l -> HdRel R a (insertSorted compare x l).
Proof.
  intros Hax Hal. destruct l as [|y l]; simpl.
  - constructor. exact Hax.
  - destruct (zero <? compare x y)%num; constructor.
    + inversion Hal; assumption.
    + exact Hax.
Qed.

Lemma insertSorted_Sorted x l :
  P x -> Forall P l -> Sorted R l -> Sorted R (insertSorted compare x l).
Proof.
  intros Hx. induction l as [|y l IH]; intros HP Hs; simpl.
  - repeat constructor.
  - inversion HP as [|? ? Hy HPl]; subst. inversion Hs as [|? ? Hsl Hhd]; subst.
    destruct (zero <? compare x y)%num eqn:Hc.
    + constructor; [apply IH; assumption|].
      apply insertSorted_HdRel; [|exact Hhd].
      apply swap_R; assumption.
    + constructor; [exact Hs|]. constructor. apply keep_R; assumption.
Qed.

Lemma sortBy_Sorted l : Forall P l -> Sorted R (sortBy compare l).
Proof.
  induction l as [|x l IH]; intros HP; simpl.
  - constructor.
  - inversion HP; subst. apply insertSorted_Sorted; [assumption| |apply IH; assumption].
    rewrite sortBy_Permutation. assumption.
Qed.

End SortBy.

Lemma Sorted_take {A} (R : A -> A -> Prop) n l : Sorted R l -> Sorted R (take n l).
Proof.
  revert n. induction l as [|x l IH]; intros [|n] Hs; simpl; try constructor.
  - apply IH. inversion Hs; assumption.
  - inversion Hs as [|? ? _ Hhd]; subst.
    destruct l as [|y l]; destruct n; simpl; constructor.
    inversion Hhd; assumption.
Qed.

Lemma mapM_run {A B} (f : A -> M B) (Q : A -> B -> Prop) l w :
  (forall x, x ∈ l -> exists y, f x w = Ok y w /\ Q x y) ->
  exists ys, mapM f l w = Ok ys w /\ Forall2 Q l ys.
Proof.
  induction l as [|x l IH]; intros Hf; simpl.
  - exists []. split; [reflexivity|constructor].
  - destruct (Hf x) as (y & Hy & HQ); [left|].
    destruct IH as (ys & Hys & HQs); [intros z Hz; apply Hf; right; exact Hz|].
    exists (y :: ys). unfold bind. rewrite Hy, Hys. split; [reflexivity|].
    constructor; assumption.
Qed.

Section RepresentativeSpecs.

Context {P : Type}.

Lemma clusterPostsFrom_run vectors assignments c centroid (posts : list P) i w :
  i + length posts <= length vectors ->
  exists cps,
    clusterPostsFrom vectors assignments c centroid posts i w = Ok cps w /\
    length cps
    = length (filter (fun j => assignments !! j = Some c) (seq i (length posts))) /\
    Forall (fun cp => exists j v,
                j < i + length posts /\ assignments !! j = Some c /\
                vectors !! j = Some v /\
                similarity cp = cosineSimilarity (deref (heap w) v) centroid) cps.
Proof.
  revert i. induction posts as [|p rest IH]; intros i Hlen; simpl.
  - exists []. repeat split. constructor.
  - simpl in Hlen. destruct (IH (S i)) as (cps & Hrun & Hcount & Hall); [lia|].
    assert (Hall' : Forall (fun cp => exists j v,
                j < i + S (length rest) /\ assignments !! j = Some c /\
                vectors !! j = Some v /\
                similarity cp = cosineSimilarity (deref (heap w) v) centroid) cps).
    { eapply Forall_impl; [exact Hall|]. simpl.
      intros cp (j & v & Hj & H). exists j, v. split; [lia|exact H]. }
    rewrite filter_cons. destruct (decide (assignments !! i = Some c)) as [Hc|Hc].
    + destruct (lookup_lt_is_Some_2 vectors i) as [v Hv]; [lia|].
      rewrite Hv. simpl loadOpt. unfold bind, load. rewrite Hrun.
      eexists. split; [reflexivity|]. split; [simpl; congruence|].
      constructor; [|exact Hall'].
      exists i, v. simpl. repeat split; auto. lia.
    + exists cps. auto.
Qed.

End RepresentativeSpecs.

Section RepresentativeProperties.

Context {P : Type}.

(** C7, as amended: with a payload for at most every vector, the
    extraction returns one list per centroid; the list of cluster [c] has
    [min(topN, members of c)] elements (none for a cluster without
    members), and it is in non-increasing order of similarity provided the
    similarity of no member of [c] to the centroid is NaN. *)
Theorem getClusterRepresentatives_sorted_topN
        (vectors : list loc) (posts : list P) (cents : list loc)
        (assignments : list nat) (topN : nat) w :
  length posts <= length vectors ->
  exists reps,
    getClusterRepresentatives vectors posts cents assignments topN w = Ok reps w /\
    length reps = length cents /\
    forall c centroid,
      cents !! c = Some centroid ->
      exists l,
        reps !! c = Some l /\
        length l = Nat.min topN (members assignments (length posts) c) /\
        ((forall i v,
             i < length posts -> assignments !! i = Some c -> vectors !! i = Some v ->
             isNaN (cosineSimilarity (deref (heap w) v) (deref (heap w) centroid))
             = false) ->
         nonIncreasing (map Representative.similarity l)).
Proof.
  intros Hlen.
  set (Q := fun (c : nat) (l : list (Representative.t P)) =>
    forall centroid, cents !! c = Some centroid ->
      length l = Nat.min topN (members assignments (length posts) c) /\
      ((forall i v,
           i < length posts -> assignments !! i = Some c -> vectors !! i = Some v ->
           isNaN (cosineSimilarity (deref (heap w) v) (deref (heap w) centroid))
           = false) ->
       nonIncreasing (map Representative.similarity l))).
  destruct (mapM_run (representativesOf vectors posts cents assignments topN) Q
                     (seq 0 (length cents)) w) as (reps & Hrun & HQ).
  { intros c Hc. apply elem_of_seq in Hc.
    destruct (lookup_lt_is_Some_2 cents c) as [centroid Hcen]; [lia|].
    destruct (clusterPostsFrom_run vectors assignments c (deref (heap w) centroid)
                                   posts 0 w) as (cps & Hcps & Hcount & Hall); [simpl; lia|].
    unfold representativesOf. rewrite Hcen. simpl loadOpt.
    unfold bind, load. rewrite Hcps.
    eexists. split; [reflexivity|].
    intros centroid' Hcen'. assert (centroid' = centroid) as -> by congruence.
    split.
    - rewrite length_map, length_take.
      rewrite (Permutation_length (sortBy_Permutation bySimilarity cps)).
      rewrite Hcount. reflexivity.
    - intros Hcmp. unfold nonIncreasing. rewrite map_map. simpl.
      apply (Sorted_fmap similarity
               (fun a b : clusterPost P => (similarity b <=? similarity a)%num = true));
        [auto|].
      apply Sorted_take.
      apply (sortBy_Sorted bySimilarity _
               (fun cp : clusterPost P => comparable (similarity cp) = true)).
      + intros a b Ha Hb Hswap. unfold bySimilarity in Hswap.
        apply andb_prop in Ha. destruct Ha as [Hva Hna].
        apply andb_prop in Hb. destruct Hb as [Hvb Hnb].
        apply negb_true_iff in Hna, Hnb.
        rewrite zero_ltb_sub in Hswap by assumption.
        apply ltb_leb. exact Hswap.
      + intros a b Ha Hb Hkeep. unfold bySimilarity in Hkeep.
        apply andb_prop in Ha. destruct Ha as [Hva Hna].
        apply andb_prop in Hb. destruct Hb as [Hvb Hnb].
        apply negb_true_iff in Hna, Hnb.
        rewrite zero_ltb_sub in Hkeep by assumption.
        apply not_ltb_leb; assumption.
      + eapply Forall_impl; [exact Hall|]. simpl.
        intros cp (j & v & Hj & Hasg & Hv & ->). unfold comparable.
        rewrite cosineSimilarity_valid, (Hcmp j v); auto. }
  exists reps. split; [exact Hrun|].
  split.
  { apply Forall2_length in HQ. rewrite length_seq in HQ. congruence. }
  intros c centroid Hcen.
  assert (Hc : c < length cents) by (eapply lookup_lt_Some; eauto).
  destruct (Forall2_lookup_l _ _ _ c c HQ) as (l & Hl & Hq).
  { apply lookup_seq. split; [reflexivity|exact Hc]. }
  exists l. split; [exact Hl|]. apply Hq. exact Hcen.
Qed.

End RepresentativeProperties.

Lemma getClusterRepresentatives_sorted_topN_witness :
  exists reps l,
    getClusterRepresentatives [0; 1; 2; 3; 4; 5] [10; 11; 12; 13; 14; 15] [6; 7]
                              [0; 0; 0; 1; 1; 1] 2 sixClustered
    = Ok reps sixClustered /\
    reps !! 0 = Some l /\
    length l = 2 /\
    nonIncreasing (map Representative.similarity l).
Proof.
  destruct (getClusterRepresentatives_sorted_topN
              [0; 1; 2; 3; 4; 5] [10; 11; 12; 13; 14; 15] [6; 7]
              [0; 0; 0; 1; 1; 1] 2 sixClustered) as (reps & Hrun & _ & Hreps).
  - simpl. lia.
  - destruct (Hreps 0 6 eq_refl) as (l & Hl & Hlen & Hsorted).
    exists reps, l. split; [exact Hrun|]. split; [exact Hl|]. split; [exact Hlen|].
    apply Hsorted. intros i v Hi Hasg Hv.
    do 3 (destruct i as [|i]; [injection Hv as <-; vm_compute; reflexivity|]).
    do 3 (destruct i as [|i]; [discriminate Hasg|]).
    simpl in Hi. lia.
Defined.

Example getClusterRepresentatives_sixPoints :
  match getClusterRepresentatives [0; 1; 2; 3; 4; 5] [10; 11; 12; 13; 14; 15] [6; 7]
                                  [0; 0; 0; 1; 1; 1] 2 sixClustered with
  | Ok reps _ => map (map Representative.posts) reps = [[[11]; [12]]; [[13]; [14]]]
  | Throw _ => False
  end.
Proof. vm_compute. reflexivity. Qed.

(** C7 as stated fails: against a centroid whose squared norm overflows,
    the zero vector has similarity NaN and the unit vector similarity 0.
    The comparator returns NaN for the pair, the sort leaves them in place,
    and NaN >= 0 is false: the list is not in non-increasing order. *)
Lemma getClusterRepresentatives_not_sorted :
  let reps := [{| Representative.cluster := 0;
                  Representative.posts := [10];
                  Representative.similarity := NaN |};
               {| Representative.cluster := 0;
                  Representative.posts := [11];
                  Representative.similarity := zero |}] in
  getClusterRepresentatives [0; 1] [10; 11] [2] [0; 0] defaultTopN overflowWorld
  = Ok [reps] overflowWorld /\
  ~ nonIncreasing (map Representative.similarity reps).
Proof.
  split; [vm_compute; reflexivity|].
  intros H. inversion H as [|? ? _ Hhd]; subst.
  inversion Hhd as [|? ? Hle]; subst. discriminate Hle.
Qed.

(** * Further properties *)

(** ** NaN, signs and symmetry of the arithmetic *)

Lemma add_NaN_r x : (x + NaN)%num = NaN.
Proof. destruct x; reflexivity. Qed.

Lemma sub_NaN_r x : (x - NaN)%num = NaN.
Proof. destruct x; reflexivity. Qed.

Lemma mul_NaN_r x : (x * NaN)%num = NaN.
Proof. destruct x; reflexivity. Qed.

Lemma mul_comm x y : (x * y)%num = (y * x)%num.
Proof.
  destruct x as [sx|sx| |sx mx ex], y as [sy|sy| |sy my ey]; unfold mul, SFmul;
    try rewrite (xorb_comm sx sy); try reflexivity.
  rewrite (Pos.mul_comm mx my), (Z.add_comm ex ey). reflexivity.
Qed.

Lemma fold_left_invariant {A B} (f : A -> B -> A) (I : A -> Prop) l a :
  I a -> (forall a x, x ∈ l -> I a -> I (f a x)) -> I (fold_left f l a).
Proof.
  revert a. induction l as [|x l IH]; intros a Ha Hf; simpl; [exact Ha|].
  apply IH.
  - apply Hf; [left|exact Ha].
  - intros a' y Hy. apply Hf. right. exact Hy.
Qed.

Lemma binary_normalize_sum_sign p q e :
  signFalse (binary_normalize prec emax (Zpos p + Zpos q) e false) = true.
Proof.
  simpl. unfold binary_round. destruct (shl_align _ _ _) as [mz ez].
  apply binary_round_aux_sign.
Qed.

Lemma add_sign x y : signFalse x = true -> signFalse y = true -> signFalse (x + y)%num = true.
Proof.
  destruct x as [sx|sx| |sx mx ex], y as [sy|sy| |sy my ey];
    try destruct sx; try destruct sy; try discriminate; intros _ _; try reflexivity.
  unfold add, SFadd. cbv zeta. apply binary_normalize_sum_sign.
Qed.

Lemma mul_self_sign x : signFalse (x * x)%num = true.
Proof.
  destruct x as [s|s| |s m e]; try destruct s; try reflexivity;
    unfold mul, SFmul; apply binary_round_aux_sign.
Qed.

Lemma sqrt_sign x : signFalse x = true -> signFalse (sqrt x) = true.
Proof.
  destruct x as [s|s| |s m e]; try destruct s; try discriminate; intros _; try reflexivity.
  unfold sqrt, SFsqrt. destruct (SFsqrt_core_binary _ _ _ _) as [[mz ez] lz].
  apply binary_round_aux_sign.
Qed.

Lemma signFalse_not_negative x : signFalse x = true -> (x <? zero)%num = false.
Proof. intros Hx. apply signFalse_not_ltb_zero; [exact Hx|reflexivity]. Qed.

(** ** Euclidean distance *)

(** The sum of squares that [euclideanDistance] takes the root of. *)
Lemma euclideanDistance_sum_sign a b l s :
  signFalse s = true ->
  signFalse (fold_left
               (fun sum i => let diff := (at_ a i - at_ b i)%num in (sum + diff * diff)%num)
               l s) = true.
Proof.
  intros Hs. apply fold_left_invariant; [exact Hs|].
  intros s' i _ Hs'. cbv zeta. apply add_sign; [exact Hs'|apply mul_self_sign].
Qed.

(** X1: a distance is never negative and never -0 (it can be NaN). *)
Theorem euclideanDistance_not_negative (a b : list num) :
  signFalse (euclideanDistance a b) = true /\
  (euclideanDistance a b <? zero)%num = false.
Proof.
  assert (H : signFalse (euclideanDistance a b) = true).
  { apply sqrt_sign, euclideanDistance_sum_sign. reflexivity. }
  split; [exact H|]. apply signFalse_not_negative. exact H.
Qed.

Lemma fold_left_ext_in {A B} (f g : A -> B -> A) l a :
  (forall a x, x ∈ l -> f a x = g a x) -> fold_left f l a = fold_left g l a.
Proof.
  revert a. induction l as [|x l IH]; intros a H; simpl; [reflexivity|].
  rewrite H by left. apply IH. intros a' y Hy. apply H. right. exact Hy.
Qed.

(** A loop over the indices of [v] that reads [v[i]] is a fold over [v]. *)
Lemma fold_left_at {A} (g : A -> num -> A) (pre v : list num) s :
  fold_left (fun s i => g s (at_ (pre ++ v) i)) (seq (length pre) (length v)) s =
  fold_left g v s.
Proof.
  revert pre s. induction v as [|x v IH]; intros pre s; simpl; [reflexivity|].
  replace (at_ (pre ++ x :: v) (length pre)) with x.
  2:{ unfold at_. rewrite app_nth2 by lia. rewrite Nat.sub_diag. reflexivity. }
  specialize (IH (pre ++ [x]) (g s x)).
  rewrite <- app_assoc, length_app in IH. simpl in IH.
  rewrite Nat.add_1_r in IH. exact IH.
Qed.

Lemma binary_round_aux_opp m e l :
  binary_round_aux prec emax true m e l = SFopp (binary_round_aux prec emax false m e l).
Proof.
  unfold binary_round_aux.
  destruct (shr_fexp prec emax m e l) as [mrs e'].
  destruct (shr_fexp prec emax _ e' loc_Exact) as [mrs' e''].
  destruct (shr_m mrs'); [reflexivity| |reflexivity].
  destruct (Z.leb _ _); reflexivity.
Qed.

Lemma binary_normalize_opp m e :
  (binary_normalize prec emax (- m) e false * binary_normalize prec emax (- m) e false =
   binary_normalize prec emax m e false * binary_normalize prec emax m e false)%num.
Proof.
  assert (Hopp : forall x, (SFopp x * SFopp x = x * x)%num).
  { intros [s|s| |s p q]; try destruct s; reflexivity. }
  destruct m as [|p|p]; simpl; [reflexivity| |];
    unfold binary_round; destruct (shl_align _ _ _) as [mz ez];
    rewrite binary_round_aux_opp; [apply Hopp | symmetry; apply Hopp].
Qed.

(** The square of a difference does not depend on the order of the
    operands. *)
Lemma sub_square_comm x y :
  ((x - y) * (x - y) = (y - x) * (y - x))%num.
Proof.
  destruct x as [sx|sx| |sx mx ex], y as [sy|sy| |sy my ey];
    try (destruct sx, sy; reflexivity); try (destruct sx; reflexivity);
    try (destruct sy; reflexivity); try reflexivity.
  unfold sub, SFsub. cbv zeta. rewrite (Z.min_comm ey ex).
  set (A := cond_Zopp sx _). set (B := cond_Zopp sy _).
  replace (B - A)%Z with (- (A - B))%Z by lia.
  symmetry. apply binary_normalize_opp.
Qed.

Lemma seq_split_at n m : n < m -> seq 0 m = seq 0 n ++ n :: seq (S n) (m - S n).
Proof.
  intros H. replace m with (n + S (m - S n)) at 1 by lia.
  rewrite seq_app. reflexivity.
Qed.

Lemma at_length (b : list num) : at_ b (length b) = NaN.
Proof. unfold at_. apply nth_overflow. lia. Qed.

(** X2: the distance of a vector to itself is 0 when all its coordinates
    are finite, and NaN otherwise. *)
Theorem euclideanDistance_self (v : list num) :
  euclideanDistance v v = if forallb isFinite v then zero else NaN.
Proof.
  unfold euclideanDistance.
  pose proof (fold_left_at (fun s x => (s + (x - x) * (x - x))%num) [] v zero) as H.
  simpl in H. cbv zeta. rewrite H. clear H.
  assert (Hnan : forall l, fold_left (fun s x => (s + (x - x) * (x - x))%num) l NaN = NaN).
  { induction l as [|x l IH]; [reflexivity|exact IH]. }
  assert (Hstep : forall x, (zero + (x - x) * (x - x))%num = if isFinite x then zero else NaN).
  { intros [s|s| |s m e]; try (destruct s; reflexivity); try reflexivity.
    unfold sub, SFsub. cbv zeta. rewrite Z.sub_diag. reflexivity. }
  induction v as [|x v IH]; [reflexivity|]. cbn [fold_left forallb].
  rewrite Hstep. destruct (isFinite x); simpl; [exact IH|].
  rewrite Hnan. reflexivity.
Qed.

(** X3: between vectors of equal length the distance is symmetric. *)
Theorem euclideanDistance_symmetric (a b : list num) :
  length a = length b -> euclideanDistance a b = euclideanDistance b a.
Proof.
  intros Hlen. unfold euclideanDistance. rewrite Hlen. f_equal.
  apply fold_left_ext_in. intros s i _. cbv zeta. f_equal. apply sub_square_comm.
Qed.

Lemma euclideanDistance_symmetric_witness :
  length [ofZ 1; ofZ 2] = length [ofZ 4; ofZ 6] /\
  euclideanDistance [ofZ 1; ofZ 2] [ofZ 4; ofZ 6] =
  euclideanDistance [ofZ 4; ofZ 6] [ofZ 1; ofZ 2].
Proof.
  split; [reflexivity|].
  apply (euclideanDistance_symmetric [ofZ 1; ofZ 2] [ofZ 4; ofZ 6]). reflexivity.
Defined.

(** X4: against a shorter vector the distance is NaN: the coordinates
    missing from [b] read as [undefined]. *)
Theorem euclideanDistance_shorter (a b : list num) :
  length b < length a -> euclideanDistance a b = NaN.
Proof.
  intros Hlen. unfold euclideanDistance.
  rewrite (seq_split_at (length b) (length a) Hlen), fold_left_app. simpl.
  rewrite at_length, sub_NaN_r, add_NaN_r.
  replace (fold_left _ _ NaN) with NaN; [reflexivity|].
  symmetry. apply (fold_left_invariant _ (fun s => s = NaN)); [reflexivity|].
  intros s i _ ->. reflexivity.
Qed.

Lemma euclideanDistance_shorter_witness :
  length [ofZ 1] < length [ofZ 1; ofZ 2] /\
  euclideanDistance [ofZ 1; ofZ 2] [ofZ 1] = NaN.
Proof.
  split; [simpl; lia|].
  apply (euclideanDistance_shorter [ofZ 1; ofZ 2] [ofZ 1]). simpl. lia.
Defined.

(** X5: only the first [a.length] coordinates of [b] are read. *)
Theorem euclideanDistance_prefix (a b : list num) :
  euclideanDistance a b = euclideanDistance a (take (length a) b).
Proof.
  unfold euclideanDistance. f_equal.
  apply fold_left_ext_in. intros s i Hi. cbv zeta.
  apply elem_of_seq in Hi.
  replace (at_ (take (length a) b) i) with (at_ b i); [reflexivity|].
  unfold at_. rewrite !nth_lookup, lookup_take_lt by lia. reflexivity.
Qed.

(** ** Cosine similarity: symmetry and operands of unequal length *)

Lemma fold_left_related {A A' B} (f : A -> B -> A) (g : A' -> B -> A')
      (R : A -> A' -> Prop) l a a' :
  R a a' -> (forall a a' x, x ∈ l -> R a a' -> R (f a x) (g a' x)) ->
  R (fold_left f l a) (fold_left g l a').
Proof.
  revert a a'. induction l as [|x l IH]; intros a a' Ha Hf; simpl; [exact Ha|].
  apply IH.
  - apply Hf; [left|exact Ha].
  - intros c c' y Hy. apply Hf. right. exact Hy.
Qed.

Lemma cosLoop_swap (a b : list num) :
  length a = length b ->
  dotProduct (cosLoop a b) = dotProduct (cosLoop b a) /\
  normA (cosLoop a b) = normB (cosLoop b a) /\
  normB (cosLoop a b) = normA (cosLoop b a).
Proof.
  intros Hlen. unfold cosLoop. rewrite Hlen.
  apply (fold_left_related _ _
           (fun acc acc' => dotProduct acc = dotProduct acc' /\
                            normA acc = normB acc' /\ normB acc = normA acc')).
  - repeat split.
  - intros acc acc' i _ (Hd & Ha & Hb). simpl.
    rewrite Hd, Ha, Hb, (mul_comm (at_ a i) (at_ b i)). repeat split.
Qed.

(** X6: between vectors of equal length the similarity is symmetric. *)
Theorem cosineSimilarity_symmetric (a b : list num) :
  length a = length b -> cosineSimilarity a b = cosineSimilarity b a.
Proof.
  intros Hlen. destruct (cosLoop_swap a b Hlen) as (Hd & Ha & Hb).
  assert (Hm : magnitude a b = magnitude b a).
  { unfold magnitude. rewrite Ha, Hb. apply mul_comm. }
  unfold cosineSimilarity. rewrite Hm, Hd. reflexivity.
Qed.

Lemma cosineSimilarity_symmetric_witness :
  length [ofZ 1; ofZ 2] = length [ofZ 4; ofZ 6] /\
  cosineSimilarity [ofZ 1; ofZ 2] [ofZ 4; ofZ 6] =
  cosineSimilarity [ofZ 4; ofZ 6] [ofZ 1; ofZ 2].
Proof.
  split; [reflexivity|].
  apply (cosineSimilarity_symmetric [ofZ 1; ofZ 2] [ofZ 4; ofZ 6]). reflexivity.
Defined.

(** X7: against a shorter second vector the similarity is NaN, whatever
    the vectors hold. *)
Theorem cosineSimilarity_shorter (a b : list num) :
  length b < length a -> cosineSimilarity a b = NaN.
Proof.
  intros Hlen.
  assert (H : dotProduct (cosLoop a b) = NaN /\ normB (cosLoop a b) = NaN).
  { unfold cosLoop.
    rewrite (seq_split_at (length b) (length a) Hlen), fold_left_app.
    cbn [fold_left].
    apply (fold_left_invariant _ (fun acc => dotProduct acc = NaN /\ normB acc = NaN)).
    - simpl. rewrite at_length, !mul_NaN_r, !add_NaN_r. split; reflexivity.
    - intros acc i _ [Hd Hb]. simpl. rewrite Hd, Hb. split; reflexivity. }
  destruct H as [Hd Hb].
  unfold cosineSimilarity, magnitude. rewrite Hd, Hb.
  change (sqrt NaN) with NaN. rewrite mul_NaN_r. reflexivity.
Qed.

Lemma cosineSimilarity_shorter_witness :
  length [ofZ 1] < length [ofZ 1; ofZ 2] /\
  cosineSimilarity [ofZ 1; ofZ 2] [ofZ 1] = NaN.
Proof.
  split; [simpl; lia|].
  apply (cosineSimilarity_shorter [ofZ 1; ofZ 2] [ofZ 1]). simpl. lia.
Defined.

(** ** The order of binary64 numbers is transitive *)

Lemma SFcompare_trans (a b c : num) x y :
  SFcompare a b = Some x -> SFcompare b c = Some y ->
  x <> Gt -> y <> Gt ->
  exists z, SFcompare a c = Some z /\ z <> Gt /\ (z = Eq -> x = Eq /\ y = Eq).
Proof.
  destruct a as [sa|sa| |sa ma ea], b as [sb|sb| |sb mb eb], c as [sc|sc| |sc mc ec];
    try discriminate;
    try destruct sa; try destruct sb; try destruct sc; simpl;
    intros [= <-] [= <-] Hx Hy; try congruence; eauto;
    try (eexists; split; [reflexivity|]; split; [discriminate|discriminate]).
  all: change (PosDef.Pos.compare_cont Eq) with Pos.compare in *.
  all: destruct (Z.compare_spec ea eb), (Z.compare_spec eb ec), (Z.compare_spec ea ec);
    try lia; try congruence; subst;
    try (eexists; split; [reflexivity|]; split; [discriminate|discriminate]).
  all: destruct (Pos.compare_spec ma mb), (Pos.compare_spec mb mc), (Pos.compare_spec ma mc);
    try lia; simpl in *; try congruence; subst;
    try (eexists; split; [reflexivity|]; split; [discriminate|];
         intros; try discriminate; split; reflexivity).
Qed.

Lemma leb_trans (a b c : num) :
  (a <=? b)%num = true -> (b <=? c)%num = true -> (a <=? c)%num = true.
Proof.
  unfold leb, SFleb. intros Hab Hbc.
  destruct (SFcompare a b) as [x|] eqn:Hx; [|discriminate].
  destruct (SFcompare b c) as [y|] eqn:Hy; [|discriminate].
  destruct (SFcompare_trans a b c x y Hx Hy) as (z & -> & Hz & _).
  - destruct x; congruence.
  - destruct y; congruence.
  - destruct z; congruence.
Qed.

Lemma ltb_leb_trans (a b c : num) :
  (a <? b)%num = true -> (b <=? c)%num = true -> (a <? c)%num = true.
Proof.
  unfold ltb, leb, SFltb, SFleb. intros Hab Hbc.
  destruct (SFcompare a b) as [x|] eqn:Hx; [|discriminate].
  destruct (SFcompare b c) as [y|] eqn:Hy; [|discriminate].
  destruct (SFcompare_trans a b c x y Hx Hy) as (z & -> & Hz & He).
  - destruct x; congruence.
  - destruct y; congruence.
  - destruct z; [|reflexivity|congruence].
    destruct He as [-> _]; [reflexivity|discriminate].
Qed.

Lemma leb_refl (x : num) : isNaN x = false -> (x <=? x)%num = true.
Proof.
  destruct x as [s|s| |s m e]; try destruct s; try discriminate; intros _; try reflexivity;
    unfold leb, SFleb; simpl; rewrite Z.compare_refl;
    change (PosDef.Pos.compare_cont Eq) with Pos.compare; rewrite Pos.compare_refl;
    reflexivity.
Qed.

Lemma leb_Infinity (x : num) : isNaN x = false -> (x <=? Infinity)%num = true.
Proof. destruct x as [s|s| |s m e]; try destruct s; try discriminate; reflexivity. Qed.

(** ** Nearest-centroid assignment *)

Section Nearest.

Variables (vector : list num) (all : list (list num)).

Hypothesis comparable_distances :
  forall c, c ∈ all -> isNaN (euclideanDistance vector c) = false.

(** The scan of [assignToCentroid] after the centroids [pre], with the
    distance [m] and index [a] it holds then. *)
Lemma nearest_minimal cs pre m a :
  all = pre ++ cs -> all <> [] -> isNaN m = false ->
  (forall c, c ∈ pre -> (m <=? euclideanDistance vector c)%num = true) ->
  ((exists ca, all !! a = Some ca /\ a < length pre /\ euclideanDistance vector ca = m /\
               forall i c, i < a -> all !! i = Some c ->
                           (m <? euclideanDistance vector c)%num = true)
   \/ (m = Infinity /\ a = 0)) ->
  exists cj, all !! nearest vector cs (length pre) m a = Some cj /\
    (forall c, c ∈ all ->
               (euclideanDistance vector cj <=? euclideanDistance vector c)%num = true) /\
    (forall i c, i < nearest vector cs (length pre) m a -> all !! i = Some c ->
                 (euclideanDistance vector cj <? euclideanDistance vector c)%num = true).
Proof.
  revert pre m a. induction cs as [|c cs IH]; intros pre m a Hall Hne Hm Hle Hst; simpl.
  - rewrite app_nil_r in Hall. subst pre.
    destruct Hst as [(ca & Hca & _ & <- & Hlt)|[-> ->]].
    + exists ca. auto.
    + destruct all as [|c0 rest] eqn:E; [congruence|]. rewrite <- E in *.
      assert (H0 : all !! 0 = Some c0) by (rewrite E; reflexivity).
      exists c0. split; [exact H0|]. split; [|intros i c Hi; lia].
      intros c Hc. eapply leb_trans; [|apply Hle; exact Hc].
      apply leb_Infinity, comparable_distances. rewrite E. left.
  - assert (Hc : c ∈ all) by (rewrite Hall; apply elem_of_app; right; left).
    assert (Hlook : all !! length pre = Some c).
    { rewrite Hall. rewrite lookup_app_r by lia. rewrite Nat.sub_diag. reflexivity. }
    assert (Hall' : all = (pre ++ [c]) ++ cs) by (rewrite <- app_assoc; exact Hall).
    assert (Hlen : S (length pre) = length (pre ++ [c])) by (rewrite length_app; simpl; lia).
    pose proof (comparable_distances c Hc) as Hn.
    rewrite Hlen.
    destruct (euclideanDistance vector c <? m)%num eqn:Hlt.
    + apply IH; [exact Hall'|exact Hne|exact Hn| |].
      * intros c' [Hc'|Hc']%elem_of_app.
        -- apply ltb_leb. eapply ltb_leb_trans; [exact Hlt|]. apply Hle. exact Hc'.
        -- apply list_elem_of_singleton in Hc'. subst c'. apply leb_refl. exact Hn.
      * left. exists c. split; [exact Hlook|]. split; [lia|]. split; [reflexivity|].
        intros i c' Hi Hi'. eapply ltb_leb_trans; [exact Hlt|]. apply Hle.
        rewrite Hall, lookup_app_l in Hi' by lia.
        eapply list_elem_of_lookup_2. exact Hi'.
    + apply IH; [exact Hall'|exact Hne|exact Hm| |].
      * intros c' [Hc'|Hc']%elem_of_app; [apply Hle; exact Hc'|].
        apply list_elem_of_singleton in Hc'. subst c'.
        apply not_ltb_leb; assumption.
      * destruct Hst as [(ca & Hca & Ha & Hd & Hmin)|Hinf]; [|right; exact Hinf].
        left. exists ca. repeat split; try assumption. lia.
Qed.

End Nearest.

(** X8: with distances that are all numbers, the centroid assigned is a
    nearest one, and the first of the nearest. *)
Theorem assignToCentroid_nearest (h : list (list num)) (vector : loc) (centroids : list loc) :
  centroids <> [] ->
  (forall c, c ∈ centroids ->
             isNaN (euclideanDistance (deref h vector) (deref h c)) = false) ->
  exists cj, centroids !! assignToCentroid h vector centroids = Some cj /\
    (forall c, c ∈ centroids ->
       (euclideanDistance (deref h vector) (deref h cj) <=?
        euclideanDistance (deref h vector) (deref h c))%num = true) /\
    (forall i c, i < assignToCentroid h vector centroids -> centroids !! i = Some c ->
       (euclideanDistance (deref h vector) (deref h cj) <?
        euclideanDistance (deref h vector) (deref h c))%num = true).
Proof.
  intros Hne Hnan. unfold assignToCentroid.
  destruct (nearest_minimal (deref h vector) (map (deref h) centroids))
    with (cs := map (deref h) centroids) (pre := @nil (list num)) (m := Infinity) (a := 0)
    as (dj & Hj & Hmin & Hfirst).
  - intros d (c & -> & Hc)%list_elem_of_fmap. apply Hnan. exact Hc.
  - reflexivity.
  - destruct centroids; [congruence|discriminate].
  - reflexivity.
  - intros c Hc. inversion Hc.
  - right. split; reflexivity.
  - simpl in Hj, Hfirst. rewrite list_lookup_fmap in Hj.
    destruct (centroids !! _) as [cj|] eqn:Hcj; [|discriminate].
    injection Hj as <-. exists cj. split; [reflexivity|]. split.
    + intros c Hc. apply Hmin. apply list_elem_of_fmap. eauto.
    + intros i c Hi Hc. apply (Hfirst i); [exact Hi|].
      rewrite list_lookup_fmap, Hc. reflexivity.
Qed.

Lemma nearest_keeps v cs i m a :
  (forall c, c ∈ cs -> (euclideanDistance v c <? m)%num = false) ->
  nearest v cs i m a = a.
Proof.
  revert i. induction cs as [|c cs IH]; intros i H; simpl; [reflexivity|].
  rewrite (H c) by left. apply IH. intros c' Hc'. apply H. right. exact Hc'.
Qed.

(** X9: when no centroid is at a distance below [Infinity] (there is none,
    or every distance is NaN or infinite), the vector is assigned to
    cluster 0. *)
Theorem assignToCentroid_default (h : list (list num)) (vector : loc) (centroids : list loc) :
  (forall c, c ∈ centroids ->
             (euclideanDistance (deref h vector) (deref h c) <? Infinity)%num = false) ->
  assignToCentroid h vector centroids = 0.
Proof.
  intros H. apply nearest_keeps.
  intros d (c & -> & Hc)%list_elem_of_fmap. apply H. exact Hc.
Qed.

(** ** Vectors of unequal lengths *)

(** C3, as amended: the driver has no dimension check.  Whatever the
    lengths of the vectors of a non-empty input, with at least one cluster
    asked for, it throws its not-enough-vectors error when [n < k] and
    returns a clustering otherwise.  Its distance computations,
    [euclideanDistance(vector, centroid)], loop over the coordinates of the
    vector: the coordinates missing from a shorter centroid read as
    [undefined] and the distance is NaN, so that a vector longer than every
    centroid is assigned to cluster 0; the coordinates of a longer centroid
    beyond the length of the vector are not read. *)
Theorem kMeansClustering_no_dimension_check random vectors options w :
  unitDraws random ->
  1 <= length vectors -> (Z.of_nat (length vectors) <= maxSafeInteger)%Z ->
  1 <= KMeansOptions.k options ->
  (if length vectors <? KMeansOptions.k options
   then kMeansClustering random vectors options w
        = Throw (NotEnoughVectors (length vectors) (KMeansOptions.k options))
   else exists res w', kMeansClustering random vectors options w = Ok res w') /\
  (forall vector centroid : list num,
     length centroid < length vector -> euclideanDistance vector centroid = NaN) /\
  (forall vector centroid : list num,
     euclideanDistance vector centroid
     = euclideanDistance vector (take (length vector) centroid)) /\
  (forall h v cents,
     Forall (fun c => length (deref h c) < length (deref h v)) cents ->
     assignToCentroid h v cents = 0).
Proof.
  intros Hu Hn Hmax Hk.
  pose proof (unitDraws_good random _ Hu Hn Hmax) as Hg.
  assert (Hnan : forall a b : list num, length b < length a -> euclideanDistance a b = NaN).
  { intros a b Hlen. unfold euclideanDistance.
    rewrite (seq_split_at (length b) (length a) Hlen), fold_left_app. simpl.
    rewrite at_length, sub_NaN_r, add_NaN_r.
    replace (fold_left _ _ NaN) with NaN; [reflexivity|].
    symmetry. apply (fold_left_invariant _ (fun s => s = NaN)); [reflexivity|].
    intros s i _ ->. reflexivity. }
  split; [|split; [exact Hnan|split]].
  - destruct (length vectors <? _) eqn:Hlt.
    + apply Nat.ltb_lt in Hlt. apply kMeansClustering_not_enough; [|exact Hlt].
      intros ->. simpl in Hn. lia.
    + apply Nat.ltb_ge in Hlt.
      pose proof (kMeansClustering_spec random vectors options w Hg (conj Hk Hlt)) as H.
      apply wp_ok in H. destruct H as (res & w' & Hrun & _). eauto.
  - intros a b. unfold euclideanDistance. f_equal.
    apply fold_left_ext_in. intros s i Hi%elem_of_seq. cbv zeta.
    replace (at_ (take (length a) b) i) with (at_ b i); [reflexivity|].
    unfold at_. rewrite !nth_lookup, lookup_take_lt by lia. reflexivity.
  - intros h v cents Hshort. apply nearest_keeps.
    intros d (c & -> & Hc)%list_elem_of_fmap.
    rewrite Forall_forall in Hshort. rewrite (Hnan _ _ (Hshort c Hc)). reflexivity.
Qed.

Lemma kMeansClustering_no_dimension_check_witness :
  (exists res w', kMeansClustering halves [0; 1] (onlyK 1) raggedWorld = Ok res w') /\
  euclideanDistance [ofZ 1; ofZ 2] [ofZ 0] = NaN /\
  assignToCentroid (heap raggedWorld) 1 [0] = 0.
Proof.
  destruct (kMeansClustering_no_dimension_check halves [0; 1] (onlyK 1) raggedWorld)
    as (Hrun & Hnan & _ & Hzero).
  - exact unitDraws_halves.
  - simpl. lia.
  - vm_compute. discriminate.
  - simpl. lia.
  - split; [exact Hrun|]. split.
    + apply Hnan. simpl. lia.
    + apply Hzero. repeat constructor.
Defined.

(** C3 as stated fails: on two vectors of lengths 1 and 2 the driver
    raises nothing; it seeds (one draw, one centroid allocated) and returns
    a clustering. *)
Lemma kMeansClustering_accepts_unequal_lengths :
  length (deref (heap raggedWorld) 0) <> length (deref (heap raggedWorld) 1) /\
  kMeansClustering halves [0; 1] (onlyK 1) raggedWorld
  = Ok {| centroids := [2]; assignments := [0; 0]; iterations := 1 |}
       {| heap := [[ofZ 0]; [ofZ 1; ofZ 2]; [ofZ 1; ofZ 2]]; cursor := 1 |}.
Proof. split; [simpl; lia | vm_compute; reflexivity]. Qed.

(** ** Seeds are copies of input vectors *)

Lemma copyOfInput_app h0 vectors h ext cs :
  Forall (copyOfInput h0 vectors h) cs -> Forall (copyOfInput h0 vectors (h ++ ext)) cs.
Proof.
  intros H. eapply Forall_impl; [exact H|]. intros c (v & Hv & Hc).
  exists v. split; [exact Hv|].
  apply lookup_app_l_Some. exact Hc.
Qed.

Lemma frame_deref h0 h v : frame (length h0) h0 h -> v < length h0 -> deref h v = deref h0 v.
Proof. intros [_ H] Hv. unfold deref. rewrite H by exact Hv. reflexivity. Qed.

Section SeedCopies.

Variable random : nat -> num.

Lemma seedLoop_copies h0 vectors count cents w :
  Forall (fun v => v < length h0) vectors ->
  frame (length h0) h0 (heap w) ->
  Forall (copyOfInput h0 vectors (heap w)) cents ->
  wp (seedLoop random vectors count cents) w
     (fun cs w' =>
        cursor w' = cursor w + count /\
        frame (length h0) h0 (heap w') /\
        Forall (copyOfInput h0 vectors (heap w')) cs).
Proof.
  intros Hvalid. revert cents w.
  induction count as [|count IH]; intros cents w Hf Hc; simpl.
  - apply wp_ret. split; [lia|]. split; assumption.
  - apply wp_getHeap, wp_random, wp_bind.
    destruct (drawNext _ _) as [j|] eqn:Hd.
    + unfold drawNext in Hd. apply pick_bound in Hd.
      unfold distancesTo in Hd. rewrite length_map in Hd.
      destruct (lookup_lt_is_Some_2 vectors j) as [v Hv]; [lia|].
      rewrite Hv. apply wp_spread, wp_ret.
      assert (Hvin : v ∈ vectors) by (eapply list_elem_of_lookup_2; exact Hv).
      assert (Hvlt : v < length h0).
      { rewrite Forall_forall in Hvalid. apply Hvalid. exact Hvin. }
      eapply wp_mono.
      * apply IH; simpl.
        -- eapply frame_trans; [exact Hf|]. apply frame_app. destruct Hf. lia.
        -- apply Forall_app. split; [apply copyOfInput_app; exact Hc|].
           constructor; [|constructor]. exists v. split; [exact Hvin|].
           rewrite lookup_app_r by lia. rewrite Nat.sub_diag. simpl.
           rewrite (frame_deref h0 (heap w) v Hf Hvlt). reflexivity.
      * intros cs w' (Hcur & Hf' & Hcs). simpl in Hcur. split; [lia|]. split; assumption.
    + apply wp_ret. eapply wp_mono; [apply IH; simpl; assumption|].
      intros cs w' (Hcur & Hf' & Hcs). simpl in Hcur. split; [lia|]. split; assumption.
Qed.

Lemma initializeCentroids_seeds vectors k w :
  goodDraws random (length vectors) ->
  Forall (fun v => v < length (heap w)) vectors ->
  exists cs w',
    initializeCentroids random vectors k w = Ok cs w' /\
    1 <= length cs <= max 1 k /\
    cursor w' = cursor w + max 1 k /\
    Forall (copyOfInput (heap w) vectors (heap w')) cs.
Proof.
  intros Hg Hvalid.
  pose proof (initializeCentroids_spec random vectors k w Hg) as Hspec.
  assert (Hcopies : wp (initializeCentroids random vectors k) w
            (fun cs w' => cursor w' = cursor w + max 1 k /\
                          Forall (copyOfInput (heap w) vectors (heap w')) cs)).
  { destruct vectors as [|v0 vs] eqn:Hvs.
    { destruct (Hg 0) as (j & _ & Hj). simpl in Hj. lia. }
    rewrite <- Hvs in *. unfold initializeCentroids. rewrite Hvs at 1.
    simpl lengthOf. apply wp_bind, wp_load, wp_ret.
    apply wp_randomVector; [exact Hg|]. intros v Hv.
    apply wp_spread.
    assert (Hvlt : v < length (heap w)).
    { rewrite Forall_forall in Hvalid. apply Hvalid. exact Hv. }
    eapply wp_mono.
    - apply (seedLoop_copies (heap w)); simpl.
      + exact Hvalid.
      + apply frame_app. lia.
      + constructor; [|constructor]. exists v. split; [exact Hv|].
        rewrite lookup_app_r by lia. rewrite Nat.sub_diag. reflexivity.
    - intros cs w' (Hcur & _ & Hcs). simpl in Hcur. split; [lia|exact Hcs]. }
  apply wp_ok in Hspec. destruct Hspec as (cs & w' & Hrun & Hlen & _).
  unfold wp in Hcopies. rewrite Hrun in Hcopies. destruct Hcopies as [Hcur Hcs].
  exists cs, w'. split; [exact Hrun|]. split; [lia|]. split; assumption.
Qed.

(** The seeding allocates its centroids one after the other, and nothing
    else. *)
Lemma seedLoop_allocates b vectors count cents w :
  cents = seq b (length cents) -> length (heap w) = b + length cents ->
  wp (seedLoop random vectors count cents) w
     (fun cs w' => cs = seq b (length cs) /\ length (heap w') = b + length cs).
Proof.
  revert cents w. induction count as [|count IH]; intros cents w Hcs Hlen; simpl.
  - apply wp_ret. split; assumption.
  - apply wp_getHeap, wp_random, wp_bind.
    destruct (drawNext _ _) as [j|] eqn:Hd.
    + unfold drawNext in Hd. apply pick_bound in Hd.
      unfold distancesTo in Hd. rewrite length_map in Hd.
      destruct (lookup_lt_is_Some_2 vectors j) as [v Hv]; [lia|].
      rewrite Hv. apply wp_spread, wp_ret. apply IH; simpl.
      * rewrite length_app, seq_app, <- Hcs, Hlen. reflexivity.
      * rewrite !length_app. simpl. lia.
    + apply wp_ret. apply IH; assumption.
Qed.

Lemma initializeCentroids_allocates vectors k w :
  goodDraws random (length vectors) ->
  wp (initializeCentroids random vectors k) w
     (fun cs w' =>
        cs = seq (length (heap w)) (length cs) /\
        length (heap w') = length (heap w) + length cs).
Proof.
  intros Hg.
  destruct vectors as [|v0 vs] eqn:Hvs.
  { destruct (Hg 0) as (j & _ & Hj). simpl in Hj. lia. }
  rewrite <- Hvs in *. unfold initializeCentroids. rewrite Hvs at 1.
  simpl lengthOf. apply wp_bind, wp_load, wp_ret.
  apply wp_randomVector; [exact Hg|]. intros v _.
  apply wp_spread. apply seedLoop_allocates; simpl.
  - reflexivity.
  - rewrite length_app. reflexivity.
Qed.

(** X10: on valid input the seeding returns between 1 and [max 1 k]
    centroids, after exactly [max 1 k] calls of [Math.random()].  Each
    centroid is an array that the seeding allocated, a reference that did
    not exist before the call and differs from the other centroids, and it
    holds a copy of an input vector.  The seeding allocates nothing else and
    leaves the arrays that existed before as they were. *)
Theorem initializeCentroids_copies (vectors : list loc) (k : nat) (w : world) :
  unitDraws random ->
  1 <= length vectors ->
  (Z.of_nat (length vectors) <= maxSafeInteger)%Z ->
  Forall (fun v => v < length (heap w)) vectors ->
  exists cs w',
    initializeCentroids random vectors k w = Ok cs w' /\
    1 <= length cs <= max 1 k /\
    cursor w' = cursor w + max 1 k /\
    Forall (copyOfInput (heap w) vectors (heap w')) cs /\
    fresh (length (heap w)) (heap w') cs /\
    NoDup cs /\
    length (heap w') = length (heap w) + length cs /\
    frame (length (heap w)) (heap w) (heap w').
Proof.
  intros Hu Hn Hmax Hvalid.
  pose proof (unitDraws_good random _ Hu Hn Hmax) as Hg.
  destruct (initializeCentroids_seeds vectors k w Hg Hvalid)
    as (cs & w' & Hrun & Hlen & Hcur & Hcopies).
  pose proof (initializeCentroids_spec random vectors k w Hg) as Hspec.
  pose proof (initializeCentroids_allocates vectors k w Hg) as Halloc.
  unfold wp in Hspec, Halloc. rewrite Hrun in Hspec, Halloc.
  destruct Hspec as (_ & Hframe & Hfresh). destruct Halloc as (Hseq & Hheap).
  exists cs, w'. split; [exact Hrun|]. split; [exact Hlen|]. split; [exact Hcur|].
  split; [exact Hcopies|]. split; [exact Hfresh|].
  split; [rewrite Hseq; apply NoDup_seq|]. split; [exact Hheap|exact Hframe].
Qed.

End SeedCopies.

(** ** Seeding: a NaN weight *)






(** ** The sums of the centroid update *)

Lemma at_map_seq (g : nat -> num) n d : d < n -> at_ (map g (seq 0 n)) d = g d.
Proof.
  intros Hd. unfold at_. rewrite nth_lookup, list_lookup_fmap, lookup_seq_lt by exact Hd.
  reflexivity.
Qed.

Lemma addRow_length dim row v : length (addRow dim row v) = dim.
Proof. unfold addRow. rewrite length_map, length_seq. reflexivity. Qed.

(** The updates [row[d] = row[d] + v[d]] for [d = 0 .. j-1], one after the
    other. *)
Lemma fold_insert_prefix (row v : list num) j :
  j <= length row ->
  fold_left (fun r d => <[d := (at_ r d + at_ v d)%num]> r) (seq 0 j) row =
  addRow j row v ++ drop j row.
Proof.
  induction j as [|j IH]; intros Hj.
  - simpl. rewrite drop_0. reflexivity.
  - rewrite seq_S, fold_left_app, IH by lia. cbn [fold_left Nat.add].
    assert (Hl : length (addRow j row v) = j) by apply addRow_length.
    assert (Hat : at_ (addRow j row v ++ drop j row) j = at_ row j).
    { unfold at_. rewrite !nth_lookup, lookup_app_r by lia.
      rewrite Hl, Nat.sub_diag, lookup_drop, Nat.add_0_r. reflexivity. }
    rewrite Hat.
    rewrite insert_app_r_alt by lia. rewrite Hl, Nat.sub_diag.
    destruct (lookup_lt_is_Some_2 row j) as [x Hx]; [lia|].
    rewrite (drop_S _ _ _ Hx). cbn [insert list_insert].
    unfold addRow at 2. rewrite seq_S, map_app. cbn [map Nat.add].
    rewrite <- app_assoc. reflexivity.
Qed.

Lemma fold_insert_row (row v : list num) :
  fold_left (fun r d => <[d := (at_ r d + at_ v d)%num]> r) (seq 0 (length row)) row =
  addRow (length row) row v.
Proof. rewrite fold_insert_prefix by lia. rewrite drop_all, app_nil_r. reflexivity. Qed.

(** Adding the vectors [vs] into a row of zeros leaves the coordinate
    sums. *)
Lemma fold_addRow dim vs (g : nat -> num) :
  fold_left (addRow dim) vs (map g (seq 0 dim)) =
  map (fun d => fold_left (fun s v => (s + at_ v d)%num) vs (g d)) (seq 0 dim).
Proof.
  revert g. induction vs as [|v vs IH]; intros g; simpl; [reflexivity|].
  rewrite <- IH. f_equal. unfold addRow. apply map_ext_in.
  intros d Hd%in_seq. rewrite at_map_seq by lia. reflexivity.
Qed.

Lemma fold_addRow_zero dim vs :
  fold_left (addRow dim) vs (replicate dim zero) = map (coordinateSum vs) (seq 0 dim).
Proof.
  assert (H : forall s, map (fun _ : nat => zero) (seq s dim) = replicate dim zero).
  { induction dim as [|n IH]; intros s; simpl; [reflexivity|]. rewrite IH. reflexivity. }
  rewrite <- (H 0). apply fold_addRow.
Qed.

Lemma deref_insert_eq (h : list (list num)) s r : s < length h -> deref (<[s := r]> h) s = r.
Proof. intros Hs. unfold deref. rewrite list_lookup_insert_eq by exact Hs. reflexivity. Qed.

Lemma deref_insert_ne (h : list (list num)) s l r :
  s <> l -> deref (<[s := r]> h) l = deref h l.
Proof. intros Hs. unfold deref. rewrite list_lookup_insert_ne by exact Hs. reflexivity. Qed.

(** The loop over [d] that adds the vector at [v] into the row at [s]. *)
Lemma forEach_addInto_row s v ds w :
  s <> v -> s < length (heap w) ->
  wp (forEach ds (addInto (Some s) v)) w
     (fun _ w' =>
        heap w' =
        <[s := fold_left (fun r d => <[d := (at_ r d + at_ (deref (heap w) v) d)%num]> r)
                         ds (deref (heap w) s)]> (heap w) /\
        cursor w' = cursor w).
Proof.
  intros Hsv. revert w. induction ds as [|d ds IH]; intros w Hs; simpl.
  - apply wp_ret. split; [|reflexivity].
    unfold deref. destruct (lookup_lt_is_Some_2 (heap w) s Hs) as [r Hr].
    rewrite Hr. simpl. symmetry. apply list_insert_id. exact Hr.
  - apply wp_addInto. eapply wp_mono.
    + apply IH. simpl. rewrite length_insert. exact Hs.
    + simpl. intros _ w' [Hh Hc]. split; [|exact Hc].
      rewrite Hh, deref_insert_eq, deref_insert_ne, list_insert_insert_eq by assumption.
      reflexivity.
Qed.

Lemma clusterVectors_cons h v rest c0 assignments c :
  clusterVectors h (v :: rest) (c0 :: assignments) c =
  if decide (c0 = c) then deref h v :: clusterVectors h rest assignments c
  else clusterVectors h rest assignments c.
Proof.
  unfold clusterVectors. simpl. rewrite filter_cons. simpl.
  destruct (decide (c0 = c)); reflexivity.
Qed.

(** The first loop of [recalculateCentroids], from vector [i] on: into the
    row of every cluster it adds the vectors assigned to the cluster, in
    order, and it counts them. *)
Lemma accumulate_sums h0 b k vectors i assignments dim counts w :
  b + k <= length (heap w) ->
  Forall (fun v => v < b) vectors ->
  (forall v, v < b -> deref (heap w) v = deref h0 v) ->
  (forall c, c < k -> length (deref (heap w) (b + c)) = dim) ->
  length counts = k ->
  (forall j, i <= j < i + length vectors ->
             exists c, assignments !! j = Some c /\ c < k) ->
  wp (accumulate vectors i assignments dim (seq b k) counts) w
     (fun counts' w' =>
        length (heap w') = length (heap w) /\
        cursor w' = cursor w /\
        length counts' = length counts /\
        (forall l, l < b -> heap w' !! l = heap w !! l) /\
        forall c, c < k ->
          deref (heap w') (b + c) =
          fold_left (addRow dim) (clusterVectors h0 vectors (drop i assignments) c)
                    (deref (heap w) (b + c)) /\
          counts' !! c =
          (fun n => n + length (clusterVectors h0 vectors (drop i assignments) c))
            <$> counts !! c).
Proof.
  revert i counts w.
  induction vectors as [|v rest IH]; intros i counts w Hb Hvs Hin Hrows Hcounts Hasg.
  - simpl. apply wp_ret. repeat split; auto.
    destruct (counts !! c); simpl; [f_equal; unfold clusterVectors; simpl; lia|reflexivity].
  - cbn [accumulate].
    destruct (Hasg i) as (c0 & Hc0 & Hlt); [simpl; lia|].
    rewrite Hc0. cbn [mbind option_bind].
    rewrite (lookup_seq_lt b k c0 Hlt).
    apply Forall_cons in Hvs as [Hv Hrest].
    apply wp_bind. eapply wp_mono.
    { apply forEach_addInto_row; lia. }
    cbv beta. intros _ w1 [Hh1 Hcur1].
    rewrite <- (Hrows c0 Hlt) in Hh1 at 1. rewrite fold_insert_row in Hh1.
    rewrite (Hrows c0 Hlt), (Hin v Hv) in Hh1.
    assert (Hlen1 : length (heap w1) = length (heap w)).
    { rewrite Hh1. apply length_insert. }
    eapply wp_mono.
    { apply (IH (S i) (alter S c0 counts) w1).
      - lia.
      - exact Hrest.
      - intros v' Hv'. rewrite Hh1, deref_insert_ne by lia. apply Hin. exact Hv'.
      - intros c Hc. rewrite Hh1. destruct (decide (c = c0)) as [->|Hne].
        + rewrite deref_insert_eq by lia. apply addRow_length.
        + rewrite deref_insert_ne by lia. apply Hrows. exact Hc.
      - rewrite length_alter. exact Hcounts.
      - intros j Hj. apply Hasg. simpl. lia. }
    cbv beta. intros counts' w' (Hlen & Hcur & Hcl & Hlow & Hc).
    split; [lia|]. split; [congruence|].
    split; [rewrite Hcl; apply length_alter|]. split.
    { intros l Hl. rewrite Hlow by exact Hl. rewrite Hh1.
      apply list_lookup_insert_ne. lia. }
    intros c Hck. destruct (Hc c Hck) as [Hrow Hcnt].
    rewrite (drop_S _ _ _ Hc0), clusterVectors_cons.
    rewrite Hrow, Hcnt, Hh1. destruct (decide (c0 = c)) as [->|Hne].
    + rewrite deref_insert_eq by lia. rewrite list_lookup_alter_eq.
      split; [reflexivity|].
      destruct (counts !! c); simpl; [f_equal; lia|reflexivity].
    + rewrite deref_insert_ne by lia. rewrite list_lookup_alter_ne by exact Hne.
      split; reflexivity.
Qed.

Lemma filter_iff_in {A} (P1 P2 : A -> Prop) `{!forall x, Decision (P1 x)}
      `{!forall x, Decision (P2 x)} (l : list A) :
  (forall x, x ∈ l -> P1 x <-> P2 x) -> filter P1 l = filter P2 l.
Proof.
  induction l as [|x l IH]; intros Hiff; [reflexivity|].
  rewrite !filter_cons, IH by (intros y Hy; apply Hiff; right; exact Hy).
  pose proof (Hiff x ltac:(left)) as Hx.
  destruct (decide (P1 x)), (decide (P2 x)); try reflexivity; tauto.
Qed.

Lemma drawn_elem random vectors c v : drawn random vectors c = Some v -> v ∈ vectors.
Proof.
  unfold drawn. destruct (floorIndex _) as [j|]; [|discriminate]. simpl.
  apply list_elem_of_lookup_2.
Qed.

Section CentroidMeans.

Variable random : nat -> num.

(** One round of the second loop of [recalculateCentroids]: it allocates
    one array, the sums of the cluster divided by its count, or after one
    draw a copy of an input vector when the count is 0. *)
Lemma centroidOf_run vectors b k counts i w :
  goodDraws random (length vectors) ->
  length counts = k -> i < k ->
  exists a z,
    centroidOf random vectors (seq b k) counts i w
    = Ok (length (heap w)) {| heap := heap w ++ [a]; cursor := cursor w + z |} /\
    ((counts !! i = Some 0 /\ z = 1 /\
      exists v, drawn random vectors (cursor w) = Some v /\ a = deref (heap w) v) \/
     (exists n, counts !! i = Some (S n) /\ z = 0 /\
                a = map (fun s => (s / ofNat (S n))%num) (deref (heap w) (b + i)))).
Proof.
  intros Hg Hlen Hi. unfold centroidOf.
  destruct (lookup_lt_is_Some_2 counts i) as [[|n] Hc]; [lia| |]; rewrite Hc.
  - destruct (Hg (cursor w)) as (j & Hj & Hjn).
    destruct (lookup_lt_is_Some_2 vectors j Hjn) as [v Hv].
    exists (deref (heap w) v), 1.
    unfold randomVector, bind, Math_random, ret. rewrite Hj. simpl. rewrite Hv.
    unfold spread, bind, load, alloc. simpl.
    replace (cursor w + 1) with (S (cursor w)) by lia.
    split; [reflexivity|]. left. split; [reflexivity|]. split; [reflexivity|].
    exists v. split; [unfold drawn; rewrite Hj; exact Hv|reflexivity].
  - rewrite (lookup_seq_lt b k i Hi). simpl loadOpt.
    eexists _, 0. unfold bind, load, alloc. rewrite Nat.add_0_r.
    split; [reflexivity|]. right. exists n. repeat split.
Qed.

Lemma mapM_centroidOf vectors b k counts i0 cnt w :
  goodDraws random (length vectors) ->
  Forall (fun v => v < b) vectors ->
  length counts = k -> i0 + cnt <= k -> b + k <= length (heap w) ->
  exists ext,
    mapM (centroidOf random vectors (seq b k) counts) (seq i0 cnt) w
    = Ok (seq (length (heap w)) cnt)
         {| heap := heap w ++ ext;
            cursor := cursor w
                      + length (filter (fun i => counts !! i = Some 0) (seq i0 cnt)) |} /\
    length ext = cnt /\
    (forall i n, i < cnt -> counts !! (i0 + i) = Some (S n) ->
       ext !! i = Some (map (fun s => (s / ofNat (S n))%num)
                            (deref (heap w) (b + (i0 + i))))) /\
    (forall i, i < cnt -> counts !! (i0 + i) = Some 0 ->
       exists v,
         drawn random vectors
               (cursor w + length (filter (fun i => counts !! i = Some 0) (seq i0 i)))
         = Some v /\
         ext !! i = Some (deref (heap w) v)).
Proof.
  intros Hg Hvs Hlen. revert i0 w. induction cnt as [|cnt IH]; intros i0 w Hi Hb.
  - exists []. simpl. unfold ret. rewrite app_nil_r, Nat.add_0_r.
    split; [destruct w; reflexivity|]. split; [reflexivity|].
    split; [intros i n Hlt; lia|intros i Hlt; lia].
  - destruct (centroidOf_run vectors b k counts i0 w Hg Hlen) as (a & z & Hrun & Hcase); [lia|].
    set (w1 := {| heap := heap w ++ [a]; cursor := cursor w + z |}) in *.
    destruct (IH (S i0) w1) as (ext & Hrest & Hext & Hmeans & Hcopies).
    { lia. }
    { subst w1. simpl. rewrite length_app. lia. }
    assert (Hold : forall l, l < length (heap w) -> deref (heap w1) l = deref (heap w) l).
    { intros l Hl. subst w1. unfold deref. cbn [heap]. rewrite lookup_app_l by lia.
      reflexivity. }
    exists (a :: ext). cbn [seq mapM]. unfold bind at 1. rewrite Hrun.
    unfold bind at 1. rewrite Hrest. unfold ret. subst w1. cbn [heap cursor] in *.
    rewrite length_app, <- app_assoc. cbn [length app Nat.add].
    replace (length (heap w) + 1) with (S (length (heap w))) by lia.
    split; [|split; [simpl; lia|split]].
    + f_equal. f_equal. rewrite filter_cons.
      destruct Hcase as [(Hc & -> & _)|(n & Hc & -> & _)].
      * rewrite decide_True by exact Hc. simpl. lia.
      * rewrite decide_False by (rewrite Hc; discriminate). lia.
    + intros [|i] n Hlt Hc.
      * rewrite Nat.add_0_r in Hc.
        destruct Hcase as [(Hc' & _)|(n' & Hc' & _ & ->)]; [congruence|].
        assert (n' = n) as -> by congruence.
        rewrite Nat.add_0_r. reflexivity.
      * simpl. rewrite (Hmeans i n); [| lia | rewrite <- Hc; f_equal; lia].
        f_equal. f_equal.
        replace (b + (S i0 + i)) with (b + (i0 + S i)) by lia.
        apply Hold. lia.
    + intros [|i] Hlt Hc.
      * rewrite Nat.add_0_r in Hc.
        destruct Hcase as [(_ & _ & v & Hv & ->)|(n' & Hc' & _)]; [|congruence].
        exists v. split; [|reflexivity]. cbn [seq filter list_filter length].
        rewrite Nat.add_0_r. exact Hv.
      * destruct (Hcopies i) as (v & Hv & Hext'); [lia|rewrite <- Hc; f_equal; lia|].
        exists v. split.
        -- rewrite <- Hv. f_equal. cbn [seq]. rewrite filter_cons.
           destruct Hcase as [(Hc0 & -> & _)|(n' & Hc0 & -> & _)].
           ++ rewrite decide_True by exact Hc0. simpl. lia.
           ++ rewrite decide_False by (rewrite Hc0; discriminate). lia.
        -- simpl. rewrite Hext'. f_equal. apply Hold.
           rewrite Forall_forall in Hvs. specialize (Hvs v (drawn_elem _ _ _ _ Hv)). lia.
Qed.

(** A run of [recalculateCentroids] on the assignment of a pass. *)
Lemma recalculateCentroids_run vectors assignments k dim w :
  goodDraws random (length vectors) ->
  length assignments = length vectors ->
  Forall (fun c => c < k) assignments ->
  Forall (fun v => v < length (heap w)) vectors ->
  exists cs w',
    recalculateCentroids random vectors assignments k dim w = Ok cs w' /\
    cursor w' = cursor w
                + length (filter (fun c => length (clusterVectors (heap w) vectors
                                                                  assignments c) = 0)
                                 (seq 0 k)) /\
    (forall c, c < k -> clusterVectors (heap w) vectors assignments c <> [] ->
       exists l, cs !! c = Some l /\
                 heap w' !! l
                 = Some (mean (clusterVectors (heap w) vectors assignments c) dim)) /\
    (forall c, c < k -> clusterVectors (heap w) vectors assignments c = [] ->
       exists l v,
         cs !! c = Some l /\
         drawn random vectors
               (cursor w
                + length (filter (fun c' => length (clusterVectors (heap w) vectors
                                                                    assignments c') = 0)
                                 (seq 0 c)))
         = Some v /\
         heap w' !! l = Some (deref (heap w) v)).
Proof.
  intros Hg Hlen Hk Hvalid. unfold recalculateCentroids.
  unfold bind at 1. rewrite newSums_run.
  set (b := length (heap w)).
  set (w1 := {| heap := heap w ++ replicate k (replicate dim zero); cursor := cursor w |}).
  pose proof (accumulate_sums (heap w) b k vectors 0 assignments dim (replicate k 0) w1)
    as Hacc.
  apply wp_ok in Hacc.
  - destruct Hacc as (counts & w2 & Hrun2 & Hlen2 & Hcur2 & Hcl & Hlow & Hrows).
    rewrite length_replicate in Hcl.
    unfold bind at 1. rewrite Hrun2.
    assert (Hb2 : b + k <= length (heap w2)).
    { rewrite Hlen2. subst w1. simpl. rewrite length_app, length_replicate. lia. }
    destruct (mapM_centroidOf vectors b k counts 0 k w2 Hg Hvalid Hcl)
      as (ext & Hrun3 & Hext & Hmeans & Hcopies); [lia|exact Hb2|].
    rewrite Hrun3. eexists _, _. split; [reflexivity|]. cbn [heap cursor].
    assert (Hcount : forall c, c < k ->
              counts !! c = Some (length (clusterVectors (heap w) vectors assignments c))).
    { intros c Hc. destruct (Hrows c Hc) as [_ ->].
      rewrite lookup_replicate_2 by exact Hc. rewrite drop_0. reflexivity. }
    split; [|split].
    + rewrite Hcur2. subst w1. cbn [cursor]. f_equal. f_equal.
      apply filter_iff_in. intros c Hc%elem_of_seq.
      rewrite Hcount by lia. split; congruence.
    + intros c Hc Hne. exists (length (heap w2) + c).
      split; [apply lookup_seq_lt; exact Hc|].
      rewrite lookup_app_r by lia.
      replace (length (heap w2) + c - length (heap w2)) with c by lia.
      destruct (clusterVectors (heap w) vectors assignments c) as [|x vs] eqn:Hvs;
        [congruence|].
      rewrite (Hmeans c (length vs));
        [|exact Hc|cbn [Nat.add]; rewrite Hcount, Hvs by exact Hc; reflexivity].
      cbn [Nat.add].
      f_equal. destruct (Hrows c Hc) as [-> _].
      rewrite drop_0, Hvs. subst w1. cbn [heap]. unfold deref at 1.
      rewrite lookup_app_r by lia. replace (b + c - length (heap w)) with c by lia.
      rewrite lookup_replicate_2 by exact Hc. cbn [default].
      rewrite fold_addRow_zero. unfold mean. rewrite map_map. reflexivity.
    + intros c Hc Hnil. destruct (Hcopies c Hc) as (v & Hv & Hextc).
      { cbn [Nat.add]. rewrite Hcount, Hnil by exact Hc. reflexivity. }
      assert (Hvlt : v < length (heap w)).
      { rewrite Forall_forall in Hvalid. apply Hvalid. eapply drawn_elem. exact Hv. }
      exists (length (heap w2) + c), v.
      split; [apply lookup_seq_lt; exact Hc|]. split.
      { rewrite <- Hv. f_equal. rewrite Hcur2. subst w1. cbn [cursor Nat.add]. f_equal. f_equal.
        apply filter_iff_in. intros c' Hc'%elem_of_seq.
        rewrite Hcount by lia. split; congruence. }
      rewrite lookup_app_r by lia.
      replace (length (heap w2) + c - length (heap w2)) with c by lia.
      rewrite Hextc. f_equal. unfold deref. rewrite Hlow by exact Hvlt.
      subst w1. cbn [heap]. rewrite lookup_app_l; [reflexivity|exact Hvlt].
  - subst w1. simpl. rewrite length_app, length_replicate. lia.
  - exact Hvalid.
  - intros v Hv. subst w1. simpl. unfold deref. rewrite lookup_app_l by exact Hv. reflexivity.
  - intros c Hc. subst w1. simpl. unfold deref.
    rewrite lookup_app_r by lia. replace (b + c - length (heap w)) with c by lia.
    rewrite lookup_replicate_2 by exact Hc. simpl. apply length_replicate.
  - apply length_replicate.
  - intros j Hj. destruct (lookup_lt_is_Some_2 assignments j) as [c Hc]; [lia|].
    exists c. split; [exact Hc|]. rewrite Forall_forall in Hk. apply Hk.
    eapply list_elem_of_lookup_2. exact Hc.
Qed.


(** X12: the centroid of a cluster with members is the mean of its members:
    each coordinate below [dim] is the sum of the members' coordinates,
    taken in the order of their indices, divided by their number. *)
Theorem recalculateCentroids_means (vectors : list loc) (assignments : list nat)
        (k dim : nat) (w : world) :
  unitDraws random ->
  1 <= length vectors ->
  (Z.of_nat (length vectors) <= maxSafeInteger)%Z ->
  length assignments = length vectors ->
  Forall (fun c => c < k) assignments ->
  Forall (fun v => v < length (heap w)) vectors ->
  exists cs w',
    recalculateCentroids random vectors assignments k dim w = Ok cs w' /\
    forall c, c < k -> clusterVectors (heap w) vectors assignments c <> [] ->
      exists l, cs !! c = Some l /\
                heap w' !! l = Some (mean (clusterVectors (heap w) vectors assignments c) dim).
Proof.
  intros Hu Hn Hmax Hlen Hk Hvalid.
  destruct (recalculateCentroids_run vectors assignments k dim w)
    as (cs & w' & Hrun & _ & Hmeans & _); try assumption.
  - apply unitDraws_good; assumption.
  - exists cs, w'. split; assumption.
Qed.

(** X13: the centroid update calls [Math.random()] once for every cluster
    without members, and not at all when every cluster has one. *)
Theorem recalculateCentroids_draws (vectors : list loc) (assignments : list nat)
        (k dim : nat) (w : world) :
  unitDraws random ->
  1 <= length vectors ->
  (Z.of_nat (length vectors) <= maxSafeInteger)%Z ->
  length assignments = length vectors ->
  Forall (fun c => c < k) assignments ->
  Forall (fun v => v < length (heap w)) vectors ->
  exists cs w',
    recalculateCentroids random vectors assignments k dim w = Ok cs w' /\
    cursor w' = cursor w
                + length (filter (fun c => length (clusterVectors (heap w) vectors
                                                                  assignments c) = 0)
                                 (seq 0 k)).
Proof.
  intros Hu Hn Hmax Hlen Hk Hvalid.
  destruct (recalculateCentroids_run vectors assignments k dim w)
    as (cs & w' & Hrun & Hcur & _); try assumption.
  - apply unitDraws_good; assumption.
  - exists cs, w'. split; assumption.
Qed.

End CentroidMeans.

(** ** The number of centroids *)

Lemma clusterVectors_nil h vectors assignments c :
  length assignments = length vectors ->
  clusterVectors h vectors assignments c = [] <-> c ∉ assignments.
Proof.
  revert assignments. induction vectors as [|v rest IH]; intros [|c0 asg] Hlen;
    try discriminate.
  - split; [intros _ H; inversion H|reflexivity].
  - rewrite clusterVectors_cons, not_elem_of_cons.
    injection Hlen as Hlen. specialize (IH asg Hlen).
    destruct (decide (c0 = c)) as [->|Hne].
    + split; [discriminate|intros [H _]; congruence].
    + rewrite IH. split; [intros H; split; [congruence|exact H]|intros [_ H]; exact H].
Qed.

Lemma emptyBelow_clusterVectors h vectors assignments i :
  length assignments = length vectors ->
  length (filter (fun c => length (clusterVectors h vectors assignments c) = 0) (seq 0 i))
  = emptyBelow assignments i.
Proof.
  intros Hlen. unfold emptyBelow. f_equal. apply filter_iff_in. intros c _.
  rewrite <- (clusterVectors_nil h vectors assignments c Hlen).
  apply length_zero_iff_nil.
Qed.

Section CentroidCount.

Variable random : nat -> num.

(** The update on the assignment of a pass: [k] arrays allocated by the
    update, the one of a cluster without members a copy of the vector
    drawn for it. *)
Lemma recalculateCentroids_replaces vectors assignments k dim w :
  goodDraws random (length vectors) ->
  length assignments = length vectors ->
  Forall (fun c => c < k) assignments ->
  Forall (fun v => v < length (heap w)) vectors ->
  exists cents w',
    recalculateCentroids random vectors assignments k dim w = Ok cents w' /\
    length cents = k /\
    fresh (length (heap w)) (heap w') cents /\
    forall i, i < k -> i ∉ assignments ->
      exists c v, cents !! i = Some c /\
                  drawn random vectors (cursor w + emptyBelow assignments i) = Some v /\
                  heap w' !! c = Some (deref (heap w) v).
Proof.
  intros Hg Hlen Hk Hvalid.
  pose proof (recalculateCentroids_spec random vectors assignments k dim w Hg Hlen Hk) as Hspec.
  destruct (recalculateCentroids_run random vectors assignments k dim w Hg Hlen Hk Hvalid)
    as (cents & w' & Hrun & _ & _ & Hempty).
  unfold wp in Hspec. rewrite Hrun in Hspec. destruct Hspec as (Hcount & _ & Hfresh & _).
  exists cents, w'. split; [exact Hrun|]. split; [exact Hcount|]. split; [exact Hfresh|].
  intros i Hi Hnot.
  destruct (Hempty i Hi) as (c & v & Hc & Hd & Hh).
  { apply clusterVectors_nil; assumption. }
  rewrite emptyBelow_clusterVectors in Hd by exact Hlen.
  exists c, v. split; [exact Hc|]. split; [exact Hd|exact Hh].
Qed.

(** The loop returns [k] centroids unless it stops at its first pass or
    makes none: then it returns the centroids it was entered with. *)
Lemma iterate_count vectors k dim tolerance passes iter st w :
  goodDraws random (length vectors) ->
  1 <= k -> length (centroids st) <= k ->
  wp (iterate random vectors k dim tolerance passes iter st) w
     (fun st' _ =>
        length (centroids st') = k \/
        (centroids st' = centroids st /\ iterations st' <= max (iterations st) (iter + 1))).
Proof.
  intros Hg Hk. revert iter st w.
  induction passes as [|passes IH]; intros iter st w Hlen; simpl.
  - apply wp_ret. right. split; [reflexivity|lia].
  - apply wp_bind. eapply wp_mono; [apply iteration_spec; assumption|].
    simpl. intros [ctl st1] w1 (Hit & _ & _ & Hcase). simpl in *.
    destruct (converged _ _ _).
    + destruct Hcase as (-> & _ & Hc). apply wp_ret. right. split; [exact Hc|lia].
    + destruct Hcase as (-> & Hc & _).
      eapply wp_mono; [apply (IH (S iter) st1 w1); lia|].
      simpl. intros st' _ [Hk'|[Heq _]]; left; [exact Hk'|]. rewrite Heq. exact Hc.
Qed.

(** C4, as amended: a pass of the driver whose convergence test fails
    recomputes the centroids and ends with exactly [k] of them, whatever
    number up to [k] it was entered with; a pass whose test holds keeps
    the centroids it was entered with.  On the assignment of a pass (one
    cluster index below [k] per vector) the centroid update returns
    exactly [k] centroids, all arrays that it allocated, and the centroid
    of a cluster that received no vector holds a copy of the input vector
    at index [floor(Math.random() * n)], for the call of [Math.random()]
    made for that cluster: the calls are made in the order of the
    clusters, one for each cluster without vectors.  A run returns exactly
    [k] centroids unless it made at most one pass and returns its seeds,
    of which there can be fewer than [k]. *)
Theorem recalculateCentroids_exactly_k vectors assignment k dim w :
  unitDraws random ->
  1 <= length vectors -> (Z.of_nat (length vectors) <= maxSafeInteger)%Z ->
  length assignment = length vectors ->
  Forall (fun c => c < k) assignment ->
  Forall (fun v => v < length (heap w)) vectors ->
  (exists cents w',
     recalculateCentroids random vectors assignment k dim w = Ok cents w' /\
     length cents = k /\
     Forall (fun c => length (heap w) <= c < length (heap w')) cents /\
     forall i, i < k -> i ∉ assignment ->
       exists c v, cents !! i = Some c /\
                   drawn random vectors (cursor w + emptyBelow assignment i) = Some v /\
                   heap w' !! c = Some (deref (heap w) v)) /\
  (forall tolerance iter st w0,
     1 <= k -> length (centroids st) <= k ->
     let newAssignments := assignAll (heap w0) vectors (centroids st) in
     if converged (countChanged newAssignments (assignments st) (length vectors))
                  (length vectors) tolerance
     then iteration random vectors k dim tolerance iter st w0
          = Ok (Break, {| centroids := centroids st;
                          assignments := newAssignments;
                          iterations := iter + 1 |}) w0
     else exists cents w0',
            recalculateCentroids random vectors newAssignments k dim w0 = Ok cents w0' /\
            length cents = k /\
            iteration random vectors k dim tolerance iter st w0
            = Ok (Continue, {| centroids := cents;
                               assignments := newAssignments;
                               iterations := iter + 1 |}) w0') /\
  (forall options w0,
     KMeansOptions.k options = k -> 1 <= k <= length vectors ->
     exists seeds w1 res w0',
       initializeCentroids random vectors k w0 = Ok seeds w1 /\
       kMeansClustering random vectors options w0 = Ok res w0' /\
       1 <= length seeds <= k /\
       (length (centroids res) = k \/ (centroids res = seeds /\ iterations res <= 1))).
Proof.
  intros Hu Hn Hmax Hlen Hk Hv.
  pose proof (unitDraws_good random _ Hu Hn Hmax) as Hg.
  split; [|split].
  - apply recalculateCentroids_replaces; assumption.
  - intros tolerance iter st w0 Hk1 Hcs newAssignments.
    unfold iteration, bind, getHeap. fold newAssignments.
    destruct (converged _ _ _); [reflexivity|].
    pose proof (recalculateCentroids_spec random vectors newAssignments k dim w0 Hg) as H.
    apply wp_ok in H.
    + destruct H as (cents & w0' & Hrun & Hcount & _).
      exists cents, w0'. split; [exact Hrun|]. split; [exact Hcount|].
      rewrite Hrun. reflexivity.
    + apply assignAll_length.
    + apply assignAll_bound; assumption.
  - intros options w0 Hopt Hkn.
    pose proof (initializeCentroids_spec random vectors k w0 Hg) as Hinit.
    apply wp_ok in Hinit. destruct Hinit as (seeds & w1 & Hinit & Hseeds & _).
    destruct (lookup_lt_is_Some_2 vectors 0) as [v0 Hv0]; [lia|].
    pose proof (iterate_count vectors k (length (deref (heap w0) v0))
                  (default defaultTolerance (KMeansOptions.tolerance options))
                  (default defaultMaxIterations (KMeansOptions.maxIterations options)) 0
                  {| centroids := seeds; assignments := replicate (length vectors) 0;
                     iterations := 0 |} w1 Hg) as Hloop.
    apply wp_ok in Hloop; [|lia|simpl; lia].
    destruct Hloop as (res & w0' & Hrun & Hres).
    exists seeds, w1, res, w0'. split; [exact Hinit|]. split; [|split; [lia|]].
    + rewrite (kMeansClustering_nonempty _ _ _ _ _ Hv0). cbv zeta. rewrite Hopt.
      destruct (length vectors <? k) eqn:Hlt; [apply Nat.ltb_lt in Hlt; lia|].
      rewrite Hinit. exact Hrun.
    + simpl in Hres. destruct Hres as [Hres|[Hres Hit]]; [left; exact Hres|].
      right. split; [exact Hres|lia].
Qed.

End CentroidCount.

Lemma recalculateCentroids_exactly_k_witness :
  exists cents w' c,
    recalculateCentroids halves [0; 1; 2; 3; 4; 5] [0; 0; 0; 0; 0; 0] 2 2 sixWorld
    = Ok cents w' /\
    length cents = 2 /\
    cents !! 1 = Some c /\ 6 <= c /\
    heap w' !! c = Some [ofZ 10; ofZ 10].
Proof.
  destruct (recalculateCentroids_exactly_k halves [0; 1; 2; 3; 4; 5]
              [0; 0; 0; 0; 0; 0] 2 2 sixWorld)
    as ((cents & w' & Hrun & Hlen & Hfresh & Hempty) & _).
  - exact unitDraws_halves.
  - simpl. lia.
  - vm_compute. discriminate.
  - reflexivity.
  - repeat constructor.
  - repeat constructor.
  - destruct (Hempty 1) as (c & v & Hc & Hd & Hh).
    + lia.
    + rewrite !not_elem_of_cons. repeat split; try lia. apply not_elem_of_nil.
    + vm_compute in Hd. injection Hd as <-.
      exists cents, w', c. split; [exact Hrun|]. split; [exact Hlen|].
      split; [exact Hc|]. split; [|exact Hh].
      rewrite Forall_forall in Hfresh.
      apply (Hfresh c). eapply list_elem_of_lookup_2. exact Hc.
Defined.

(** C4 as stated fails: the seeding of two vectors so far apart that their
    squared distance overflows returns one centroid for [k = 2] (the
    weights are Infinity and 0, the threshold Infinity - Infinity = NaN
    selects nothing), and the first pass of the driver, which converges,
    ends with that one centroid: the run returns it. *)
Lemma iteration_ends_with_fewer_than_k :
  exists seeds w1,
    initializeCentroids halves [0; 1] 2 farWorld = Ok seeds w1 /\
    length seeds = 1 /\
    iteration halves [0; 1] 2 1 defaultTolerance 0
              {| centroids := seeds; assignments := [0; 0]; iterations := 0 |} w1
    = Ok (Break, {| centroids := seeds; assignments := [0; 0]; iterations := 1 |}) w1 /\
    kMeansClustering halves [0; 1] (onlyK 2) farWorld
    = Ok {| centroids := seeds; assignments := [0; 0]; iterations := 1 |} w1.
Proof.
  exists [2], {| heap := [[ofZ 0]; [scaled 1 600]; [scaled 1 600]]; cursor := 2 |}.
  vm_compute. repeat split.
Qed.

(** ** The dimension of the centroids *)

Lemma uniform_frame b h h' dim ls :
  frame b h h' -> Forall (fun l => l < b) ls -> uniform h dim ls -> uniform h' dim ls.
Proof.
  intros [_ Hf] Hb Hu. unfold uniform in *. rewrite Forall_forall in *.
  intros l Hl. rewrite Hf by (apply Hb; exact Hl). apply Hu. exact Hl.
Qed.

Lemma uniform_lt h dim ls : uniform h dim ls -> Forall (fun l => l < length h) ls.
Proof.
  intros Hu. eapply Forall_impl; [exact Hu|]. simpl. intros l Hl.
  destruct (h !! l) eqn:E; [|discriminate]. eapply lookup_lt_Some. exact E.
Qed.

Lemma uniform_deref h dim ls v : uniform h dim ls -> v ∈ ls -> length (deref h v) = dim.
Proof.
  intros Hu Hv. unfold uniform in Hu. rewrite Forall_forall in Hu.
  specialize (Hu v Hv). unfold deref. destruct (h !! v); [|discriminate].
  simpl in *. congruence.
Qed.

Section Dimension.

Variable random : nat -> num.

Lemma recalculateCentroids_dimension vectors assignments k dim w :
  goodDraws random (length vectors) ->
  length assignments = length vectors ->
  Forall (fun c => c < k) assignments ->
  uniform (heap w) dim vectors ->
  wp (recalculateCentroids random vectors assignments k dim) w
     (fun cs w' =>
        length cs = k /\
        frame (length (heap w)) (heap w) (heap w') /\
        uniform (heap w') dim cs).
Proof.
  intros Hg Hlen Hk Hu.
  pose proof (recalculateCentroids_spec random vectors assignments k dim w Hg Hlen Hk) as Hspec.
  destruct (recalculateCentroids_run random vectors assignments k dim w Hg Hlen Hk)
    as (cs & w' & Hrun & _ & Hmeans & Hcopies); [eapply uniform_lt; exact Hu|].
  unfold wp in *. rewrite Hrun in *. destruct Hspec as (Hcs & Hf & _).
  split; [exact Hcs|]. split; [exact Hf|].
  apply Forall_forall. intros l Hl. apply list_elem_of_lookup in Hl as [c Hc].
  assert (Hck : c < k) by (apply lookup_lt_Some in Hc; lia).
  destruct (clusterVectors (heap w) vectors assignments c) as [|x vs] eqn:Hvs.
  - destruct (Hcopies c Hck Hvs) as (l' & v & Hl' & Hv & Hh).
    apply drawn_elem in Hv.
    assert (l' = l) as -> by congruence. rewrite Hh. simpl. f_equal.
    eapply uniform_deref; eassumption.
  - destruct (Hmeans c Hck) as (l' & Hl' & Hh); [rewrite Hvs; discriminate|].
    assert (l' = l) as -> by congruence. rewrite Hh. simpl. f_equal.
    unfold mean. rewrite length_map, length_seq. reflexivity.
Qed.

Lemma iterate_dimension vectors k dim tolerance passes iter st w :
  goodDraws random (length vectors) ->
  1 <= length (centroids st) <= k ->
  uniform (heap w) dim vectors ->
  uniform (heap w) dim (centroids st) ->
  wp (iterate random vectors k dim tolerance passes iter st) w
     (fun st' w' => uniform (heap w') dim (centroids st')).
Proof.
  intros Hg. revert iter st w.
  induction passes as [|passes IH]; intros iter st w Hlen Hvs Hcs; simpl.
  - apply wp_ret. exact Hcs.
  - apply wp_bind. unfold iteration. apply wp_getHeap.
    destruct (converged _ _ _).
    + apply wp_ret, wp_ret. exact Hcs.
    + apply wp_bind. eapply wp_mono.
      * apply recalculateCentroids_dimension; [exact Hg|apply assignAll_length| |exact Hvs].
        apply assignAll_bound; lia.
      * cbv beta. intros cs w1 (Hk & Hf & Hu). apply wp_ret.
        apply IH; cbn [centroids]; [lia| |exact Hu].
        eapply uniform_frame; [exact Hf| |exact Hvs]. eapply uniform_lt. exact Hvs.
Qed.

(** X14: when all the input vectors have [dim] coordinates, so does every
    centroid returned. *)
Theorem kMeansClustering_dimension (vectors : list loc) (options : KMeansOptions.t)
        (w : world) (dim : nat) :
  unitDraws random ->
  (Z.of_nat (length vectors) <= maxSafeInteger)%Z ->
  1 <= KMeansOptions.k options <= length vectors ->
  uniform (heap w) dim vectors ->
  exists res w',
    kMeansClustering random vectors options w = Ok res w' /\
    uniform (heap w') dim (centroids res).
Proof.
  intros Hu Hmax Hk Hvs.
  assert (Hg : goodDraws random (length vectors))
    by (apply unitDraws_good; [assumption|lia|assumption]).
  destruct (lookup_lt_is_Some_2 vectors 0) as [v0 Hv0]; [lia|].
  rewrite (kMeansClustering_nonempty random vectors options w v0 Hv0). cbv zeta.
  destruct (length vectors <? KMeansOptions.k options) eqn:Hlt;
    [apply Nat.ltb_lt in Hlt; lia|].
  pose proof (initializeCentroids_spec random vectors (KMeansOptions.k options) w Hg) as Hinit.
  destruct (initializeCentroids_seeds random vectors (KMeansOptions.k options) w Hg)
    as (cents & w1 & Hrun & _ & _ & Hcopies).
  { eapply uniform_lt. exact Hvs. }
  unfold wp in Hinit. rewrite Hrun in *. destruct Hinit as (Hlen & Hf & _).
  assert (Hdim : length (deref (heap w) v0) = dim).
  { eapply uniform_deref; [exact Hvs|]. eapply list_elem_of_lookup_2. exact Hv0. }
  rewrite Hdim. apply wp_ok. apply iterate_dimension; cbn [centroids].
  - exact Hg.
  - lia.
  - eapply uniform_frame; [exact Hf| |exact Hvs]. eapply uniform_lt. exact Hvs.
  - eapply Forall_impl; [exact Hcopies|]. simpl. intros c (v & Hv & ->). simpl. f_equal.
    eapply uniform_deref; eassumption.
Qed.

End Dimension.

(** ** The driver: the assignment returned *)

Section DriverAssignments.

Variable random : nat -> num.

Lemma iterate_assignments vectors k dim tolerance passes iter st w :
  goodDraws random (length vectors) ->
  1 <= length (centroids st) <= k ->
  length (assignments st) = length vectors ->
  Forall (fun c => c < length (centroids st)) (assignments st) ->
  wp (iterate random vectors k dim tolerance passes iter st) w
     (fun st' _ =>
        1 <= length (centroids st') <= k /\
        length (assignments st') = length vectors /\
        Forall (fun c => c < length (centroids st')) (assignments st')).
Proof.
  intros Hg. revert iter st w.
  induction passes as [|passes IH]; intros iter st w Hlen Hasg Hall; simpl.
  - apply wp_ret. auto.
  - apply wp_bind. eapply wp_mono; [apply iteration_spec; [exact Hg|lia|lia]|].
    cbv beta zeta. intros [ctl st1] w1 (_ & Hnew & _ & Hcase). simpl in Hnew, Hcase.
    assert (Hb : Forall (fun c => c < length (centroids st)) (assignments st1)).
    { rewrite Hnew. apply assignAll_bound; lia. }
    assert (Hl : length (assignments st1) = length vectors).
    { rewrite Hnew. apply assignAll_length. }
    destruct (converged _ _ _).
    + destruct Hcase as (-> & _ & Hc). apply wp_ret. rewrite Hc. auto.
    + destruct Hcase as (-> & Hc & _).
      apply IH; [lia|exact Hl|].
      eapply Forall_impl; [exact Hb|]. simpl. intros c Hlt. lia.
Qed.

Lemma kMeansClustering_assignments vectors options w :
  goodDraws random (length vectors) ->
  1 <= KMeansOptions.k options <= length vectors ->
  wp (kMeansClustering random vectors options) w
     (fun res _ =>
        length (assignments res) = length vectors /\
        1 <= length (centroids res) <= KMeansOptions.k options /\
        Forall (fun c => c < length (centroids res)) (assignments res)).
Proof.
  intros Hg Hk.
  destruct (lookup_lt_is_Some_2 vectors 0) as [v0 Hv0]; [lia|].
  unfold wp. rewrite (kMeansClustering_nonempty random vectors options w v0 Hv0). cbv zeta.
  destruct (length vectors <? KMeansOptions.k options) eqn:Hlt;
    [apply Nat.ltb_lt in Hlt; lia|].
  pose proof (initializeCentroids_spec random vectors (KMeansOptions.k options) w Hg) as Hinit.
  apply wp_ok in Hinit. destruct Hinit as (cents & w1 & -> & Hlen & _).
  eapply wp_mono.
  - apply iterate_assignments; cbn [centroids assignments].
    + exact Hg.
    + lia.
    + apply length_replicate.
    + apply Forall_replicate. lia.
  - cbv beta. intros res w' (Hc & Hl & Hall). auto.
Qed.

(** X15: on valid input the driver returns one assignment per vector, and
    every assignment is the index of one of the centroids returned. *)
Theorem kMeansClustering_assignments_valid (vectors : list loc)
        (options : KMeansOptions.t) (w : world) :
  unitDraws random ->
  (Z.of_nat (length vectors) <= maxSafeInteger)%Z ->
  1 <= KMeansOptions.k options <= length vectors ->
  exists res w',
    kMeansClustering random vectors options w = Ok res w' /\
    length (assignments res) = length vectors /\
    1 <= length (centroids res) <= KMeansOptions.k options /\
    Forall (fun c => c < length (centroids res)) (assignments res).
Proof.
  intros Hu Hmax Hk. apply wp_ok. apply kMeansClustering_assignments; [|exact Hk].
  apply unitDraws_good; [assumption|lia|assumption].
Qed.

End DriverAssignments.

(** ** The driver with a single cluster *)

Lemma assignAll_single h vectors c :
  assignAll h vectors [c] = replicate (length vectors) 0.
Proof.
  unfold assignAll. induction vectors as [|v vs IH]; [reflexivity|].
  simpl. rewrite IH. f_equal.
  unfold assignToCentroid. simpl. destruct (_ <? _)%num; reflexivity.
Qed.

Lemma countChanged_same a n : countChanged a a n = 0.
Proof.
  unfold countChanged. induction (seq 0 n) as [|i l IH]; [reflexivity|].
  rewrite filter_cons. destruct (decide _) as [H|H]; [congruence|exact IH].
Qed.

(** No change among [n] vectors passes the test of any positive
    tolerance. *)
Lemma converged_no_change n tolerance :
  1 <= n -> (Z.of_nat n <= maxSafeInteger)%Z -> (zero <? tolerance)%num = true ->
  converged 0 n tolerance = true.
Proof.
  intros Hn Hmax Htol. unfold converged.
  destruct (ofNat_finite n Hn) as (mn & en & -> & _).
  { unfold maxSafeInteger in Hmax. lia. }
  exact Htol.
Qed.

Section SingleCluster.

Variable random : nat -> num.

(** X16: with [k = 1] and a positive tolerance the driver stops in its
    first pass: the centroid it returns is a copy of the input vector the
    one random draw selected, whatever the other vectors are.  [k = 0] is
    not rejected and gives the same result. *)
Theorem kMeansClustering_single_cluster (vectors : list loc)
        (options : KMeansOptions.t) (w : world) :
  KMeansOptions.k options <= 1 ->
  (zero <? default defaultTolerance (KMeansOptions.tolerance options))%num = true ->
  1 <= default defaultMaxIterations (KMeansOptions.maxIterations options) ->
  unitDraws random ->
  1 <= length vectors ->
  (Z.of_nat (length vectors) <= maxSafeInteger)%Z ->
  exists j v,
    floorIndex (random (cursor w) * ofNat (length vectors))%num = Some j /\
    vectors !! j = Some v /\
    kMeansClustering random vectors options w
    = Ok {| centroids := [length (heap w)];
            assignments := replicate (length vectors) 0;
            iterations := 1 |}
         {| heap := heap w ++ [deref (heap w) v]; cursor := S (cursor w) |}.
Proof.
  intros Hk Htol Hmax Hu Hn Hsafe.
  destruct (unitDraws_good random (length vectors) Hu Hn Hsafe (cursor w)) as (j & Hj & Hlt).
  destruct (lookup_lt_is_Some_2 vectors j Hlt) as [v Hv].
  destruct (lookup_lt_is_Some_2 vectors 0) as [v0 Hv0]; [lia|].
  exists j, v. split; [exact Hj|]. split; [exact Hv|].
  rewrite (kMeansClustering_nonempty random vectors options w v0 Hv0). cbv zeta.
  destruct (length vectors <? KMeansOptions.k options) eqn:Hlt1;
    [apply Nat.ltb_lt in Hlt1; lia|].
  assert (Hinit : initializeCentroids random vectors (KMeansOptions.k options) w
                  = Ok [length (heap w)]
                       {| heap := heap w ++ [deref (heap w) v]; cursor := S (cursor w) |}).
  { unfold initializeCentroids.
    replace (KMeansOptions.k options - 1) with 0 by lia.
    rewrite Hv0. simpl lengthOf.
    unfold bind at 1. unfold bind at 1. unfold load, ret.
    unfold bind at 1. unfold randomVector, bind at 1, Math_random, ret.
    rewrite Hj. cbn [mbind option_bind]. rewrite Hv.
    unfold spread, bind, load, alloc. reflexivity. }
  rewrite Hinit.
  destruct (default defaultMaxIterations _) as [|passes]; [lia|].
  rewrite iterate_S, iteration_converged; cbn [centroids assignments heap].
  - rewrite assignAll_single. reflexivity.
  - rewrite assignAll_single, countChanged_same.
    apply converged_no_change; assumption.
Qed.

End SingleCluster.

(** ** The convergence test at the default tolerance *)

Section RoundingLower.

Local Open Scope Z_scope.

(** Rounding a mantissa of at least [prec] digits, above the smallest
    exponent, gives at least the mantissa truncated to [prec] digits. *)
Lemma binary_round_aux_lower sx m e l :
  0 < m -> prec <= Zdigits2 m -> emin prec emax <= Zdigits2 m + e - prec ->
  exists m'' e'',
    binary_round_aux prec emax sx m e l
    = (if e'' <=? emax - prec then S754_finite sx m'' e'' else S754_infinity sx) /\
    e <= e'' /\
    m / 2 ^ (Zdigits2 m - prec) * 2 ^ (Zdigits2 m - prec) <= Zpos m'' * 2 ^ (e'' - e).
Proof.
  intros Hm Hd Hmin. unfold binary_round_aux, shr_fexp.
  set (d := Zdigits2 m) in *.
  assert (Hf : fexp prec emax (d + e) = d + e - prec) by (unfold fexp; lia).
  rewrite Hf. replace (d + e - prec - e) with (d - prec) by lia.
  set (s := d - prec) in *.
  pose proof (shr_value m l e s ltac:(lia)) as [Hq He'].
  destruct (shr (shr_record_of_loc m l) e s) as [mrs' e']. cbn [fst snd] in Hq, He'.
  rewrite Z.max_l in Hq, He' by lia.
  pose proof (round_nearest_even_bound mrs') as [Hq' _]. cbn zeta in Hq'.
  set (q' := round_nearest_even (shr_m mrs') (loc_of_shr_record mrs')) in *.
  pose proof prec_pos as Hprec.
  destruct (Zdigits2_shift m s Hm ltac:(unfold s; lia)) as [Hqpos Hqd].
  rewrite <- Hq in Hqpos, Hqd. fold d in Hqd.
  replace (d - s) with prec in Hqd by (unfold s; lia).
  pose proof (Zdigits2_bounds _ Hqpos) as [Hlo Hhi]. rewrite Hqd in Hlo, Hhi.
  assert (Hp : 0 < 2 ^ s) by (apply Z.pow_pos_nonneg; lia).
  assert (Hpp : 2 ^ prec = 2 * 2 ^ (prec - 1)).
  { replace prec with (Z.succ (prec - 1)) at 1 by lia.
    rewrite Z.pow_succ_r by lia. reflexivity. }
  assert (Hcase : q' < 2 ^ prec \/ q' = 2 ^ prec) by lia.
  destruct Hcase as [Hlt|Heq].
  - assert (Hd' : Zdigits2 q' = prec) by (apply Zdigits2_unique; lia).
    rewrite Hd'.
    assert (Hf' : fexp prec emax (prec + e') - e' = 0) by (unfold fexp; lia).
    rewrite Hf'. cbn [shr fst snd]. rewrite shr_m_of_loc.
    destruct q' as [|p|p] eqn:Hq'p; try lia.
    exists p, e'. split; [reflexivity|]. split; [lia|].
    replace (e' - e) with s by lia. rewrite <- Hq. nia.
  - assert (Hd' : Zdigits2 q' = prec + 1).
    { apply Zdigits2_unique; [|lia]. replace (prec + 1 - 1) with prec by lia.
      rewrite Heq. split; [lia|]. rewrite Z.pow_add_r by lia. change (2 ^ 1) with 2. lia. }
    rewrite Hd'.
    assert (Hf' : fexp prec emax (prec + 1 + e') - e' = 1) by (unfold fexp; lia).
    rewrite Hf'.
    pose proof (shr_value q' loc_Exact e' 1 ltac:(lia)) as [Hm'' He''].
    destruct (shr (shr_record_of_loc q' loc_Exact) e' 1) as [mrs'' e''].
    cbn [fst snd] in Hm'', He''. rewrite Z.max_l in Hm'', He'' by lia.
    change (2 ^ 1) with 2 in Hm''.
    assert (Hhalf : q' / 2 = 2 ^ (prec - 1)).
    { rewrite Heq, Hpp. rewrite Z.mul_comm. apply Z.div_mul. lia. }
    rewrite Hm'', Hhalf.
    assert (0 < 2 ^ (prec - 1)) by (apply Z.pow_pos_nonneg; lia).
    destruct (2 ^ (prec - 1)) as [|p|p] eqn:Hpw; try lia.
    exists p, e''. split; [reflexivity|]. split; [lia|].
    replace (e'' - e) with (s + 1) by lia.
    rewrite Z.pow_add_r by lia. change (2 ^ 1) with 2. rewrite <- Hq. nia.
Qed.

End RoundingLower.

Section DefaultTolerance.

Local Open Scope Z_scope.

Lemma defaultTolerance_finite :
  defaultTolerance = S754_finite false 7378697629483821 (-66).
Proof. vm_compute. reflexivity. Qed.

(** The quotient and exponent that [SFdiv] rounds for two mantissas of 53
    digits. *)
Lemma SFdiv_core_binary_53 mc ec mn en :
  2 ^ 52 <= Zpos mc < 2 ^ 53 -> 2 ^ 52 <= Zpos mn < 2 ^ 53 ->
  -52 <= ec <= 0 -> -52 <= en <= 0 ->
  exists l,
    SFdiv_core_binary prec emax (Zpos mc) ec (Zpos mn) en
    = (Zpos mc * 2 ^ 53 / Zpos mn, ec - en - 53, l).
Proof.
  intros Hc Hn Hec Hen. unfold SFdiv_core_binary. cbn [Zdigits2].
  rewrite (digits2_pos_unique mc 53), (digits2_pos_unique mn 53)
    by (change (2 ^ (53 - 1)) with (2 ^ 52); assumption).
  assert (He' : Z.min (fexp prec emax (53 + ec - (53 + en))) (ec - en) = ec - en - 53).
  { unfold fexp, SpecFloat.emin, prec, emax. lia. }
  cbv zeta. rewrite He'.
  replace (ec - en - (ec - en - 53)) with 53 by lia.
  rewrite Z.shiftl_mul_pow2 by lia.
  unfold Z.div. destruct (Z.div_eucl _ _) as [q r]. eexists. reflexivity.
Qed.


(** A change of at least one assignment among fewer than 10000 vectors is
    not below the default tolerance. *)
Lemma converged_default_changed (c n : nat) :
  (1 <= c)%nat -> Z.of_nat c < 2 ^ 53 -> (1 <= n)%nat -> Z.of_nat n < 10000 ->
  converged c n defaultTolerance = false.
Proof.
  intros Hc Hc53 Hn Hn4. unfold converged.
  pose proof (div_valid (ofNat c) (ofNat n)) as Hvalid.
  destruct (ofNat_finite c Hc Hc53) as (mc & ec & Ec & Hec & Hmc & Hmcb).
  destruct (ofNat_finite n Hn ltac:(lia)) as (mn & en & En & Hen & Hmn & Hmnb).
  rewrite Ec, En in *. rewrite defaultTolerance_finite.
  unfold div, SFdiv in *. cbn [xorb] in *.
  destruct (SFdiv_core_binary_53 mc ec mn en Hmcb Hmnb Hec Hen) as [l Hcore].
  rewrite Hcore in *.
  set (q := Zpos mc * 2 ^ 53 / Zpos mn) in *.
  set (e' := ec - en - 53) in *.
  (* the quotient has 53 or 54 digits *)
  assert (Hqdiv : q * Zpos mn <= Zpos mc * 2 ^ 53 < (q + 1) * Zpos mn).
  { unfold q. pose proof (Z.div_mod (Zpos mc * 2 ^ 53) (Zpos mn) ltac:(lia)) as Hdm.
    pose proof (Z.mod_pos_bound (Zpos mc * 2 ^ 53) (Zpos mn) ltac:(lia)) as Hmod. nia. }
  assert (Hqlo : 2 ^ 52 <= q).
  { unfold q. apply Z.div_le_lower_bound; [lia|]. nia. }
  assert (Hqhi : q < 2 ^ 54).
  { unfold q. apply Z.div_lt_upper_bound; [lia|].
    change (2 ^ 54) with (2 * 2 ^ 53). nia. }
  assert (Hd : 53 <= Zdigits2 q <= 54).
  { split.
    - pose proof (Zdigits2_lower q 52 ltac:(lia) Hqlo). lia.
    - pose proof (Zdigits2_bounds q ltac:(lia)) as [Hlo _].
      assert (Zdigits2 q - 1 < 54); [|lia].
      apply (Z.pow_lt_mono_r_iff 2); [lia|lia|lia]. }
  destruct (binary_round_aux_lower false q e' l) as (p & e'' & Hround & He'' & Hlow).
  { lia. }
  { unfold prec. lia. }
  { unfold SpecFloat.emin, prec, emax, e'. lia. }
  rewrite Hround in *.
  destruct (e'' <=? emax - prec); [|reflexivity].
  (* the truncated quotient is at least [q - 1] *)
  assert (Htrunc : q - 1 <= Zpos p * 2 ^ (e'' - e')).
  { eapply Z.le_trans; [|exact Hlow]. unfold prec.
    assert (Hs : Zdigits2 q - 53 = 0 \/ Zdigits2 q - 53 = 1) by lia.
    destruct Hs as [-> | ->].
    - change (2 ^ 0) with 1. rewrite Z.div_1_r. lia.
    - change (2 ^ 1) with 2.
      pose proof (Z.div_mod q 2 ltac:(lia)) as Hdm.
      pose proof (Z.mod_pos_bound q 2 ltac:(lia)) as Hmod. lia. }
  unfold ltb, SFltb.
  pose proof (alignedDiff_compare false p e'' false 7378697629483821 (-66) Hvalid eq_refl)
    as Hcmp.
  destruct (SFcompare _ _) as [[| |]|]; try reflexivity. exfalso.
  unfold alignedDiff in Hcmp. cbn [cond_Zopp] in Hcmp.
  rewrite !shl_align_value in Hcmp by lia.
  set (ez := Z.min (-66) e'') in *.
  set (E := Z.min e' (-66)).
  set (t := - ec + 66 + E).
  assert (Ht : 0 <= t) by (unfold t, E, e'; lia).
  (* both sides at the exponent [E - t] *)
  assert (H1 : 2 ^ (e'' - ez) * 2 ^ (ez - E + t) = 2 ^ (e'' - e') * 2 ^ (- en + 13)).
  { rewrite <- !Z.pow_add_r by (unfold ez, E, t, e' in *; lia).
    f_equal. unfold t, e'. lia. }
  assert (H2 : 2 ^ (-66 - ez) * 2 ^ (ez - E + t) = 2 ^ (- ec)).
  { rewrite <- !Z.pow_add_r by (unfold ez, E, t, e' in *; lia).
    f_equal. unfold t. lia. }
  assert (H3 : 2 ^ (- en + 13) = 2 ^ (- en) * 8192).
  { rewrite Z.pow_add_r by lia. reflexivity. }
  assert (Hk : 0 < 2 ^ (ez - E + t)).
  { apply Z.pow_pos_nonneg; [lia|]. unfold ez, E, t, e' in *. lia. }
  assert (Hp1 : 0 < 2 ^ (e'' - e')) by (apply Z.pow_pos_nonneg; lia).
  assert (HT : 0 < 2 ^ (- ec)) by (apply Z.pow_pos_nonneg; lia).
  assert (HB : 0 < 2 ^ (- en)) by (apply Z.pow_pos_nonneg; lia).
  revert Hcmp H1 H2 H3 Hk Hp1 HT HB Htrunc Hqdiv Hqlo Hmc Hmn Hmcb Hmnb.
  generalize (2 ^ (e'' - ez)) (2 ^ (ez - E + t)) (2 ^ (e'' - e')) (2 ^ (-66 - ez))
             (2 ^ (- en + 13)) (2 ^ (- ec)) (2 ^ (- en)).
  change (2 ^ 53) with 9007199254740992. change (2 ^ 52) with 4503599627370496.
  intros x y z u v T B Hcmp H1 H2 H3 Hk Hp1 HT HB Htrunc Hqdiv Hqlo Hmc Hmn Hmcb Hmnb.
  rewrite Hmc, Hmn in *.
  clear - Hcmp H1 H2 H3 Hk Hp1 HT HB Htrunc Hqdiv Hqlo Hmcb Hmnb Hc Hn Hn4.
  assert (Hc' : 1 <= Z.of_nat c) by lia. assert (Hn' : 1 <= Z.of_nat n) by lia.
  clear Hc Hn. revert Hc' Hn' Hn4 Hcmp H1 H2 H3 Hk Hp1 HT HB Htrunc Hqdiv Hqlo Hmcb Hmnb.
  generalize (Z.of_nat c) (Z.of_nat n) (Zpos p). clear.
  intros C N P HC HN HN4 Hcmp H1 H2 H3 Hk Hp1 HT HB Htrunc Hqdiv Hqlo Hmcb Hmnb.
  (* (q - 1) * B * 2^13 < mt * T *)
  assert (Hstar : (q - 1) * v < 7378697629483821 * T).
  { assert (Ha : P * z * v = P * x * y) by (rewrite <- !Z.mul_assoc; f_equal; lia).
    assert (Hb : 7378697629483821 * T = 7378697629483821 * u * y)
      by (rewrite <- Z.mul_assoc; f_equal; lia).
    assert (Hv : 0 < v) by lia.
    assert (Hc1 : (q - 1) * v <= P * z * v) by (apply Z.mul_le_mono_nonneg_r; lia).
    assert (Hc2 : P * x * y < 7378697629483821 * u * y)
      by (apply Z.mul_lt_mono_pos_r; lia).
    lia. }
  subst v.
  assert (HY : (q - 1) * (B * 8192) * N < 7378697629483821 * T * N)
    by (apply Z.mul_lt_mono_pos_r; lia).
  assert (HTN : T * N <= T * 9999) by (apply Z.mul_le_mono_nonneg_l; lia).
  assert (HTC : T * 1 <= T * C) by (apply Z.mul_le_mono_nonneg_l; lia).
  lia.
Qed.

End DefaultTolerance.

(** X17: with the default tolerance and fewer than 10000 vectors the test
    [changed / n < tolerance] holds exactly when no assignment changed. *)
Theorem converged_default_tolerance (changed n : nat) :
  1 <= n -> (Z.of_nat n < 10000)%Z -> changed <= n ->
  converged changed n defaultTolerance = (changed =? 0).
Proof.
  intros Hn Hn4 Hc. destruct changed as [|c].
  - apply converged_no_change; [lia|unfold maxSafeInteger; lia|reflexivity].
  - apply converged_default_changed; change (2 ^ 53)%Z with 9007199254740992%Z; lia.
Qed.

(** ** An early stop is a fixed point *)

Lemma countChanged_zero (a b : list nat) n :
  countChanged a b n = 0 -> length a = n -> length b = n -> a = b.
Proof.
  unfold countChanged. intros H Ha Hb. apply length_zero_iff_nil in H.
  apply list_eq. intros i. destruct (decide (i < n)) as [Hi|Hi].
  - destruct (decide (a !! i = b !! i)) as [He|Hne]; [exact He|].
    assert (Hin : i ∈ filter (fun i => a !! i <> b !! i) (seq 0 n)).
    { apply list_elem_of_filter. split; [exact Hne|]. apply elem_of_seq. lia. }
    rewrite H in Hin. inversion Hin.
  - rewrite !lookup_ge_None_2 by lia. reflexivity.
Qed.

Lemma clusterVectors_ext h h' vectors assignments c :
  (forall v, v ∈ vectors -> deref h' v = deref h v) ->
  clusterVectors h' vectors assignments c = clusterVectors h vectors assignments c.
Proof.
  intros H. unfold clusterVectors. apply map_ext_in. intros [v a] Hin. simpl.
  apply H. apply list_elem_of_In in Hin. apply list_elem_of_filter in Hin as [_ Hin].
  apply elem_of_zip_l in Hin. exact Hin.
Qed.

Section FixedPoint.

Variable random : nat -> num.

Lemma iterate_fixed_point vectors k dim tolerance passes iter st w :
  goodDraws random (length vectors) ->
  (forall changed, changed <= length vectors ->
                   converged changed (length vectors) tolerance = true -> changed = 0) ->
  Forall (fun v => v < length (heap w)) vectors ->
  1 <= length (centroids st) <= k ->
  length (assignments st) = length vectors ->
  iterations st = iter ->
  (1 <= iter -> centroidsAreMeans (heap w) vectors k dim st) ->
  wp (iterate random vectors k dim tolerance passes iter st) w
     (fun st' w' =>
        iterations st' < iter + passes -> (1 <= iter \/ 2 <= iterations st') ->
        assignments st' = assignAll (heap w') vectors (centroids st') /\
        centroidsAreMeans (heap w') vectors k dim st').
Proof.
  intros Hg Hstrict. revert iter st w.
  induction passes as [|passes IH]; intros iter st w Hvalid Hlen Hasg Hit Hmeans; simpl.
  - apply wp_ret. intros Hlt. exfalso. lia.
  - apply wp_bind. unfold iteration. apply wp_getHeap.
    set (newA := assignAll (heap w) vectors (centroids st)).
    assert (HnewL : length newA = length vectors) by apply assignAll_length.
    destruct (converged _ _ _) eqn:Hconv.
    + apply wp_ret, wp_ret. cbn [iterations assignments centroids].
      intros _ Hiter. assert (Hiter' : 1 <= iter) by lia. clear Hiter.
      apply Hstrict in Hconv.
      2:{ unfold countChanged. etransitivity; [apply length_filter|].
          rewrite length_seq. lia. }
      pose proof (countChanged_zero _ _ _ Hconv HnewL Hasg) as Heq.
      split; [reflexivity|].
      specialize (Hmeans Hiter'). unfold centroidsAreMeans in *.
      cbn [assignments centroids]. rewrite Heq. exact Hmeans.
    + apply wp_bind.
      pose proof (recalculateCentroids_spec random vectors newA k dim w Hg HnewL) as Hspec.
      destruct (recalculateCentroids_run random vectors newA k dim w Hg HnewL)
        as (cs & w1 & Hrun & _ & Hm & _);
        [apply assignAll_bound; lia|exact Hvalid|].
      unfold wp in Hspec |- *. rewrite Hrun in *.
      destruct Hspec as (Hcs & Hf & _); [apply assignAll_bound; lia|].
      apply wp_ret.
      assert (Hsame : forall v, v ∈ vectors -> deref (heap w1) v = deref (heap w) v).
      { intros v Hv. apply frame_deref; [exact Hf|].
        rewrite Forall_forall in Hvalid. apply Hvalid. exact Hv. }
      eapply wp_mono.
      * apply (IH (S iter)); cbn [iterations assignments centroids].
        -- eapply Forall_impl; [exact Hvalid|]. simpl. intros v Hv. destruct Hf. lia.
        -- lia.
        -- exact HnewL.
        -- lia.
        -- intros _ c Hc Hne. cbn [assignments centroids] in *.
           rewrite (clusterVectors_ext (heap w) (heap w1)) in * by exact Hsame.
           apply Hm; assumption.
      * cbv beta. intros st' w' Hpost Hlt Hiter. apply Hpost; [lia|left; lia].
Qed.


(** X18: with the default tolerance and fewer than 10000 vectors, a run that
    stops before its last pass, after at least two passes, returns a fixed
    point of the iteration: every vector is assigned to the centroid that
    [assignToCentroid] finds for it among the centroids returned, and every
    centroid of a cluster with members is the mean of the vectors assigned
    to it. *)
Theorem kMeansClustering_early_stop_fixed_point (vectors : list loc)
        (options : KMeansOptions.t) (w : world) (v0 : loc) :
  KMeansOptions.tolerance options = None ->
  unitDraws random ->
  1 <= KMeansOptions.k options <= length vectors ->
  (Z.of_nat (length vectors) < 10000)%Z ->
  Forall (fun v => v < length (heap w)) vectors ->
  vectors !! 0 = Some v0 ->
  exists res w',
    kMeansClustering random vectors options w = Ok res w' /\
    (2 <= iterations res < default defaultMaxIterations (KMeansOptions.maxIterations options) ->
     assignments res = assignAll (heap w') vectors (centroids res) /\
     centroidsAreMeans (heap w') vectors (KMeansOptions.k options)
                       (length (deref (heap w) v0)) res).
Proof.
  intros Htol Hu Hk Hn Hvalid Hv0.
  assert (Hg : goodDraws random (length vectors)).
  { apply unitDraws_good; [exact Hu|lia|unfold maxSafeInteger; lia]. }
  rewrite (kMeansClustering_nonempty random vectors options w v0 Hv0). cbv zeta.
  destruct (length vectors <? KMeansOptions.k options) eqn:Hlt;
    [apply Nat.ltb_lt in Hlt; lia|].
  pose proof (initializeCentroids_spec random vectors (KMeansOptions.k options) w Hg) as Hinit.
  apply wp_ok in Hinit. destruct Hinit as (cents & w1 & -> & Hlen & Hf & _).
  rewrite Htol. cbn [default].
  pose proof (iterate_fixed_point vectors (KMeansOptions.k options)
                (length (deref (heap w) v0)) defaultTolerance
                (default defaultMaxIterations (KMeansOptions.maxIterations options)) 0
                {| centroids := cents;
                   assignments := replicate (length vectors) 0;
                   iterations := 0 |} w1 Hg) as Hloop.
  apply wp_ok in Hloop.
  - destruct Hloop as (res & w' & Hrun & Hfix).
    exists res, w'. split; [exact Hrun|]. intros [H2 Hmax].
    apply Hfix; [simpl; lia|right; exact H2].
  - intros changed Hle Hconv. destruct changed as [|c]; [reflexivity|].
    rewrite converged_default_changed in Hconv; [discriminate|lia| |lia|exact Hn].
    change (2 ^ 53)%Z with 9007199254740992%Z. lia.
  - eapply Forall_impl; [exact Hvalid|]. simpl. intros v Hv. destruct Hf. lia.
  - cbn [centroids]. lia.
  - apply length_replicate.
  - reflexivity.
  - intros Hone. exfalso. lia.
Qed.

End FixedPoint.

(** ** Representatives are members of their cluster *)

Section RepresentativeMembers.

Context {P : Type}.

(** The loop over [posts] pushes one element for every index assigned to
    [c], in the order of the indices. *)
Lemma clusterPostsFrom_members vectors assignments c centroid (all posts : list P) i w :
  drop i all = posts -> length all <= length vectors ->
  exists cps,
    clusterPostsFrom vectors assignments c centroid posts i w = Ok cps w /\
    Forall2 (pushedFor (heap w) vectors all centroid)
            (filter (fun j => assignments !! j = Some c) (seq i (length posts))) cps.
Proof.
  revert i. induction posts as [|p rest IH]; intros i Hdrop Hlen; simpl.
  - exists []. split; [reflexivity|constructor].
  - assert (Hp : all !! i = Some p).
    { rewrite <- (Nat.add_0_r i), <- lookup_drop, Hdrop. reflexivity. }
    assert (Hrest : drop (S i) all = rest).
    { replace (S i) with (i + 1) by lia. rewrite <- drop_drop, Hdrop. reflexivity. }
    destruct (IH (S i) Hrest Hlen) as (cps & Hrun & Hall).
    rewrite filter_cons. destruct (decide (assignments !! i = Some c)) as [Hc|Hc].
    + destruct (lookup_lt_is_Some_2 vectors i) as [v Hv].
      { apply lookup_lt_Some in Hp. lia. }
      rewrite Hv. simpl loadOpt. unfold bind, load. rewrite Hrun.
      eexists. split; [reflexivity|]. constructor; [|exact Hall].
      exists p, v. auto.
    + exists cps. auto.
Qed.


(** The list of cluster [c]: the elements pushed for the members of [c],
    sorted, cut to [topN] and labelled with [c]. *)
Lemma getClusterRepresentatives_run
      (vectors : list loc) (posts : list P) (cents : list loc)
      (assignments : list nat) (topN : nat) w :
  length posts <= length vectors ->
  exists reps,
    getClusterRepresentatives vectors posts cents assignments topN w = Ok reps w /\
    Forall2 (fun c l =>
               exists centroid cps,
                 cents !! c = Some centroid /\
                 Forall2 (pushedFor (heap w) vectors posts (deref (heap w) centroid))
                         (filter (fun j => assignments !! j = Some c)
                                 (seq 0 (length posts))) cps /\
                 l = map (fun cp => {| Representative.cluster := c;
                                       Representative.posts := [post cp];
                                       Representative.similarity := similarity cp |})
                         (take topN (sortBy bySimilarity cps)))
            (seq 0 (length cents)) reps.
Proof.
  intros Hlen. apply mapM_run. intros c Hc%elem_of_seq.
  destruct (lookup_lt_is_Some_2 cents c) as [centroid Hcen]; [lia|].
  destruct (clusterPostsFrom_members vectors assignments c (deref (heap w) centroid)
                                     posts posts 0 w) as (cps & Hcps & Hall);
    [apply drop_0|exact Hlen|].
  unfold representativesOf. rewrite Hcen. simpl loadOpt.
  unfold bind, load. rewrite Hcps.
  eexists. split; [reflexivity|]. exists centroid, cps. auto.
Qed.

(** X19: every representative in the list of cluster [c] is labelled [c]
    and carries one post assigned to [c], with the similarity of its vector
    to the centroid of [c]; no post is listed twice. *)
Theorem getClusterRepresentatives_members
        (vectors : list loc) (posts : list P) (cents : list loc)
        (assignments : list nat) (topN : nat) w :
  length posts <= length vectors ->
  exists reps,
    getClusterRepresentatives vectors posts cents assignments topN w = Ok reps w /\
    forall c l, reps !! c = Some l ->
      exists centroid js,
        cents !! c = Some centroid /\ NoDup js /\
        Forall2 (fun j r =>
                   assignments !! j = Some c /\
                   Representative.cluster r = c /\
                   exists p v, posts !! j = Some p /\ vectors !! j = Some v /\
                     Representative.posts r = [p] /\
                     Representative.similarity r
                     = cosineSimilarity (deref (heap w) v) (deref (heap w) centroid))
                js l.
Proof.
  intros Hlen.
  destruct (getClusterRepresentatives_run vectors posts cents assignments topN w Hlen)
    as (reps & Hrun & Hall).
  exists reps. split; [exact Hrun|]. intros c l Hl.
  destruct (Forall2_lookup_r _ _ _ _ _ Hall Hl)
    as (c' & Hc' & centroid & cps & Hcen & Hcps & ->).
  apply lookup_seq in Hc' as [-> _]. simpl in *.
  set (js := filter (fun j => assignments !! j = Some c) (seq 0 (length posts))) in *.
  assert (Hjs : NoDup js /\ Forall (fun j => assignments !! j = Some c) js).
  { split; [apply NoDup_filter, NoDup_seq|].
    apply Forall_forall. intros j Hj. apply list_elem_of_filter in Hj. tauto. }
  destruct Hjs as [Hnd Hin].
  apply Forall2_flip in Hcps.
  destruct (Permutation_Forall2 (Permutation_sym (sortBy_Permutation bySimilarity cps)) Hcps)
    as (js' & Hperm & Hsorted).
  exists centroid, (take topN js'). split; [exact Hcen|]. split.
  { eapply sublist_NoDup; [|apply sublist_take]. rewrite <- Hperm. exact Hnd. }
  apply Forall2_fmap_r. apply Forall2_take. apply Forall2_flip.
  rewrite Hperm in Hin.
  clear -Hsorted Hin. induction Hsorted as [|cp j cps' js'' (p & v & Hp & Hv & ->) _ IH].
  - constructor.
  - inversion Hin; subst. constructor; [|apply IH; assumption].
    simpl. split; [assumption|]. split; [reflexivity|]. exists p, v. auto.
Qed.


(** Sorting by [(a, b) => b.similarity - a.similarity] puts numbers other
    than NaN in non-increasing order. *)
Lemma sortBy_bySimilarity_Sorted (cps : list (clusterPost P)) :
  Forall (fun cp => comparable (similarity cp) = true) cps ->
  Sorted (fun a b : clusterPost P => (similarity b <=? similarity a)%num = true)
         (sortBy bySimilarity cps).
Proof.
  apply (sortBy_Sorted bySimilarity _
           (fun cp : clusterPost P => comparable (similarity cp) = true));
    intros a b [Hva Hna%negb_true_iff]%andb_prop [Hvb Hnb%negb_true_iff]%andb_prop Hc;
    unfold bySimilarity in Hc; rewrite zero_ltb_sub in Hc by assumption.
  - apply ltb_leb. exact Hc.
  - apply not_ltb_leb; assumption.
Qed.

(** X20: when no similarity of a member of cluster [c] is NaN, the first
    representative of [c] is at least as similar to the centroid as every
    member of [c]. *)
Theorem getClusterRepresentatives_first_most_similar
        (vectors : list loc) (posts : list P) (cents : list loc)
        (assignments : list nat) (topN : nat) w :
  length posts <= length vectors ->
  exists reps,
    getClusterRepresentatives vectors posts cents assignments topN w = Ok reps w /\
    forall c centroid r rest,
      cents !! c = Some centroid -> reps !! c = Some (r :: rest) ->
      (forall i v,
          i < length posts -> assignments !! i = Some c -> vectors !! i = Some v ->
          isNaN (cosineSimilarity (deref (heap w) v) (deref (heap w) centroid)) = false) ->
      forall i v,
        i < length posts -> assignments !! i = Some c -> vectors !! i = Some v ->
        (cosineSimilarity (deref (heap w) v) (deref (heap w) centroid)
         <=? Representative.similarity r)%num = true.
Proof.
  intros Hlen.
  destruct (getClusterRepresentatives_run vectors posts cents assignments topN w Hlen)
    as (reps & Hrun & Hall).
  exists reps. split; [exact Hrun|]. intros c centroid r rest Hcen Hl Hnan i v Hi Hasg Hv.
  destruct (Forall2_lookup_r _ _ _ _ _ Hall Hl)
    as (c' & Hc' & centroid' & cps & Hcen' & Hcps & Heq).
  apply lookup_seq in Hc' as [-> _]. simpl in *.
  assert (centroid' = centroid) as -> by congruence.
  (* every element pushed is a number *)
  assert (Hcmp : Forall (fun cp => comparable (similarity cp) = true) cps).
  { apply Forall_forall. intros cp Hcp.
    apply list_elem_of_lookup in Hcp as [n Hn].
    destruct (Forall2_lookup_r _ _ _ _ _ Hcps Hn) as (j & Hj & p & v' & Hp & Hv' & ->).
    apply list_elem_of_lookup_2, list_elem_of_filter in Hj as [Hjc Hjs].
    apply elem_of_seq in Hjs. simpl. unfold comparable.
    rewrite cosineSimilarity_valid, (Hnan j v'); auto. lia. }
  (* the member [i] was pushed *)
  assert (Hmem : exists cp, cp ∈ cps /\
            similarity cp = cosineSimilarity (deref (heap w) v) (deref (heap w) centroid)).
  { assert (Hin : i ∈ filter (fun j => assignments !! j = Some c) (seq 0 (length posts))).
    { apply list_elem_of_filter. split; [exact Hasg|]. apply elem_of_seq. lia. }
    apply list_elem_of_lookup in Hin as [n Hn].
    destruct (Forall2_lookup_l _ _ _ _ _ Hcps Hn) as (cp & Hcp & p & v' & Hp & Hv' & ->).
    eexists. split; [eapply list_elem_of_lookup_2; exact Hcp|].
    simpl. congruence. }
  destruct Hmem as (cp & Hcp & <-).
  (* the first representative is the head of the sorted list *)
  pose proof (sortBy_bySimilarity_Sorted cps Hcmp) as Hsorted.
  apply Sorted_StronglySorted in Hsorted.
  2:{ intros x y z Hxy Hyz. eapply leb_trans; eassumption. }
  rewrite <- (sortBy_Permutation bySimilarity cps) in Hcp, Hcmp.
  destruct (sortBy bySimilarity cps) as [|cp0 tail]; [destruct topN; discriminate|].
  destruct topN as [|topN']; [discriminate|]. simpl in Heq. injection Heq as -> _.
  simpl. apply StronglySorted_inv in Hsorted as [_ Hhd].
  apply elem_of_cons in Hcp as [->|Hcp].
  - apply leb_refl. apply Forall_inv in Hcmp.
    apply andb_prop in Hcmp as [_ Hn%negb_true_iff]. exact Hn.
  - rewrite Forall_forall in Hhd. apply Hhd. exact Hcp.
Qed.

End RepresentativeMembers.

Section RepresentativeTop.

Context {P : Type}.

(** X21: when no similarity of a member of cluster [c] is NaN, the list of
    [c] holds the most similar members: a post assigned to [c] is listed
    with its similarity, or is no more similar to the centroid than every
    representative listed. *)
Theorem getClusterRepresentatives_top
        (vectors : list loc) (posts : list P) (cents : list loc)
        (assignments : list nat) (topN : nat) w :
  length posts <= length vectors ->
  exists reps,
    getClusterRepresentatives vectors posts cents assignments topN w = Ok reps w /\
    forall c centroid l,
      cents !! c = Some centroid -> reps !! c = Some l ->
      (forall i v,
          i < length posts -> assignments !! i = Some c -> vectors !! i = Some v ->
          isNaN (cosineSimilarity (deref (heap w) v) (deref (heap w) centroid)) = false) ->
      forall j p v,
        posts !! j = Some p -> assignments !! j = Some c -> vectors !! j = Some v ->
        (exists r, r ∈ l /\ Representative.posts r = [p] /\
                   Representative.similarity r
                   = cosineSimilarity (deref (heap w) v) (deref (heap w) centroid)) \/
        (forall r, r ∈ l ->
                   (cosineSimilarity (deref (heap w) v) (deref (heap w) centroid)
                    <=? Representative.similarity r)%num = true).
Proof.
  intros Hlen.
  destruct (getClusterRepresentatives_run vectors posts cents assignments topN w Hlen)
    as (reps & Hrun & Hall).
  exists reps. split; [exact Hrun|]. intros c centroid l Hcen Hl Hnan j p v Hp Hasg Hv.
  destruct (Forall2_lookup_r _ _ _ _ _ Hall Hl)
    as (c' & Hc' & centroid' & cps & Hcen' & Hcps & ->).
  apply lookup_seq in Hc' as [-> _]. simpl in *.
  assert (centroid' = centroid) as -> by congruence.
  assert (Hcmp : Forall (fun cp => comparable (similarity cp) = true) cps).
  { apply Forall_forall. intros cp Hcp.
    apply list_elem_of_lookup in Hcp as [n Hn].
    destruct (Forall2_lookup_r _ _ _ _ _ Hcps Hn) as (i & Hi & p' & v' & Hp' & Hv' & ->).
    apply list_elem_of_lookup_2, list_elem_of_filter in Hi as [Hic His].
    apply elem_of_seq in His. simpl. unfold comparable.
    rewrite cosineSimilarity_valid, (Hnan i v'); auto. lia. }
  (* the element pushed for [j] *)
  set (cpj := {| post := p;
                 similarity := cosineSimilarity (deref (heap w) v)
                                                (deref (heap w) centroid) |}).
  assert (Hmem : cpj ∈ cps).
  { assert (Hin : j ∈ filter (fun i => assignments !! i = Some c) (seq 0 (length posts))).
    { apply list_elem_of_filter. split; [exact Hasg|]. apply elem_of_seq.
      apply lookup_lt_Some in Hp. lia. }
    apply list_elem_of_lookup in Hin as [n Hn].
    destruct (Forall2_lookup_l _ _ _ _ _ Hcps Hn) as (cp & Hcp & p' & v' & Hp' & Hv' & ->).
    assert (p' = p) as -> by congruence. assert (v' = v) as -> by congruence.
    eapply list_elem_of_lookup_2. exact Hcp. }
  pose proof (sortBy_bySimilarity_Sorted cps Hcmp) as Hsorted.
  apply Sorted_StronglySorted in Hsorted.
  2:{ intros x y z Hxy Hyz. eapply leb_trans; eassumption. }
  rewrite <- (sortBy_Permutation bySimilarity cps) in Hmem.
  rewrite <- (take_drop topN (sortBy bySimilarity cps)) in Hmem, Hsorted.
  apply elem_of_app in Hmem as [Hlisted|Hrest].
  - left. eexists. split; [apply list_elem_of_fmap; eexists; split; [reflexivity|exact Hlisted]|].
    split; reflexivity.
  - right. intros r (cp & -> & Hcp)%list_elem_of_fmap. simpl.
    apply (StronglySorted_app_1_elem_of _ _ _ cp cpj Hsorted Hcp Hrest).
Qed.

End RepresentativeTop.

(** ** Representatives: a post without a vector *)

Lemma mapM_throws {A B} (f : A -> M B) (e : error) l w :
  (forall x, x ∈ l -> (exists y, f x w = Ok y w) \/ f x w = Throw e) ->
  (exists x, x ∈ l /\ f x w = Throw e) ->
  mapM f l w = Throw e.
Proof.
  induction l as [|x l IH]; intros Hall (x0 & Hin & Hthrow).
  - inversion Hin.
  - simpl. unfold bind at 1.
    destruct (Hall x) as [(y & Hy)|Hx]; [left| |rewrite Hx; reflexivity].
    rewrite Hy. unfold bind at 1. rewrite IH; [reflexivity| |].
    + intros z Hz. apply Hall. right. exact Hz.
    + apply elem_of_cons in Hin as [->|Hin]; [congruence|]. eauto.
Qed.

Section RepresentativeErrors.

Context {P : Type}.

Lemma clusterPostsFrom_outcome vectors assignments c centroid (posts : list P) i w :
  (exists cps, clusterPostsFrom vectors assignments c centroid posts i w = Ok cps w) \/
  clusterPostsFrom vectors assignments c centroid posts i w = Throw TypeError.
Proof.
  revert i. induction posts as [|p rest IH]; intros i; simpl.
  - left. eexists. reflexivity.
  - destruct (decide (assignments !! i = Some c)); [|apply IH].
    destruct (vectors !! i) as [v|]; [|right; reflexivity].
    simpl loadOpt. unfold bind, load.
    destruct (IH (S i)) as [(cps & ->) | ->]; [left; eexists; reflexivity|right; reflexivity].
Qed.

Lemma clusterPostsFrom_throws vectors assignments c centroid (posts : list P) i w j :
  i <= j < i + length posts -> assignments !! j = Some c -> vectors !! j = None ->
  clusterPostsFrom vectors assignments c centroid posts i w = Throw TypeError.
Proof.
  revert i. induction posts as [|p rest IH]; intros i Hj Hc Hv; simpl in *; [lia|].
  destruct (decide (i = j)) as [->|Hne].
  - rewrite decide_True by exact Hc. rewrite Hv. reflexivity.
  - assert (Hrest : clusterPostsFrom vectors assignments c centroid rest (S i) w
                    = Throw TypeError) by (apply IH; [lia|assumption|assumption]).
    destruct (decide (assignments !! i = Some c)); [|exact Hrest].
    destruct (vectors !! i) as [v|]; [|reflexivity].
    simpl loadOpt. unfold bind, load. rewrite Hrest. reflexivity.
Qed.

(** X22: a post that is assigned to one of the clusters and has no vector
    makes the extraction throw a TypeError. *)
Theorem getClusterRepresentatives_missing_vector
        (vectors : list loc) (posts : list P) (cents : list loc)
        (assignments : list nat) (topN : nat) w (i c : nat) :
  i < length posts -> vectors !! i = None ->
  assignments !! i = Some c -> c < length cents ->
  getClusterRepresentatives vectors posts cents assignments topN w = Throw TypeError.
Proof.
  intros Hi Hv Hc Hlt. apply mapM_throws.
  - intros c' Hc'%elem_of_seq.
    destruct (lookup_lt_is_Some_2 cents c') as [centroid Hcen]; [lia|].
    unfold representativesOf. rewrite Hcen. simpl loadOpt. unfold bind, load.
    destruct (clusterPostsFrom_outcome vectors assignments c' (deref (heap w) centroid)
                                       posts 0 w) as [(cps & ->) | ->].
    + left. eexists. reflexivity.
    + right. reflexivity.
  - exists c. split; [apply elem_of_seq; lia|].
    destruct (lookup_lt_is_Some_2 cents c Hlt) as [centroid Hcen].
    unfold representativesOf. rewrite Hcen. simpl loadOpt. unfold bind, load.
    rewrite (clusterPostsFrom_throws vectors assignments c _ posts 0 w i);
      [reflexivity|simpl; lia|exact Hc|exact Hv].
Qed.

End RepresentativeErrors.

(** ** The caller's extraction of embeddings *)

Section RunClustering.

Context {P : Type}.

Lemma extractEmbeddings_filter h (posts : list (PostEmbedding.t P)) vs ps :
  extractEmbeddings h posts vs ps
  = (vs ++ omap PostEmbedding.embedding (filter (fun p => validEmbedding h p = true) posts),
     ps ++ filter (fun p => validEmbedding h p = true) posts).
Proof.
  revert vs ps. induction posts as [|post rest IH]; intros vs ps; simpl.
  - rewrite !app_nil_r. reflexivity.
  - rewrite filter_cons.
    destruct (decide (validEmbedding h post = true)) as [Hv|Hv];
      unfold validEmbedding in Hv; destruct (PostEmbedding.embedding post) as [e|] eqn:He;
      try discriminate.
    + rewrite Hv, IH. simpl. rewrite He, <- !app_assoc. reflexivity.
    + apply not_true_is_false in Hv. rewrite Hv. apply IH.
    + apply IH.
Qed.


Lemma length_omap_embedding h (posts : list (PostEmbedding.t P)) :
  length (omap PostEmbedding.embedding (filter (fun p => validEmbedding h p = true) posts))
  = length (filter (fun p => validEmbedding h p = true) posts).
Proof.
  induction posts as [|post rest IH]; [reflexivity|].
  rewrite filter_cons. destruct (decide _) as [Hv|Hv]; [|exact IH].
  unfold validEmbedding in Hv. cbn [omap list_omap length].
  destruct (PostEmbedding.embedding post); [|discriminate].
  cbn [length]. f_equal. exact IH.
Qed.

Variable random : nat -> num.

(** X23: the caller counts the posts before it drops those without a
    usable embedding.  With at least [k] posts of which fewer than [k] are
    usable it does not throw its own error: the driver throws, a TypeError
    when no post is usable and its not-enough-vectors error otherwise. *)
Theorem runClustering_too_few_embeddings (posts : list (PostEmbedding.t P)) (k : nat) w :
  k <= length posts ->
  length (filter (fun p => validEmbedding (heap w) p = true) posts) < k ->
  runClustering_kMeans random posts k w
  = Failed (Thrown
      match length (filter (fun p => validEmbedding (heap w) p = true) posts) with
      | 0 => TypeError
      | S m => NotEnoughVectors (S m) k
      end).
Proof.
  intros Hk Hm. unfold runClustering_kMeans.
  destruct (length posts <? k) eqn:Hlt; [apply Nat.ltb_lt in Hlt; lia|].
  rewrite extractEmbeddings_filter. cbn [app]. cbv zeta. fold (onlyK k).
  pose proof (length_omap_embedding (heap w) posts) as Hlen.
  destruct (omap PostEmbedding.embedding _) as [|v vs] eqn:Hvs.
  - simpl in Hlen. rewrite <- Hlen. reflexivity.
  - rewrite kMeansClustering_not_enough; [|discriminate|simpl in *; lia].
    rewrite <- Hlen. reflexivity.
Qed.

(** X24: with at least [k >= 1] usable posts the caller reaches the result
    of the driver: [vectors] and [validPosts] hold the usable posts in
    their order, one vector per post, and the result assigns each of them
    to one of its centroids. *)
Theorem runClustering_clusters_valid_posts (posts : list (PostEmbedding.t P)) (k : nat) w :
  unitDraws random ->
  (Z.of_nat (length posts) <= maxSafeInteger)%Z ->
  1 <= k <= length (filter (fun p => validEmbedding (heap w) p = true) posts) ->
  exists c w',
    runClustering_kMeans random posts k w = Done c w' /\
    Clustered.validPosts c = filter (fun p => validEmbedding (heap w) p = true) posts /\
    Forall2 (fun v p => PostEmbedding.embedding p = Some v)
            (Clustered.vectors c) (Clustered.validPosts c) /\
    length (assignments (Clustered.result c)) = length (Clustered.validPosts c) /\
    Forall (fun a => a < length (centroids (Clustered.result c)))
           (assignments (Clustered.result c)).
Proof.
  intros Hu Hmax Hk. unfold runClustering_kMeans.
  pose proof (length_filter (fun p => validEmbedding (heap w) p = true) posts) as Hle.
  destruct (length posts <? k) eqn:Hlt; [apply Nat.ltb_lt in Hlt; lia|].
  rewrite extractEmbeddings_filter. cbn [app]. cbv zeta. fold (onlyK k).
  pose proof (length_omap_embedding (heap w) posts) as Hlen.
  set (valid := filter (fun p => validEmbedding (heap w) p = true) posts) in *.
  assert (Hg : goodDraws random (length (omap PostEmbedding.embedding valid))).
  { apply unitDraws_good; [exact Hu|lia|lia]. }
  pose proof (kMeansClustering_assignments random (omap PostEmbedding.embedding valid)
                                           (onlyK k) w Hg) as Hrun.
  apply wp_ok in Hrun; [|simpl; lia].
  destruct Hrun as (res & w' & Hrun & Hasg & _ & Hall).
  rewrite Hrun. eexists _, w'. split; [reflexivity|].
  cbn [Clustered.vectors Clustered.validPosts Clustered.result].
  split; [reflexivity|]. split; [|split; [rewrite Hasg; exact Hlen|exact Hall]].
  clear. subst valid. induction posts as [|post rest IH]; [constructor|].
  rewrite filter_cons. destruct (decide _) as [Hv|Hv]; [|exact IH].
  unfold validEmbedding in Hv. simpl.
  destruct (PostEmbedding.embedding post) eqn:He; [|discriminate].
  constructor; [exact He|exact IH].
Qed.

End RunClustering.

(** ** The further properties on example data *)

Lemma assignToCentroid_nearest_witness :
  exists cj,
    [6; 7] !! assignToCentroid (heap sixClustered) 0 [6; 7] = Some cj /\
    (euclideanDistance (deref (heap sixClustered) 0) (deref (heap sixClustered) cj)
     <=? euclideanDistance (deref (heap sixClustered) 0) (deref (heap sixClustered) 7))%num
    = true.
Proof.
  destruct (assignToCentroid_nearest (heap sixClustered) 0 [6; 7]) as (cj & Hj & Hmin & _).
  - discriminate.
  - intros c Hc.
    apply elem_of_cons in Hc as [->|Hc]; [vm_compute; reflexivity|].
    apply elem_of_cons in Hc as [->|Hc]; [vm_compute; reflexivity|].
    inversion Hc.
  - exists cj. split; [exact Hj|]. apply Hmin. right. left.
Defined.

Lemma assignToCentroid_default_witness :
  assignToCentroid (heap farWorld) 0 [1; 1] = 0.
Proof.
  apply (assignToCentroid_default (heap farWorld) 0 [1; 1]).
  intros c Hc.
  apply elem_of_cons in Hc as [->|Hc]; [vm_compute; reflexivity|].
  apply elem_of_cons in Hc as [->|Hc]; [vm_compute; reflexivity|].
  inversion Hc.
Defined.

Lemma initializeCentroids_copies_witness :
  exists cs w',
    initializeCentroids halves [0; 1; 2; 3; 4; 5] 2 sixWorld = Ok cs w' /\
    1 <= length cs <= 2 /\
    cursor w' = 2 /\
    Forall (copyOfInput sixPoints [0; 1; 2; 3; 4; 5] (heap w')) cs /\
    fresh 6 (heap w') cs /\
    NoDup cs /\
    length (heap w') = 6 + length cs /\
    frame 6 sixPoints (heap w').
Proof.
  apply (initializeCentroids_copies halves [0; 1; 2; 3; 4; 5] 2 sixWorld).
  - exact unitDraws_halves.
  - simpl. lia.
  - vm_compute. discriminate.
  - repeat constructor.
Defined.

Lemma recalculateCentroids_means_witness :
  exists cs w' l,
    recalculateCentroids halves [0; 1; 2; 3; 4; 5] [0; 0; 0; 1; 1; 1] 2 2 sixWorld
    = Ok cs w' /\
    cs !! 1 = Some l /\
    heap w' !! l
    = Some (mean [[ofZ 10; ofZ 10]; [ofZ 10; ofZ 11]; [ofZ 11; ofZ 10]] 2).
Proof.
  destruct (recalculateCentroids_means halves [0; 1; 2; 3; 4; 5] [0; 0; 0; 1; 1; 1] 2 2
                                       sixWorld) as (cs & w' & Hrun & Hmeans).
  - exact unitDraws_halves.
  - simpl. lia.
  - vm_compute. discriminate.
  - reflexivity.
  - repeat constructor.
  - repeat constructor.
  - destruct (Hmeans 1) as (l & Hl & Hh); [lia|discriminate|].
    exists cs, w', l. split; [exact Hrun|]. split; [exact Hl|exact Hh].
Defined.

Lemma recalculateCentroids_draws_witness :
  exists cs w',
    recalculateCentroids halves [0; 1; 2; 3; 4; 5] [0; 0; 0; 1; 1; 1] 2 2 sixWorld
    = Ok cs w' /\
    cursor w' = 0.
Proof.
  apply (recalculateCentroids_draws halves [0; 1; 2; 3; 4; 5] [0; 0; 0; 1; 1; 1] 2 2
                                    sixWorld).
  - exact unitDraws_halves.
  - simpl. lia.
  - vm_compute. discriminate.
  - reflexivity.
  - repeat constructor.
  - repeat constructor.
Defined.

Lemma kMeansClustering_assignments_valid_witness :
  exists res w',
    kMeansClustering halves [0; 1; 2; 3; 4; 5] (onlyK 2) sixWorld = Ok res w' /\
    length (assignments res) = 6 /\
    1 <= length (centroids res) <= 2 /\
    Forall (fun c => c < length (centroids res)) (assignments res).
Proof.
  apply (kMeansClustering_assignments_valid halves [0; 1; 2; 3; 4; 5] (onlyK 2) sixWorld).
  - exact unitDraws_halves.
  - vm_compute. discriminate.
  - simpl. lia.
Defined.

Lemma kMeansClustering_single_cluster_witness :
  exists j v,
    floorIndex (halves 0 * ofNat 6)%num = Some j /\
    [0; 1; 2; 3; 4; 5] !! j = Some v /\
    kMeansClustering halves [0; 1; 2; 3; 4; 5] (onlyK 1) sixWorld
    = Ok {| centroids := [6]; assignments := [0; 0; 0; 0; 0; 0]; iterations := 1 |}
         {| heap := sixPoints ++ [deref sixPoints v]; cursor := 1 |}.
Proof.
  apply (kMeansClustering_single_cluster halves [0; 1; 2; 3; 4; 5] (onlyK 1) sixWorld).
  - simpl. lia.
  - vm_compute. reflexivity.
  - simpl. unfold defaultMaxIterations. lia.
  - exact unitDraws_halves.
  - simpl. lia.
  - vm_compute. discriminate.
Defined.

Lemma kMeansClustering_dimension_witness :
  exists res w',
    kMeansClustering halves [0; 1; 2; 3; 4; 5] (onlyK 2) sixWorld = Ok res w' /\
    uniform (heap w') 2 (centroids res).
Proof.
  apply (kMeansClustering_dimension halves [0; 1; 2; 3; 4; 5] (onlyK 2) sixWorld 2).
  - exact unitDraws_halves.
  - vm_compute. discriminate.
  - simpl. lia.
  - repeat constructor.
Defined.

Lemma getClusterRepresentatives_members_witness :
  exists reps l js,
    getClusterRepresentatives [0; 1; 2; 3; 4; 5] [10; 11; 12; 13; 14; 15] [6; 7]
                              [0; 0; 0; 1; 1; 1] 2 sixClustered
    = Ok reps sixClustered /\
    reps !! 1 = Some l /\
    NoDup js /\
    Forall2 (fun j r => [0; 0; 0; 1; 1; 1] !! j = Some 1 /\ Representative.cluster r = 1)
            js l.
Proof.
  destruct (getClusterRepresentatives_members
              [0; 1; 2; 3; 4; 5] [10; 11; 12; 13; 14; 15] [6; 7]
              [0; 0; 0; 1; 1; 1] 2 sixClustered) as (reps & Hrun & Hmem).
  - simpl. lia.
  - assert (Hl : exists l, reps !! 1 = Some l).
    { vm_compute in Hrun. injection Hrun as <-. eexists. reflexivity. }
    destruct Hl as [l Hl].
    destruct (Hmem 1 l Hl) as (centroid & js & _ & Hnd & Hall).
    exists reps, l, js. split; [exact Hrun|]. split; [exact Hl|]. split; [exact Hnd|].
    eapply Forall2_impl; [exact Hall|]. simpl. intros j r (Hj & Hr & _). auto.
Defined.

Lemma getClusterRepresentatives_first_most_similar_witness :
  exists reps r rest,
    getClusterRepresentatives [0; 1; 2; 3; 4; 5] [10; 11; 12; 13; 14; 15] [6; 7]
                              [0; 0; 0; 1; 1; 1] 2 sixClustered
    = Ok reps sixClustered /\
    reps !! 1 = Some (r :: rest) /\
    (cosineSimilarity (deref (heap sixClustered) 5) (deref (heap sixClustered) 7)
     <=? Representative.similarity r)%num = true.
Proof.
  destruct (getClusterRepresentatives_first_most_similar
              [0; 1; 2; 3; 4; 5] [10; 11; 12; 13; 14; 15] [6; 7]
              [0; 0; 0; 1; 1; 1] 2 sixClustered) as (reps & Hrun & Hfirst).
  - simpl. lia.
  - assert (Hl : exists r rest, reps !! 1 = Some (r :: rest)).
    { vm_compute in Hrun. injection Hrun as <-. eexists _, _. reflexivity. }
    destruct Hl as (r & rest & Hl).
    exists reps, r, rest. split; [exact Hrun|]. split; [exact Hl|].
    apply (Hfirst 1 7 r rest eq_refl Hl) with (i := 5);
      [|simpl; lia|reflexivity|reflexivity].
    intros i v Hi Hasg Hv.
    do 3 (destruct i as [|i]; [discriminate Hasg|]).
    do 3 (destruct i as [|i]; [injection Hv as <-; vm_compute; reflexivity|]).
    simpl in Hi. lia.
Defined.

Lemma getClusterRepresentatives_top_witness :
  exists reps l,
    getClusterRepresentatives [0; 1; 2; 3; 4; 5] [10; 11; 12; 13; 14; 15] [6; 7]
                              [0; 0; 0; 1; 1; 1] 2 sixClustered
    = Ok reps sixClustered /\
    reps !! 1 = Some l /\
    ((exists r, r ∈ l /\ Representative.posts r = [15] /\
                Representative.similarity r
                = cosineSimilarity (deref (heap sixClustered) 5)
                                   (deref (heap sixClustered) 7)) \/
     (forall r, r ∈ l ->
                (cosineSimilarity (deref (heap sixClustered) 5)
                                  (deref (heap sixClustered) 7)
                 <=? Representative.similarity r)%num = true)).
Proof.
  destruct (getClusterRepresentatives_top
              [0; 1; 2; 3; 4; 5] [10; 11; 12; 13; 14; 15] [6; 7]
              [0; 0; 0; 1; 1; 1] 2 sixClustered) as (reps & Hrun & Htop).
  - simpl. lia.
  - assert (Hl : exists l, reps !! 1 = Some l).
    { vm_compute in Hrun. injection Hrun as <-. eexists. reflexivity. }
    destruct Hl as [l Hl].
    exists reps, l. split; [exact Hrun|]. split; [exact Hl|].
    apply (Htop 1 7 l eq_refl Hl) with (j := 5); [|reflexivity|reflexivity|reflexivity].
    intros i v Hi Hasg Hv.
    do 3 (destruct i as [|i]; [discriminate Hasg|]).
    do 3 (destruct i as [|i]; [injection Hv as <-; vm_compute; reflexivity|]).
    simpl in Hi. lia.
Defined.

Lemma getClusterRepresentatives_missing_vector_witness :
  getClusterRepresentatives [0] [10; 11] [6] [0; 0] 2 sixClustered = Throw TypeError.
Proof.
  apply (getClusterRepresentatives_missing_vector [0] [10; 11] [6] [0; 0] 2 sixClustered 1 0).
  - simpl. lia.
  - reflexivity.
  - reflexivity.
  - simpl. lia.
Defined.

Lemma runClustering_too_few_embeddings_witness :
  runClustering_kMeans halves
    [{| PostEmbedding.embedding := None; PostEmbedding.fields := 10 |};
     {| PostEmbedding.embedding := Some 0; PostEmbedding.fields := 11 |}] 2 sixWorld
  = Failed (Thrown (NotEnoughVectors 1 2)).
Proof.
  apply (runClustering_too_few_embeddings halves
           [{| PostEmbedding.embedding := None; PostEmbedding.fields := 10 |};
            {| PostEmbedding.embedding := Some 0; PostEmbedding.fields := 11 |}] 2 sixWorld).
  - simpl. lia.
  - vm_compute. lia.
Defined.

Lemma runClustering_clusters_valid_posts_witness :
  exists c w',
    runClustering_kMeans halves
      [{| PostEmbedding.embedding := Some 0; PostEmbedding.fields := 10 |};
       {| PostEmbedding.embedding := None; PostEmbedding.fields := 11 |};
       {| PostEmbedding.embedding := Some 3; PostEmbedding.fields := 12 |}] 2 sixWorld
    = Done c w' /\
    Clustered.validPosts c
    = [{| PostEmbedding.embedding := Some 0; PostEmbedding.fields := 10 |};
       {| PostEmbedding.embedding := Some 3; PostEmbedding.fields := 12 |}].
Proof.
  destruct (runClustering_clusters_valid_posts halves
      [{| PostEmbedding.embedding := Some 0; PostEmbedding.fields := 10 |};
       {| PostEmbedding.embedding := None; PostEmbedding.fields := 11 |};
       {| PostEmbedding.embedding := Some 3; PostEmbedding.fields := 12 |}] 2 sixWorld)
    as (c & w' & Hrun & Hvalid & _).
  - exact unitDraws_halves.
  - vm_compute. discriminate.
  - vm_compute. lia.
  - exists c, w'. split; [exact Hrun|exact Hvalid].
Defined.

Lemma converged_default_tolerance_witness :
  converged 1 300 defaultTolerance = false.
Proof.
  apply (converged_default_tolerance 1 300); [lia|lia|lia].
Defined.

Lemma kMeansClustering_early_stop_fixed_point_witness :
  exists res w',
    kMeansClustering halves [0; 1; 2; 3; 4; 5] (onlyK 2) sixWorld = Ok res w' /\
    iterations res = 2 /\
    assignments res = assignAll (heap w') [0; 1; 2; 3; 4; 5] (centroids res) /\
    centroidsAreMeans (heap w') [0; 1; 2; 3; 4; 5] 2 2 res.
Proof.
  destruct (kMeansClustering_early_stop_fixed_point
              halves [0; 1; 2; 3; 4; 5] (onlyK 2) sixWorld 0)
    as (res & w' & Hrun & Hfix).
  - reflexivity.
  - exact unitDraws_halves.
  - simpl. lia.
  - simpl. lia.
  - repeat constructor.
  - reflexivity.
  - assert (Hit : iterations res = 2).
    { pose proof Hrun as Hc. vm_compute in Hc. injection Hc as <- _. reflexivity. }
    exists res, w'. split; [exact Hrun|]. split; [exact Hit|].
    apply Hfix. rewrite Hit. simpl. unfold defaultMaxIterations. lia.
Defined.
